(** * Cancellation tokens and timeout enforcers

    A shallow embedding of [src/prefect/_internal/concurrency/timeouts.py]:
    the [CancelContext] token (flags, chained children, per-token lock), the
    monotonic clock, and the entry and exit paths of the three enforcers
    ([cancel_async_at], [_alarm_based_timeout], [_watcher_thread_based_timeout])
    together with the dispatcher [cancel_sync_after].

    Tokens are Python objects that are shared by reference: a parent keeps its
    children in [_chained] and mutates them when it is cancelled.  They live
    in a store indexed by address, and every method threads that store.

    Modelling choices:
    - instants and durations (Python floats) are exact rationals, and so are
      their sums and differences, which Python rounds;
    - [time.monotonic()] reads the next value of a clock oracle, so that two
      reads in one call may differ;
    - a [threading.Lock] is a flag in the token.  Every method body is a
      critical section of its token's lock, so a program is the sequence in
      which its calls take effect, whichever threads make them; a call that
      acquires a lock which is still held at that point (its own, or that of
      one of its callers in the cascade) blocks forever;
    - the recursion of [mark_cancelled] through [_chained] is bounded by a
      budget that the top-level call sets above the number of tokens, which
      is more than any cascade can use;
    - a [with] statement over one of the context managers is its entry path,
      the body, and its exit path, which runs whether the body returns or
      raises;
    - calls to the logger have no effect on tokens and are left out. *)

From stdpp Require Import base list relations.
From Stdlib Require Import QArith Lqa.

Local Open Scope nat_scope.

(** ** Data model *)

Abbreviation addr := nat.
Abbreviation thread_id := nat.
Abbreviation scope_id := nat.

(** The callables handed to [CancelContext(..., cancel=...)] in this module. *)
Inductive cancel_fn : Type :=
| CancelDefault                 (* the default, [cancel=None] *)
| CancelNoop                    (* [lambda: None] (Windows) *)
| CancelScope (s : scope_id)    (* [scope.cancel] of an anyio scope *)
| CancelAlarm                   (* [lambda: signal.raise_signal(SIGALRM)] *)
| CancelInject (th : thread_id) (* [_send_exception_to_thread(th, CancelledError)] *).

Record CancelContext : Type := mkCancelContext {
  _timeout : option Q;
  _deadline : option Q;
  _cancelled : bool;
  _chained : list addr;
  _lock : bool;                 (* [threading.Lock]: [true] while held *)
  _completed : bool;
  _cancel : cancel_fn
}.

Abbreviation Heap := (list CancelContext).

Definition set_cancelled (t : CancelContext) : CancelContext :=
  mkCancelContext (_timeout t) (_deadline t) true (_chained t) (_lock t)
    (_completed t) (_cancel t).

Definition set_completed (t : CancelContext) : CancelContext :=
  mkCancelContext (_timeout t) (_deadline t) (_cancelled t) (_chained t)
    (_lock t) true (_cancel t).

Definition set_lock (b : bool) (t : CancelContext) : CancelContext :=
  mkCancelContext (_timeout t) (_deadline t) (_cancelled t) (_chained t) b
    (_completed t) (_cancel t).

Definition append_chained (ctx : addr) (t : CancelContext) : CancelContext :=
  mkCancelContext (_timeout t) (_deadline t) (_cancelled t)
    (_chained t ++ [ctx]) (_lock t) (_completed t) (_cancel t).

(** ** Computations

    A call either returns a value and a state, raises an exception (leaving
    a state behind), blocks forever on a lock that is already held
    ([threading.Lock] is not re-entrant), is killed by a signal that has no
    handler, dereferences an address that is not allocated, or exhausts the
    recursion budget. *)

Inductive exn : Type :=
| TimeoutError
| CancelledError
| ValueError
| TypeError
| ItimerError
| UnboundLocalError.

Inductive res (S A : Type) : Type :=
| Ok (a : A) (s : S)
| Raise (e : exn) (s : S)
| Deadlock
| Killed
| BadRef
| OutOfFuel.
Arguments Ok {S A} a s.
Arguments Raise {S A} e s.
Arguments Deadlock {S A}.
Arguments Killed {S A}.
Arguments BadRef {S A}.
Arguments OutOfFuel {S A}.

Definition M (S A : Type) : Type := S -> res S A.

Definition ret {S A} (a : A) : M S A := fun s => Ok a s.

Definition raise {S A} (e : exn) : M S A := fun s => Raise e s.

Definition bind {S A B} (m : M S A) (k : A -> M S B) : M S B := fun s =>
  match m s with
  | Ok a s' => k a s'
  | Raise e s' => Raise e s'
  | Deadlock => Deadlock
  | Killed => Killed
  | BadRef => BadRef
  | OutOfFuel => OutOfFuel
  end.

Notation "'let*' x ':=' m 'in' k" := (bind m (fun x => k))
  (at level 10, x name, m at level 100, k at level 200,
   format "'[v' 'let*'  x  ':='  m  'in' '/' k ']'").
Notation "m '>>' k" := (bind m (fun _ => k))
  (at level 100, k at level 200, right associativity).

(** [try: body finally: cleanup] *)
Definition try_finally {S A} (body : M S A) (cleanup : M S unit) : M S A :=
  fun s =>
    match body s with
    | Ok a s' => (cleanup >> ret a) s'
    | Raise e s' => (cleanup >> raise e) s'
    | Deadlock => Deadlock
    | Killed => Killed
    | BadRef => BadRef
    | OutOfFuel => OutOfFuel
    end.

(** ** Token methods over the store *)

Definition load {A} (p : addr) (f : CancelContext -> A) : M Heap A := fun h =>
  match h !! p with
  | Some t => Ok (f t) h
  | None => BadRef
  end.

Definition store (p : addr) (f : CancelContext -> CancelContext)
  : M Heap unit := fun h =>
  match h !! p with
  | Some t => Ok tt (<[p := f t]> h)
  | None => BadRef
  end.

Definition acquire (p : addr) : M Heap unit := fun h =>
  match h !! p with
  | Some t => if _lock t then Deadlock else Ok tt (<[p := set_lock true t]> h)
  | None => BadRef
  end.

Definition release (p : addr) : M Heap unit := store p (set_lock false).

(** [with self._lock: body] *)
Definition with_lock {A} (p : addr) (body : M Heap A) : M Heap A :=
  acquire p >> try_finally body (release p).

Fixpoint for_each {S} (l : list addr) (f : addr -> M S unit) : M S unit :=
  match l with
  | [] => ret tt
  | x :: l' => f x >> for_each l' f
  end.

(** [CancelContext.cancelled] and [CancelContext.completed] *)
Definition cancelled (self : addr) : M Heap bool :=
  with_lock self (load self _cancelled).

Definition completed (self : addr) : M Heap bool :=
  with_lock self (load self _completed).

(** [CancelContext.mark_cancelled].  The recursion through [_chained] nests
    one lock deeper at every level, so its depth is bounded by the number of
    tokens; [fuel] is that depth budget. *)
Fixpoint mark_cancelled_aux (fuel : nat) (self : addr) : M Heap bool :=
  match fuel with
  | O => fun _ => OutOfFuel
  | S fuel' =>
      with_lock self
        (let* done := load self _completed in
         if done then ret false
         else
           store self set_cancelled >>
           let* chained := load self _chained in
           for_each chained (fun ctx => mark_cancelled_aux fuel' ctx >> ret tt) >>
           ret true)
  end.

Definition mark_cancelled (self : addr) : M Heap bool := fun h =>
  mark_cancelled_aux (S (length h)) self h.

(** [CancelContext.mark_completed] *)
Definition mark_completed (self : addr) : M Heap bool :=
  with_lock self
    (let* gone := load self _cancelled in
     if gone then ret false
     else store self set_completed >> ret true).

(** [CancelContext.chain] *)
Definition chain (self ctx : addr) : M Heap unit :=
  with_lock self
    (let* gone := load self _cancelled in
     if gone then mark_cancelled ctx >> ret tt
     else store self (append_chained ctx)).

(** The state [CancelContext.__init__] builds, given the deadline already
    computed by [get_deadline]. *)
Definition fresh_token (timeout deadline : option Q) (cancel : cancel_fn)
  : CancelContext :=
  mkCancelContext timeout deadline false [] false false cancel.

Definition alloc (t : CancelContext) : M Heap addr :=
  fun h => Ok (length h) (h ++ [t]).

(** ** The process around the tokens *)

(** An anyio [CancelScope]: its deadline ([None] is [math.inf]) and its
    [cancel_called] flag. *)
Record CancelScopeState : Type := mkScope {
  scope_deadline : option Q;
  cancel_called : bool
}.

(** The closure [raise_alarm_as_timeout] installed for SIGALRM: the [ctx],
    [timeout] and [deadline] of the [_alarm_based_timeout] frame. *)
Record AlarmHandler : Type := mkAlarmHandler {
  alarm_ctx : addr;
  alarm_timeout : option Q;
  alarm_deadline : option Q
}.

(** A started [timeout_enforcer] thread of [_watcher_thread_based_timeout]. *)
Record Watcher : Type := mkWatcher {
  watch_timeout : Q;
  watch_event : nat;
  watch_thread : thread_id;
  watch_ctx : addr
}.

Record World : Type := mkWorld {
  tokens : Heap;
  clock : nat -> Q;               (* successive readings of [time.monotonic] *)
  ticks : nat;                    (* readings taken so far *)
  win32 : bool;                   (* [sys.platform.startswith("win")] *)
  current_thread : thread_id;
  main_thread : thread_id;
  live_threads : list thread_id;
  sigalrm : option AlarmHandler;  (* [None]: default disposition *)
  itimer : Q * Q;                 (* ITIMER_REAL: seconds and interval *)
  scopes : list CancelScopeState;
  events : list bool;             (* [threading.Event] flags *)
  watchers : list Watcher;
  async_exc : list (thread_id * exn) (* set by [PyThreadState_SetAsyncExc] *)
}.

Definition with_tokens (h : Heap) (w : World) : World :=
  mkWorld h (clock w) (ticks w) (win32 w) (current_thread w) (main_thread w)
    (live_threads w) (sigalrm w) (itimer w) (scopes w) (events w) (watchers w)
    (async_exc w).

Definition with_ticks (n : nat) (w : World) : World :=
  mkWorld (tokens w) (clock w) n (win32 w) (current_thread w) (main_thread w)
    (live_threads w) (sigalrm w) (itimer w) (scopes w) (events w) (watchers w)
    (async_exc w).

Definition with_sigalrm (a : option AlarmHandler) (w : World) : World :=
  mkWorld (tokens w) (clock w) (ticks w) (win32 w) (current_thread w)
    (main_thread w) (live_threads w) a (itimer w) (scopes w) (events w)
    (watchers w) (async_exc w).

Definition with_itimer (v : Q * Q) (w : World) : World :=
  mkWorld (tokens w) (clock w) (ticks w) (win32 w) (current_thread w)
    (main_thread w) (live_threads w) (sigalrm w) v (scopes w) (events w)
    (watchers w) (async_exc w).

Definition with_scopes (l : list CancelScopeState) (w : World) : World :=
  mkWorld (tokens w) (clock w) (ticks w) (win32 w) (current_thread w)
    (main_thread w) (live_threads w) (sigalrm w) (itimer w) l (events w)
    (watchers w) (async_exc w).

Definition with_events (l : list bool) (w : World) : World :=
  mkWorld (tokens w) (clock w) (ticks w) (win32 w) (current_thread w)
    (main_thread w) (live_threads w) (sigalrm w) (itimer w) (scopes w) l
    (watchers w) (async_exc w).

Definition with_watchers (l : list Watcher) (w : World) : World :=
  mkWorld (tokens w) (clock w) (ticks w) (win32 w) (current_thread w)
    (main_thread w) (live_threads w) (sigalrm w) (itimer w) (scopes w)
    (events w) l (async_exc w).

Definition with_async_exc (l : list (thread_id * exn)) (w : World) : World :=
  mkWorld (tokens w) (clock w) (ticks w) (win32 w) (current_thread w)
    (main_thread w) (live_threads w) (sigalrm w) (itimer w) (scopes w)
    (events w) (watchers w) l.

Definition with_threads (current : thread_id) (live : list thread_id)
  (w : World) : World :=
  mkWorld (tokens w) (clock w) (ticks w) (win32 w) current (main_thread w)
    live (sigalrm w) (itimer w) (scopes w) (events w) (watchers w)
    (async_exc w).

(** A token method run inside the process. *)
Definition lift {A} (m : M Heap A) : M World A := fun w =>
  match m (tokens w) with
  | Ok a h => Ok a (with_tokens h w)
  | Raise e h => Raise e (with_tokens h w)
  | Deadlock => Deadlock
  | Killed => Killed
  | BadRef => BadRef
  | OutOfFuel => OutOfFuel
  end.

(** [time.monotonic()] *)
Definition monotonic : M World Q := fun w =>
  Ok (clock w (ticks w)) (with_ticks (S (ticks w)) w).

(** [get_deadline] *)
Definition get_deadline (timeout : option Q) : M World (option Q) :=
  match timeout with
  | None => ret None
  | Some t => let* now := monotonic in ret (Some (now + t)%Q)
  end.

(** [CancelContext(timeout=..., cancel=...)] *)
Definition new_context (timeout : option Q) (cancel : cancel_fn)
  : M World addr :=
  let* deadline := get_deadline timeout in
  lift (alloc (fresh_token timeout deadline cancel)).

(** Python's [max(a, b)]: the first argument unless the second is larger. *)
Definition py_max (a b : Q) : Q := if Qle_bool b a then a else b.

(** Truth value of an [Optional[float]]: [None] and zero are false. *)
Definition truthy (d : option Q) : bool :=
  match d with
  | None => false
  | Some q => negb (Qeq_bool q 0)
  end.

(** [_send_exception_to_thread], called from a thread other than the
    target: the exception is left for the target thread to raise, and the
    injections made so far are kept in order. *)
Definition _send_exception_to_thread (th : thread_id) (e : exn)
  : M World unit := fun w =>
  if bool_decide (th ∈ live_threads w)
  then Ok tt (with_async_exc (async_exc w ++ [(th, e)]) w)
  else Raise ValueError w.

(** [scope.cancel()] of anyio: records that cancellation was requested. *)
Definition scope_cancel (s : scope_id) : M World unit := fun w =>
  match scopes w !! s with
  | Some sc =>
      Ok tt (with_scopes (<[s := mkScope (scope_deadline sc) true]> (scopes w)) w)
  | None => BadRef
  end.

Definition scope_cancel_called (s : scope_id) : M World bool := fun w =>
  match scopes w !! s with
  | Some sc => Ok (cancel_called sc) w
  | None => BadRef
  end.

(** [raise_alarm_as_timeout], the SIGALRM handler. *)
Definition raise_alarm_as_timeout (cl : AlarmHandler) : M World unit :=
  lift (mark_cancelled (alarm_ctx cl)) >>
  match alarm_timeout cl with
  | None => raise CancelledError
  | Some _ =>
      let* now := monotonic in
      match alarm_deadline cl with
      | Some d => raise (if Qle_bool d now then TimeoutError else CancelledError)
      | None => raise TypeError
      end
  end.

(** [signal.raise_signal(signal.SIGALRM)]: the installed handler runs before
    the call returns; without a handler the process is terminated. *)
Definition raise_sigalrm : M World unit := fun w =>
  match sigalrm w with
  | Some cl => raise_alarm_as_timeout cl w
  | None => Killed
  end.

(** Calling the [_cancel] callable of a token. *)
Definition call_cancel_fn (fn : cancel_fn) : M World unit :=
  match fn with
  | CancelDefault => raise TypeError
  | CancelNoop => ret tt
  | CancelScope s => scope_cancel s
  | CancelAlarm => raise_sigalrm
  | CancelInject th => _send_exception_to_thread th CancelledError
  end.

(** [CancelContext.cancel] *)
Definition cancel (self : addr) : M World unit :=
  let* marked := lift (mark_cancelled self) in
  if marked then
    let* fn := lift (load self _cancel) in
    call_cancel_fn fn
  else ret tt.

(** ** Cooperative enforcer: [cancel_async_at] and [cancel_async_after] *)

(** [anyio.CancelScope(deadline=...)], as constructed.  What anyio does with
    the scope on its own account, cancelling it on entry when the deadline
    has already passed, or later when it expires, is the separate call
    [scope_cancel]. *)
Definition new_scope (deadline : option Q) : M World scope_id := fun w =>
  Ok (length (scopes w)) (with_scopes (scopes w ++ [mkScope deadline false]) w).

(** [cancel_async_at] up to its [yield]: the scope and the token it yields. *)
Definition cancel_async_at_enter (deadline : option Q)
  : M World (scope_id * addr) :=
  let* timeout :=
    (if truthy deadline then
       match deadline with
       | Some d => let* now := monotonic in ret (Some (py_max 0 (d - now)%Q))
       | None => ret None
       end
     else ret None) in
  let* scope := new_scope deadline in
  let* ctx := new_context timeout (CancelScope scope) in
  ret (scope, ctx).

(** The [finally] block of [cancel_async_at]. *)
Definition cancel_async_at_exit (deadline : option Q) (scope : scope_id)
  (ctx : addr) : M World unit :=
  let* called := scope_cancel_called scope in
  if called then
    lift (mark_cancelled ctx) >>
    match deadline with
    | Some d =>
        let* now := monotonic in
        raise (if Qle_bool d now then TimeoutError else CancelledError)
    | None => raise CancelledError
    end
  else lift (mark_completed ctx) >> ret tt.

(** [cancel_async_after] up to its [yield]; it leaves through
    [cancel_async_at_exit] with the deadline computed here. *)
Definition cancel_async_after_enter (timeout : option Q)
  : M World (option Q * (scope_id * addr)) :=
  let* deadline :=
    match timeout with
    | Some t => let* now := monotonic in ret (Some (now + t)%Q)
    | None => ret None
    end in
  let* r := cancel_async_at_enter deadline in
  ret (deadline, r).

(** ** Alarm enforcer: [_alarm_based_timeout] *)

(** [signal.signal(signal.SIGALRM, handler)] *)
Definition signal_sigalrm (cl : AlarmHandler) : M World unit := fun w =>
  Ok tt (with_sigalrm (Some cl) w).

(** [signal.setitimer(signal.ITIMER_REAL, seconds, interval)]: returns the
    old setting; a negative value is rejected.  [timer_accepts] and
    [timer_rejects] below delimit the durations for which this is what the
    interpreter does. *)
Definition setitimer (seconds interval : Q) : M World (Q * Q) := fun w =>
  if Qle_bool 0 seconds && Qle_bool 0 interval
  then Ok (itimer w) (with_itimer (seconds, interval) w)
  else Raise ItimerError w.

Definition on_main_thread : M World bool := fun w =>
  Ok (bool_decide (current_thread w = main_thread w)) w.

(** [_alarm_based_timeout] up to its [yield]: the token and [previous]. *)
Definition _alarm_based_timeout_enter (timeout : option Q)
  : M World (addr * option (Q * Q)) :=
  let* is_main := on_main_thread in
  if negb is_main then raise ValueError
  else
    let* deadline := get_deadline timeout in
    let* ctx := new_context timeout CancelAlarm in
    signal_sigalrm (mkAlarmHandler ctx timeout deadline) >>
    match timeout with
    | Some t =>
        let* previous := setitimer t 0 in
        ret (ctx, Some previous)
    | None => ret (ctx, None)
    end.

(** The [finally] block of [_alarm_based_timeout]. *)
Definition _alarm_based_timeout_exit (timeout : option Q)
  (previous : option (Q * Q)) (ctx : addr) : M World unit :=
  match timeout with
  | Some _ =>
      match previous with
      | Some (seconds, interval) => setitimer seconds interval >> ret tt
      | None => raise UnboundLocalError
      end
  | None => ret tt
  end >>
  lift (mark_completed ctx) >> ret tt.

(** ** Watcher enforcer: [_watcher_thread_based_timeout] *)

(** [threading.Event()], [event.set()] and [event.is_set()] *)
Definition new_event : M World nat := fun w =>
  Ok (length (events w)) (with_events (events w ++ [false]) w).

Definition event_set (e : nat) : M World unit := fun w =>
  match events w !! e with
  | Some _ => Ok tt (with_events (<[e := true]> (events w)) w)
  | None => BadRef
  end.

Definition event_is_set (e : nat) : M World bool := fun w =>
  match events w !! e with
  | Some b => Ok b w
  | None => BadRef
  end.

(** [threading.Thread(target=timeout_enforcer, daemon=True).start()] *)
Definition start_watcher (wt : Watcher) : M World unit := fun w =>
  Ok tt (with_watchers (watchers w ++ [wt]) w).

(** [_watcher_thread_based_timeout] up to its [yield]. *)
Definition _watcher_thread_based_timeout_enter (timeout : option Q)
  : M World (nat * addr) :=
  let* event := new_event in
  let* supervised_thread := (fun w => Ok (current_thread w) w) in
  let* ctx := new_context timeout (CancelInject supervised_thread) in
  match timeout with
  | Some t => start_watcher (mkWatcher t event supervised_thread ctx)
  | None => ret tt
  end >>
  ret (event, ctx).

(** [timeout_enforcer], once its [time.sleep(timeout)] is over. *)
Definition timeout_enforcer (wt : Watcher) : M World unit :=
  let* is_set := event_is_set (watch_event wt) in
  if negb is_set then
    lift (mark_cancelled (watch_ctx wt)) >>
    _send_exception_to_thread (watch_thread wt) TimeoutError
  else ret tt.

(** The [finally] block of [_watcher_thread_based_timeout]. *)
Definition _watcher_thread_based_timeout_exit (event : nat) (ctx : addr)
  : M World unit :=
  event_set event >> lift (mark_completed ctx) >> ret tt.

(** ** Dispatcher: [cancel_sync_after] and [cancel_sync_at] *)

(** What a synchronous scope needs again when it is left. *)
Inductive sync_frame : Type :=
| FrameWindows (ctx : addr)
| FrameAlarm (timeout : option Q) (previous : option (Q * Q)) (ctx : addr)
| FrameWatcher (event : nat) (ctx : addr).

Definition frame_ctx (f : sync_frame) : addr :=
  match f with
  | FrameWindows ctx => ctx
  | FrameAlarm _ _ ctx => ctx
  | FrameWatcher _ ctx => ctx
  end.

Definition cancel_sync_after_enter (timeout : option Q) : M World sync_frame :=
  let* windows := (fun w => Ok (win32 w) w) in
  if windows then
    let* ctx := new_context None CancelNoop in
    ret (FrameWindows ctx)
  else
    let* is_main := on_main_thread in
    if is_main then
      let* r := _alarm_based_timeout_enter timeout in
      ret (FrameAlarm timeout (snd r) (fst r))
    else
      let* r := _watcher_thread_based_timeout_enter timeout in
      ret (FrameWatcher (fst r) (snd r)).

Definition cancel_sync_after_exit (f : sync_frame) : M World unit :=
  match f with
  | FrameWindows _ => ret tt
  | FrameAlarm timeout previous ctx =>
      _alarm_based_timeout_exit timeout previous ctx
  | FrameWatcher event ctx => _watcher_thread_based_timeout_exit event ctx
  end.

Definition cancel_sync_at_enter (deadline : option Q) : M World sync_frame :=
  let* timeout :=
    match deadline with
    | Some d => let* now := monotonic in ret (Some (py_max 0 (d - now)%Q))
    | None => ret None
    end in
  cancel_sync_after_enter timeout.

(** ** Programs: sequences of calls into the module *)

(** The interpreter hands control to another thread. *)
Definition schedule (current : thread_id) (live : list thread_id)
  : M World unit := fun w => Ok tt (with_threads current live w).


Inductive op : Type :=
| OpNew (timeout : option Q) (cancel : cancel_fn)
| OpCancelled (self : addr)
| OpCompleted (self : addr)
| OpMarkCancelled (self : addr)
| OpMarkCompleted (self : addr)
| OpChain (self ctx : addr)
| OpCancel (self : addr)
| OpAsyncAtEnter (deadline : option Q)
| OpAsyncAfterEnter (timeout : option Q)
| OpAsyncExit (deadline : option Q) (scope : scope_id) (ctx : addr)
| OpScopeCancel (scope : scope_id)   (* the scheduler calls [scope.cancel()] *)
| OpSyncAtEnter (deadline : option Q)
| OpSyncAfterEnter (timeout : option Q)
| OpSyncExit (f : sync_frame)
| OpAlarmEnter (timeout : option Q)
| OpWatcherEnter (timeout : option Q)
| OpSchedule (current : thread_id) (live : list thread_id)
                                     (* another thread runs; threads come and go *)
| OpSigalrm                          (* the interval timer expires *)
| OpTimeoutEnforcer (i : nat)        (* the i-th watcher thread wakes up *).

Definition exec (o : op) : M World unit :=
  match o with
  | OpNew timeout fn => new_context timeout fn >> ret tt
  | OpCancelled self => lift (cancelled self) >> ret tt
  | OpCompleted self => lift (completed self) >> ret tt
  | OpMarkCancelled self => lift (mark_cancelled self) >> ret tt
  | OpMarkCompleted self => lift (mark_completed self) >> ret tt
  | OpChain self ctx => lift (chain self ctx)
  | OpCancel self => cancel self
  | OpAsyncAtEnter deadline => cancel_async_at_enter deadline >> ret tt
  | OpAsyncAfterEnter timeout => cancel_async_after_enter timeout >> ret tt
  | OpAsyncExit deadline scope ctx => cancel_async_at_exit deadline scope ctx
  | OpScopeCancel scope => scope_cancel scope
  | OpSyncAtEnter deadline => cancel_sync_at_enter deadline >> ret tt
  | OpSyncAfterEnter timeout => cancel_sync_after_enter timeout >> ret tt
  | OpSyncExit f => cancel_sync_after_exit f
  | OpAlarmEnter timeout => _alarm_based_timeout_enter timeout >> ret tt
  | OpWatcherEnter timeout =>
      _watcher_thread_based_timeout_enter timeout >> ret tt
  | OpSchedule current live => schedule current live
  | OpSigalrm => raise_sigalrm
  | OpTimeoutEnforcer i =>
      (fun w => match watchers w !! i with
                | Some wt => timeout_enforcer wt w
                | None => BadRef
                end)
  end.

(** One call that comes back, normally or with an exception the caller
    catches.  A call that blocks or kills the process has no successor. *)
Inductive step (w w' : World) : Prop :=
| step_return (o : op) : exec o w = Ok tt w' -> step w w'
| step_raise (o : op) (e : exn) : exec o w = Raise e w' -> step w w'.

Definition steps : World -> World -> Prop := rtc step.

(** The state a call leaves behind. *)
Definition after (o : op) (w : World) : World :=
  match exec o w with
  | Ok _ w' | Raise _ w' => w'
  | _ => w
  end.

(** ** The clock of the specification

    [remaining(deadline)], as the specification words it:
    [max(0, deadline - now())] if the deadline is set, else null.  The code
    has no such function; both deadline entry points compute the value
    inline. *)
Definition remaining (deadline : option Q) (now : Q) : option Q :=
  match deadline with
  | Some d => Some (py_max 0 (d - now)%Q)
  | None => None
  end.

(** ** Predicates on tokens and stores *)

Definition is_fresh (t : CancelContext) : Prop :=
  _cancelled t = false /\ _completed t = false /\ _chained t = [] /\
  _lock t = false.

(** A world in which no token has been touched yet. *)
Definition fresh_world (w : World) : Prop := Forall is_fresh (tokens w).

Definition locks_free (h : Heap) : Prop :=
  forall a t, h !! a = Some t -> _lock t = false.

Definition all_unlocked (h : Heap) : bool :=
  forallb (fun t => negb (_lock t)) h.

Definition exclusive (h : Heap) : Prop :=
  forall a t, h !! a = Some t -> _cancelled t && _completed t = false.

Definition is_cancelled (h : Heap) (a : addr) : bool :=
  match h !! a with
  | Some t => _cancelled t
  | None => false
  end.

(** A token without timeout or deadline. *)
Definition unbounded_token (w : World) (ctx : addr) : Prop :=
  exists tok, tokens w !! ctx = Some tok /\
    _timeout tok = None /\ _deadline tok = None.

(** *** How a cascade relates two states of a token *)

(** [t'] is [t] up to the two fields [mark_cancelled] writes. *)
Definition same_skeleton (t t' : CancelContext) : Prop :=
  set_lock false (set_cancelled t') = set_lock false (set_cancelled t).

(** What a cascade may do to a token: nothing, or cancel it if it has not
    completed. *)
Definition adv (t t' : CancelContext) : Prop :=
  t' = t \/ (_completed t = false /\ t' = set_cancelled t).

(** Cancelled flags only grow, held locks only shrink. *)
Definition relax (t t' : CancelContext) : Prop :=
  same_skeleton t t' /\
  (_cancelled t = true -> _cancelled t' = true) /\
  (_lock t' = true -> _lock t = true).


(** Tokens stay, and so do their terminal flags. *)
Definition grows (h h' : Heap) : Prop :=
  forall a t, h !! a = Some t ->
    exists t', h' !! a = Some t' /\
      (_cancelled t = true -> _cancelled t' = true) /\
      (_completed t = true -> _completed t' = true).

(** *** The chain graph *)

(** The tokens a cascade started at [p] cancels: [p] itself if it has not
    completed, and what its chained children cancel in turn. *)
Inductive reach (h : Heap) : addr -> addr -> Prop :=
| reach_self p t :
    h !! p = Some t -> _completed t = false -> reach h p p
| reach_child p t c a :
    h !! p = Some t -> _completed t = false -> c ∈ _chained t ->
    reach h c a -> reach h p a.

(** Below [p], the chain relation between tokens that have not completed
    is acyclic, as witnessed by a rank that decreases along it, and chained
    addresses are allocated. *)
Definition ranked (rk : addr -> nat) (h : Heap) (p : addr) : Prop :=
  forall a t c, reach h p a -> h !! a = Some t -> c ∈ _chained t ->
    exists tc, h !! c = Some tc /\ (_completed tc = false -> rk c < rk a).

(** A check, by computation, that [rk] decreases along every chain edge
    between tokens that have not completed. *)
Definition edge_ok (rk : addr -> nat) (h : Heap) (a c : addr) : bool :=
  match h !! c with
  | Some tc => _completed tc || bool_decide (rk c < rk a)
  | None => false
  end.

Definition acyclic_by (rk : addr -> nat) (h : Heap) : bool :=
  forallb (fun at_ : addr * CancelContext =>
             _completed (snd at_) ||
             forallb (edge_ok rk h (fst at_)) (_chained (snd at_)))
          (imap pair h).

(** Held locks belong to tokens that have not completed and rank above
    [p]: the callers of a nested [mark_cancelled]. *)
Definition locks_above (rk : addr -> nat) (h : Heap) (p : addr) : Prop :=
  forall a t, h !! a = Some t -> _lock t = true ->
    _completed t = false /\
    (forall tp, h !! p = Some tp -> _completed tp = false -> rk p < rk a).

(** *** Runs of the cascade *)

(** One iteration of the loop in [mark_cancelled]. *)
Definition child_call (n : nat) (ctx : addr) : M Heap unit :=
  mark_cancelled_aux n ctx >> ret tt.

(** Number of tokens whose lock is free: the depth a cascade can reach. *)
Definition free_locks (h : Heap) : nat :=
  length (filter (fun t => _lock t = false) h).

(** Neither an exception nor a fatal signal. *)
Definition plain {S A} (r : res S A) : Prop :=
  match r with
  | Raise _ _ | Killed => False
  | _ => True
  end.

(** The call comes back, if the budget allows. *)
Definition returns {A} (r : res Heap A) : Prop :=
  r = OutOfFuel \/ exists a h', r = Ok a h'.

(** *** Invariants of the store *)

(** Cancelling a cancelled token again changes nothing. *)
Definition settled (h : Heap) : Prop :=
  forall a t, h !! a = Some t -> _cancelled t = true ->
    exists n b, mark_cancelled_aux n a h = Ok b h.

Definition inv (h : Heap) : Prop := locks_free h /\ exclusive h /\ settled h.

(** The ways this module changes the store. *)
Inductive hstep (h : Heap) : Heap -> Prop :=
| hstep_alloc t : is_fresh t -> hstep h (h ++ [t])
| hstep_mark_cancelled p b h' : mark_cancelled p h = Ok b h' -> hstep h h'
| hstep_mark_completed p b h' : mark_completed p h = Ok b h' -> hstep h h'
| hstep_chain p c h' : chain p c h = Ok tt h' -> hstep h h'.

(** A call changes the store only through these. *)
Definition tame {A} (m : M World A) : Prop :=
  forall w,
    match m w with
    | Ok _ w' | Raise _ w' => rtc hstep (tokens w) (tokens w')
    | _ => True
    end.

(** A call leaves the store alone. *)
Definition silent {A} (m : M World A) : Prop :=
  forall w,
    match m w with
    | Ok _ w' | Raise _ w' => tokens w' = tokens w
    | _ => True
    end.

(** ** Concrete stores and processes *)

Definition tok_fresh : CancelContext := fresh_token None None CancelNoop.

Definition tok_parent : CancelContext :=
  mkCancelContext None None false [1; 2] false false CancelNoop.

Definition three_fresh : Heap := [tok_fresh; tok_fresh; tok_fresh].

(** A parent chained to two fresh children. *)
Definition family : Heap := [tok_parent; tok_fresh; tok_fresh].

(** The same parent when its first child has completed. *)
Definition family_done : Heap :=
  [tok_parent; set_completed tok_fresh; tok_fresh].

(** A cancelled token next to a fresh one. *)
Definition cancelled_pair : Heap := [set_cancelled tok_fresh; tok_fresh].

(** A token chained to itself. *)
Definition self_chained : Heap :=
  [mkCancelContext None None false [0] false false CancelNoop].

Definition rank_by_address (a : addr) : nat := 2 - a.

(** A process on its main thread, nothing installed, the clock at zero. *)
Definition world_main : World :=
  mkWorld [] (fun _ => 0%Q) 0 false 0 0 [0] None (0%Q, 0%Q) [] [] [] [].

(** The same process seen from a worker thread. *)
Definition world_worker : World :=
  mkWorld [] (fun _ => 0%Q) 0 false 1 0 [0; 1] None (0%Q, 0%Q) [] [] [] [].

(** A cooperative scope with deadline 5 whose cancellation was requested,
    left at the very instant the clock reads 5. *)
Definition world_at_deadline : World :=
  mkWorld [fresh_token (Some 5%Q) (Some 5%Q) (CancelScope 0)]
    (fun _ => 5%Q) 0 false 0 0 [0] None (0%Q, 0%Q)
    [mkScope (Some 5%Q) true] [] [] [].

(** A process holding two fresh tokens; the same process after
    [t0.chain(t1); t0.mark_cancelled()], and after a further
    [t1.mark_completed()]. *)
Definition world_two_tokens : World :=
  mkWorld [tok_fresh; tok_fresh] (fun _ => 0%Q) 0 false 0 0 [0] None
    (0%Q, 0%Q) [] [] [] [].

Definition world_cancelled : World :=
  after (OpMarkCancelled 0) (after (OpChain 0 1) world_two_tokens).

Definition world_cancelled_later : World :=
  after (OpMarkCompleted 1) world_cancelled.

(** ** Whole scopes

    [with cm(...) as ctx: body(ctx)] for the context managers of the module.
    A generator-based context manager runs up to its [yield] when the scope
    is entered.  The rest of the generator runs when the body returns, and
    also when the body raises: the exception is thrown at the [yield], so it
    passes through the [finally] block around it and, unless that block
    raises itself, goes on to the caller. *)

Definition cancel_async_at {A} (deadline : option Q)
  (body : addr -> M World A) : M World A :=
  let* r := cancel_async_at_enter deadline in
  try_finally (body (snd r)) (cancel_async_at_exit deadline (fst r) (snd r)).

Definition cancel_async_after {A} (timeout : option Q)
  (body : addr -> M World A) : M World A :=
  let* deadline :=
    match timeout with
    | Some t => let* now := monotonic in ret (Some (now + t)%Q)
    | None => ret None
    end in
  cancel_async_at deadline body.

Definition _alarm_based_timeout {A} (timeout : option Q)
  (body : addr -> M World A) : M World A :=
  let* r := _alarm_based_timeout_enter timeout in
  try_finally (body (fst r))
    (_alarm_based_timeout_exit timeout (snd r) (fst r)).

Definition _watcher_thread_based_timeout {A} (timeout : option Q)
  (body : addr -> M World A) : M World A :=
  let* r := _watcher_thread_based_timeout_enter timeout in
  try_finally (body (snd r))
    (_watcher_thread_based_timeout_exit (fst r) (snd r)).

(** On Windows the generator is [yield CancelContext(...); return]: nothing
    runs after the body. *)
Definition cancel_sync_after {A} (timeout : option Q)
  (body : addr -> M World A) : M World A :=
  let* windows := (fun w => Ok (win32 w) w) in
  if windows then
    let* ctx := new_context None CancelNoop in
    body ctx
  else
    let* is_main := on_main_thread in
    if is_main then _alarm_based_timeout timeout body
    else _watcher_thread_based_timeout timeout body.

Definition cancel_sync_at {A} (deadline : option Q)
  (body : addr -> M World A) : M World A :=
  let* timeout :=
    match deadline with
    | Some d => let* now := monotonic in ret (Some (py_max 0 (d - now)%Q))
    | None => ret None
    end in
  cancel_sync_after timeout body.

(** ** Further predicates *)

(** Every chained address is allocated, as it is when tokens are only
    chained to tokens that exist. *)
Definition closed (h : Heap) : Prop :=
  forall a t c, h !! a = Some t -> c ∈ _chained t -> is_Some (h !! c).

(** What no method changes in a token, and the one way [_chained] changes. *)
Definition keeps (t t' : CancelContext) : Prop :=
  _timeout t' = _timeout t /\ _deadline t' = _deadline t /\
  _cancel t' = _cancel t /\ _chained t `prefix_of` _chained t'.

(** A timer setting [setitimer] accepts. *)
Definition valid_timer (v : Q * Q) : Prop :=
  (0 <= fst v)%Q /\ (0 <= snd v)%Q.

(** Durations on which [signal.setitimer] does what [setitimer] above says.
    The interpreter rounds a duration up to whole microseconds and cannot
    convert one beyond some 9.2e9 seconds: a duration from zero to a
    thousand million seconds is accepted as it is, and one from minus a
    thousand million seconds to minus one microsecond is rejected as
    invalid. *)
Definition timer_accepts (t : Q) : Prop :=
  (0 <= t)%Q /\ (t <= 1000000000)%Q.

Definition timer_rejects (t : Q) : Prop :=
  (- (1000000000) <= t)%Q /\ (t <= - (1 # 1000000))%Q.

(** *** The depth of a cascade *)

(** The least [n] at which [P] holds among [start], ..., [start + k - 1],
    and [start + k] if there is none. *)
Fixpoint first_from (P : nat -> bool) (start k : nat) : nat :=
  match k with
  | O => start
  | S k' => if P start then start else first_from P (S start) k'
  end.

(** [a.mark_cancelled()] comes back within the depth budget [n]. *)
Definition comes_back (g : Heap) (a : addr) (n : nat) : bool :=
  match mark_cancelled_aux n a g with
  | Ok _ _ => true
  | _ => false
  end.

(** The depth the cascade below [a] needs in the store [g]. *)
Definition depth (g : Heap) (a : addr) : nat :=
  first_from (comes_back g a) 0 (S (S (length g))).

(** *** How the process around the tokens changes *)

(** What no call into the module undoes: an event that is set stays set,
    and a scope keeps its deadline and, once cancellation was requested, its
    [cancel_called]. *)
Definition evolves (w w' : World) : Prop :=
  (forall e b, events w !! e = Some b ->
     exists b', events w' !! e = Some b' /\ (b = true -> b' = true)) /\
  (forall s sc, scopes w !! s = Some sc ->
     exists sc', scopes w' !! s = Some sc' /\
       scope_deadline sc' = scope_deadline sc /\
       (cancel_called sc = true -> cancel_called sc' = true)).

(** A call changes the process only in that way. *)
Definition steady {A} (m : M World A) : Prop :=
  forall w,
    match m w with
    | Ok _ w' | Raise _ w' => evolves w w'
    | _ => True
    end.

(** ** Further concrete stores and processes *)

(** A process with one fresh token that was built without a callback. *)
Definition world_default_token : World :=
  mkWorld [fresh_token None None CancelDefault] (fun _ => 0%Q) 0 false 0 0 [0]
    None (0%Q, 0%Q) [] [] [] [].

(** A clock that advances by one at every reading. *)
Definition world_ticking : World :=
  mkWorld [] (fun n => inject_Z (Z.of_nat n)) 0 false 0 0 [0] None
    (0%Q, 0%Q) [] [] [] [].

(** A Windows process. *)
Definition world_windows : World :=
  mkWorld [] (fun _ => 0%Q) 0 true 0 0 [0] None (0%Q, 0%Q) [] [] [] [].

(** The two-token process after [t0.mark_completed()]. *)
Definition world_completed : World :=
  after (OpMarkCompleted 0) world_two_tokens.

(** A worker thread inside a watcher scope with a timeout of one second;
    the same process once the scope has been left. *)
Definition world_watched : World :=
  after (OpWatcherEnter (Some 1%Q)) world_worker.

Definition world_unwatched : World :=
  after (OpSyncExit (FrameWatcher 0 0)) world_watched.

(** The main thread inside a cooperative scope without a deadline; the same
    process after the token of the scope was cancelled. *)
Definition world_in_scope : World :=
  after (OpAsyncAtEnter None) world_main.

Definition world_scope_cancelled : World :=
  after (OpCancel 0) world_in_scope.

(** The main thread inside an alarm scope with a timeout of one second. *)
Definition world_alarmed : World :=
  after (OpAlarmEnter (Some 1%Q)) world_main.

(** The process right after [_alarm_based_timeout(t)] was entered on the
    main thread of [w]: two clock readings later, with a new token, the
    handler of the scope installed and the timer set. *)
Definition alarm_entered (t : Q) (w : World) : World :=
  with_itimer (t, 0%Q)
    (with_sigalrm
       (Some (mkAlarmHandler (length (tokens w)) (Some t)
                (Some (clock w (ticks w) + t)%Q)))
       (with_tokens
          (tokens w ++
           [fresh_token (Some t) (Some (clock w (S (ticks w)) + t)%Q)
              CancelAlarm])
          (with_ticks (S (S (ticks w))) w))).

(** The watched worker once the interpreter has switched to the main
    thread. *)
Definition world_watched_from_main : World :=
  after (OpSchedule 0 [0; 1]) world_watched.

(** * Token-level facts *)

Ltac tok_simpl :=
  repeat match goal with t : CancelContext |- _ => destruct t end;
  unfold adv, relax, same_skeleton, is_fresh, set_lock, set_cancelled,
    set_completed, append_chained, fresh_token in *;
  simpl in *.

Ltac tok_solve := tok_simpl; try solve [intuition (subst; congruence)].

Lemma set_lock_twice b b' t : set_lock b (set_lock b' t) = set_lock b t.
Proof. tok_solve. Qed.

Lemma set_lock_same t b : _lock t = b -> set_lock b t = t.
Proof. tok_solve. Qed.

Lemma set_cancelled_same t : _cancelled t = true -> set_cancelled t = t.
Proof. tok_solve. Qed.

Lemma adv_refl t : adv t t.
Proof. by left. Qed.

Lemma adv_trans t1 t2 t3 : adv t1 t2 -> adv t2 t3 -> adv t1 t3.
Proof. tok_solve. Qed.

Lemma adv_antisym t t' : adv t t' -> adv t' t -> t' = t.
Proof. tok_solve. Qed.

Lemma adv_relax t t' : adv t t' -> relax t t'.
Proof. tok_solve. Qed.

Lemma relax_refl t : relax t t.
Proof. tok_solve. Qed.

Lemma relax_trans t1 t2 t3 : relax t1 t2 -> relax t2 t3 -> relax t1 t3.
Proof. tok_solve. Qed.

Lemma relax_unlock t : relax t (set_lock false t).
Proof. tok_solve. Qed.

Lemma relax_fields t t' :
  relax t t' ->
  _completed t' = _completed t /\ _chained t' = _chained t /\
  _timeout t' = _timeout t /\ _deadline t' = _deadline t /\
  _cancel t' = _cancel t.
Proof. tok_solve. Qed.

Lemma adv_fields t t' :
  adv t t' ->
  _completed t' = _completed t /\ _chained t' = _chained t /\
  _lock t' = _lock t /\ _timeout t' = _timeout t /\
  _deadline t' = _deadline t /\ _cancel t' = _cancel t /\
  (_cancelled t = true -> _cancelled t' = true) /\
  (_cancelled t' = true -> _cancelled t = true \/ _completed t = false).
Proof.
  destruct t as [? ? c ? ? ? ?]. intros [->|[Hc ->]]; simpl in *;
    split_and!; auto; destruct c; auto.
Qed.

(** * The cascade, unfolded *)

Ltac munfold :=
  cbv [with_lock acquire bind try_finally load store release ret raise].

Lemma for_each_cons {S} x l (f : addr -> M S unit) s :
  for_each (x :: l) f s =
  match f x s with
  | Ok _ s' => for_each l f s'
  | Raise e s' => Raise e s'
  | Deadlock => Deadlock
  | Killed => Killed
  | BadRef => BadRef
  | OutOfFuel => OutOfFuel
  end.
Proof. reflexivity. Qed.

Lemma mark_cancelled_aux_S n p h :
  mark_cancelled_aux (S n) p h =
  match h !! p with
  | None => BadRef
  | Some t =>
      if _lock t then Deadlock
      else if _completed t then Ok false h
      else
        match for_each (_chained t) (child_call n)
                (<[p := set_lock true (set_cancelled t)]> h) with
        | Ok _ h2 =>
            match h2 !! p with
            | Some t2 => Ok true (<[p := set_lock false t2]> h2)
            | None => BadRef
            end
        | Raise e h2 =>
            match h2 !! p with
            | Some t2 => Raise e (<[p := set_lock false t2]> h2)
            | None => BadRef
            end
        | Deadlock => Deadlock
        | Killed => Killed
        | BadRef => BadRef
        | OutOfFuel => OutOfFuel
        end
  end.
Proof.
  cbn [mark_cancelled_aux]. munfold.
  destruct (h !! p) as [t|] eqn:Hp; [|done].
  destruct (_lock t) eqn:Hl; [done|].
  pose proof (lookup_lt_Some _ _ _ Hp) as Hlt.
  rewrite list_lookup_insert_eq by done. cbv beta iota.
  change (_completed (set_lock true t)) with (_completed t).
  destruct (_completed t) eqn:Hc.
  - rewrite list_lookup_insert_eq by done.
    rewrite list_insert_insert_eq, set_lock_twice, set_lock_same by done.
    by rewrite list_insert_id.
  - rewrite list_lookup_insert_eq by done. cbv beta iota.
    rewrite list_insert_insert_eq.
    rewrite list_lookup_insert_eq by done. cbv beta iota.
    replace (set_cancelled (set_lock true t))
      with (set_lock true (set_cancelled t)) by (by destruct t).
    change (_chained (set_lock true (set_cancelled t))) with (_chained t).
    fold (child_call n).
    destruct (for_each _ _ _) as [[] h2|e h2| | | |]; try done.
    + destruct (h2 !! p); done.
    + destruct (h2 !! p); done.
Qed.

(** * Loops *)

Section loops.
Context {S : Type} (f : addr -> M S unit).

Lemma for_each_plain l s :
  (forall x s0, plain (f x s0)) -> plain (for_each l f s).
Proof.
  intros Hf. revert s. induction l as [|x l IH]; intros s; [done|].
  rewrite for_each_cons. specialize (Hf x s).
  destruct (f x s); first [done|apply IH].
Qed.

(** A relation that every iteration respects is respected by the loop. *)
Lemma for_each_Ok_rel (R : S -> S -> Prop) l s s' :
  (forall a, R a a) -> (forall a b c, R a b -> R b c -> R a c) ->
  (forall x a b, x ∈ l -> f x a = Ok tt b -> R a b) ->
  for_each l f s = Ok tt s' -> R s s'.
Proof.
  intros Hrefl Htrans. revert s. induction l as [|x l IH]; intros s Hf Hrun.
  - cbv in Hrun. by simplify_eq.
  - rewrite for_each_cons in Hrun.
    destruct (f x s) as [[] s1| | | | |] eqn:Hx; try done.
    eapply Htrans.
    + eapply Hf; [left|done].
    + apply IH; [|done]. intros y a b Hy. apply Hf. by right.
Qed.

(** Every iteration of a loop that came back ran between two states the
    loop went through. *)
Lemma for_each_Ok_elem (R : S -> S -> Prop) l s s' :
  (forall a, R a a) -> (forall a b c, R a b -> R b c -> R a c) ->
  (forall x a b, x ∈ l -> f x a = Ok tt b -> R a b) ->
  for_each l f s = Ok tt s' ->
  forall x, x ∈ l -> exists a b, R s a /\ f x a = Ok tt b /\ R b s'.
Proof.
  intros Hrefl Htrans. revert s. induction l as [|y l IH]; intros s Hf Hrun x Hx.
  - by apply elem_of_nil in Hx.
  - rewrite for_each_cons in Hrun.
    destruct (f y s) as [[] s1| | | | |] eqn:Hy; try done.
    assert (Hl : forall z a b, z ∈ l -> f z a = Ok tt b -> R a b).
    { intros z a b Hz. apply Hf. by right. }
    apply elem_of_cons in Hx as [->|Hx].
    + exists s, s1. split_and!; [done|done|].
      eapply for_each_Ok_rel; eauto.
    + destruct (IH s1 Hl Hrun x Hx) as (a & b & Ha & Hab & Hb).
      exists a, b. split_and!; [|done|done].
      eapply Htrans; [|done]. eapply Hf; [left|done].
Qed.

Lemma for_each_fixed l s :
  (forall x, x ∈ l -> f x s = Ok tt s) -> for_each l f s = Ok tt s.
Proof.
  induction l as [|x l IH]; intros Hf; [done|].
  rewrite for_each_cons, Hf by left. apply IH. intros y Hy. apply Hf. by right.
Qed.

End loops.

Lemma mark_cancelled_aux_plain n p h : plain (mark_cancelled_aux n p h).
Proof.
  revert p h. induction n as [|n IH]; intros p h; [done|].
  rewrite mark_cancelled_aux_S.
  destruct (h !! p) as [t|]; [|done].
  destruct (_lock t); [done|]. destruct (_completed t); [done|].
  assert (Hl : plain (for_each (_chained t) (child_call n)
                       (<[p:=set_lock true (set_cancelled t)]> h))).
  { apply for_each_plain. intros x s0. unfold child_call. munfold.
    specialize (IH x s0). by destruct (mark_cancelled_aux n x s0). }
  destruct (for_each _ _ _) as [[] h2| | | | |]; try done.
  by destruct (h2 !! p).
Qed.

(** * Stores related pointwise *)

Section hrel.
Context (R : CancelContext -> CancelContext -> Prop).

Lemma hrel_lookup (h h' : Heap) a t :
  Forall2 R h h' -> h !! a = Some t -> exists t', h' !! a = Some t' /\ R t t'.
Proof. intros HR Ha. by eapply Forall2_lookup_l. Qed.

Lemma hrel_lookup_r (h h' : Heap) a t' :
  Forall2 R h h' -> h' !! a = Some t' -> exists t, h !! a = Some t /\ R t t'.
Proof. intros HR Ha. by eapply Forall2_lookup_r. Qed.

Lemma hrel_refl (h : Heap) :
  (forall t, R t t) -> Forall2 R h h.
Proof. intros HR. induction h; constructor; auto. Qed.

Lemma hrel_trans (h1 h2 h3 : Heap) :
  (forall a b c, R a b -> R b c -> R a c) ->
  Forall2 R h1 h2 -> Forall2 R h2 h3 -> Forall2 R h1 h3.
Proof.
  intros HR H12. revert h3. induction H12; intros h3 H23; inversion H23; subst;
    constructor; eauto.
Qed.

Lemma hrel_impl (R' : CancelContext -> CancelContext -> Prop) (h h' : Heap) :
  (forall a b, R a b -> R' a b) -> Forall2 R h h' -> Forall2 R' h h'.
Proof. intros HR H. induction H; constructor; auto. Qed.

(** Updating the left store at [p] and reading the update back. *)
Lemma hrel_insert_l (h h' : Heap) p t0 t t' :
  Forall2 R (<[p := t0]> h) h' -> h !! p = Some t -> R t t' ->
  Forall2 R h (<[p := t']> h').
Proof.
  intros HR Hp Ht. apply Forall2_same_length_lookup.
  pose proof (Forall2_length _ _ _ HR) as Hlen. rewrite length_insert in Hlen.
  split; [by rewrite length_insert|].
  intros a x y Hx Hy. destruct (decide (a = p)) as [->|Hne].
  - rewrite list_lookup_insert_eq in Hy by (rewrite <- Hlen; by eapply lookup_lt_Some).
    by simplify_eq.
  - rewrite list_lookup_insert_ne in Hy by done.
    eapply Forall2_lookup_lr in HR; [done| |done].
    by rewrite list_lookup_insert_ne.
Qed.

Lemma hrel_insert (h h' : Heap) p t t' :
  Forall2 R h h' -> R t t' -> Forall2 R (<[p := t]> h) (<[p := t']> h').
Proof. intros. by apply Forall2_insert. Qed.

Lemma hrel_sym (h h' : Heap) :
  (forall a b, R a b -> R b a) -> Forall2 R h h' -> Forall2 R h' h.
Proof. intros HR H. induction H; constructor; auto. Qed.

Lemma hrel_insert_r (h : Heap) p t t' :
  (forall x, R x x) -> h !! p = Some t -> R t t' -> Forall2 R h (<[p := t']> h).
Proof.
  intros HR Hp Ht. rewrite <- (list_insert_id h p t) at 1 by done.
  apply Forall2_insert; [|done]. by apply hrel_refl.
Qed.


End hrel.

Lemma hrel_antisym (h h' : Heap) :
  Forall2 adv h h' -> Forall2 adv h' h -> h' = h.
Proof.
  intros H. induction H as [|t t' h h' Ht _ IH]; intros H'; [done|].
  inversion H'; subst. f_equal; [by apply adv_antisym|by apply IH].
Qed.

(** * What a cascade that came back did *)

Ltac same_lookup :=
  repeat match goal with
  | H1 : ?l !! ?i = Some _, H2 : ?l !! ?i = Some _ |- _ =>
      rewrite H1 in H2; simplify_eq
  end.

Lemma child_call_Ok n c h h' :
  child_call n c h = Ok tt h' <-> exists b, mark_cancelled_aux n c h = Ok b h'.
Proof.
  unfold child_call. munfold. split.
  - destruct (mark_cancelled_aux n c h) as [b h2| | | | |]; try done.
    intros [= <-]. by exists b.
  - intros [b ->]. done.
Qed.

Lemma mark_cancelled_aux_adv n p h b h' :
  mark_cancelled_aux n p h = Ok b h' -> Forall2 adv h h'.
Proof.
  revert p h b h'. induction n as [|n IH]; intros p h b h' Hrun; [done|].
  rewrite mark_cancelled_aux_S in Hrun.
  destruct (h !! p) as [t|] eqn:Hp; [|done].
  destruct (_lock t) eqn:Hl; [done|].
  destruct (_completed t) eqn:Hc.
  { simplify_eq. apply hrel_refl, adv_refl. }
  destruct (for_each _ _ _) as [[] h2|e h2| | | |] eqn:Hloop; try done;
    [|by destruct (h2 !! p)].
  destruct (h2 !! p) as [t2|] eqn:Hp2; [|done]. simplify_eq.
  assert (H12 : Forall2 adv (<[p:=set_lock true (set_cancelled t)]> h) h2).
  { eapply (for_each_Ok_rel _ (Forall2 adv)); [| | |exact Hloop].
    - intros a. apply hrel_refl, adv_refl.
    - intros a b c. apply hrel_trans, adv_trans.
    - intros x a b _ Hx. apply child_call_Ok in Hx as [bx Hx]. eauto. }
  eapply hrel_insert_l; [exact H12|exact Hp|].
  eapply hrel_lookup in H12 as (t2' & Hp2' & Hadv);
    [|apply list_lookup_insert_eq; by eapply lookup_lt_Some].
  same_lookup. clear -Hadv Hl Hc. tok_solve.
Qed.

Lemma for_each_child_adv n l h h' :
  for_each l (child_call n) h = Ok tt h' -> Forall2 adv h h'.
Proof.
  apply (for_each_Ok_rel _ (Forall2 adv)).
  - intros a. apply hrel_refl, adv_refl.
  - intros a b c. apply hrel_trans, adv_trans.
  - intros x a b _ Hx. apply child_call_Ok in Hx as [bx Hx].
    by eapply mark_cancelled_aux_adv.
Qed.

(** The shape of every run of [mark_cancelled] that returns. *)
Lemma mark_cancelled_aux_inv n p h b h' :
  mark_cancelled_aux (S n) p h = Ok b h' ->
  exists t, h !! p = Some t /\ _lock t = false /\
    ((_completed t = true /\ b = false /\ h' = h) \/
     (_completed t = false /\ b = true /\
      exists h2,
        for_each (_chained t) (child_call n)
          (<[p := set_lock true (set_cancelled t)]> h) = Ok tt h2 /\
        h2 !! p = Some (set_lock true (set_cancelled t)) /\
        h' = <[p := set_cancelled t]> h2)).
Proof.
  intros Hrun. rewrite mark_cancelled_aux_S in Hrun.
  destruct (h !! p) as [t|] eqn:Hp; [|done]. exists t.
  destruct (_lock t) eqn:Hl; [done|].
  destruct (_completed t) eqn:Hc.
  { simplify_eq. split_and!; auto. }
  destruct (for_each _ _ _) as [[] h2|e h2| | | |] eqn:Hloop; try done;
    [|by destruct (h2 !! p)].
  destruct (h2 !! p) as [t2|] eqn:Hp2; [|done]. simplify_eq.
  split_and!; [done..|]. right. split_and!; [done..|]. exists h2.
  pose proof (for_each_child_adv _ _ _ _ Hloop) as H12.
  eapply hrel_lookup in H12 as (t2' & Hp2' & Hadv);
    [|apply list_lookup_insert_eq; by eapply lookup_lt_Some].
  rewrite Hp2 in Hp2'. injection Hp2' as <-.
  assert (t2 = set_lock true (set_cancelled t)) as ->
    by (clear -Hadv Hl Hc; tok_solve).
  split_and!; [done..|]. f_equal. clear -Hl. tok_solve.
Qed.

Lemma mark_cancelled_aux_completed n p h t :
  h !! p = Some t -> _lock t = false -> _completed t = true ->
  mark_cancelled_aux (S n) p h = Ok false h.
Proof. intros Hp Hl Hc. by rewrite mark_cancelled_aux_S, Hp, Hl, Hc. Qed.

Lemma mark_cancelled_aux_live n p h t h2 :
  h !! p = Some t -> _lock t = false -> _completed t = false ->
  for_each (_chained t) (child_call n)
    (<[p := set_lock true (set_cancelled t)]> h) = Ok tt h2 ->
  mark_cancelled_aux (S n) p h = Ok true (<[p := set_cancelled t]> h2).
Proof.
  intros Hp Hl Hc Hloop. rewrite mark_cancelled_aux_S, Hp, Hl, Hc, Hloop.
  pose proof (for_each_child_adv _ _ _ _ Hloop) as H12.
  eapply hrel_lookup in H12 as (t2 & Hp2 & Hadv);
    [|apply list_lookup_insert_eq; by eapply lookup_lt_Some].
  rewrite Hp2. do 2 f_equal. clear -Hadv Hl Hc. tok_solve.
Qed.

(** * Recursion budget *)

Lemma for_each_more_fuel l (f g : addr -> M Heap unit) h :
  (forall x s, f x s <> OutOfFuel -> g x s = f x s) ->
  for_each l f h <> OutOfFuel -> for_each l g h = for_each l f h.
Proof.
  intros Hfg. revert h. induction l as [|x l IH]; intros h Hne; [done|].
  rewrite !for_each_cons in *.
  rewrite Hfg by (intros Heq; by rewrite Heq in Hne).
  destruct (f x h); try done. by apply IH.
Qed.

Lemma mark_cancelled_aux_S_fuel n p h :
  mark_cancelled_aux n p h <> OutOfFuel ->
  mark_cancelled_aux (S n) p h = mark_cancelled_aux n p h.
Proof.
  revert p h. induction n as [|n IH]; intros p h Hne; [done|].
  rewrite mark_cancelled_aux_S in Hne. rewrite (mark_cancelled_aux_S (S n)).
  rewrite (mark_cancelled_aux_S n).
  destruct (h !! p) as [t|]; [|done].
  destruct (_lock t); [done|]. destruct (_completed t); [done|].
  rewrite (for_each_more_fuel _ (child_call n) (child_call (S n))); [done| |].
  - intros x s Hx. unfold child_call, bind in *.
    rewrite IH; [done|]. intros Heq. by rewrite Heq in Hx.
  - intros Heq. by rewrite Heq in Hne.
Qed.

Lemma mark_cancelled_aux_fuel_le n m p h :
  n <= m -> mark_cancelled_aux n p h <> OutOfFuel ->
  mark_cancelled_aux m p h = mark_cancelled_aux n p h.
Proof.
  induction 1 as [|m Hle IH]; intros Hne; [done|].
  rewrite mark_cancelled_aux_S_fuel; rewrite IH; done.
Qed.

Lemma free_locks_cons t h :
  free_locks (t :: h) = (if _lock t then 0 else 1) + free_locks h.
Proof.
  unfold free_locks. rewrite filter_cons.
  destruct (_lock t); by case_decide.
Qed.

Lemma free_locks_le h : free_locks h <= length h.
Proof.
  induction h as [|t h IH]; [done|].
  rewrite free_locks_cons. destruct (_lock t); simpl; lia.
Qed.

Lemma free_locks_acquire h p t t' :
  h !! p = Some t -> _lock t = false -> _lock t' = true ->
  S (free_locks (<[p := t']> h)) = free_locks h.
Proof.
  revert p. induction h as [|x h IH]; intros p Hp Hl Hl'; [done|].
  destruct p as [|p]; simpl in *.
  - simplify_eq. rewrite !free_locks_cons, Hl, Hl'. done.
  - rewrite !free_locks_cons, <- (IH p) by done. lia.
Qed.

Lemma free_locks_adv h h' : Forall2 adv h h' -> free_locks h' = free_locks h.
Proof.
  induction 1 as [|t t' h h' Ht _ IH]; [done|].
  rewrite !free_locks_cons, IH.
  apply adv_fields in Ht as (_ & _ & -> & _). done.
Qed.

Lemma for_each_child_fuel n l h :
  (forall c s, free_locks s < n -> mark_cancelled_aux n c s <> OutOfFuel) ->
  free_locks h < n -> for_each l (child_call n) h <> OutOfFuel.
Proof.
  intros Hmc. revert h. induction l as [|x l IH]; intros h Hfree; [done|].
  rewrite for_each_cons.
  destruct (child_call n x h) as [[] h1| | | | |] eqn:Hx; try done.
  - apply IH. apply child_call_Ok in Hx as [b Hx].
    apply mark_cancelled_aux_adv, free_locks_adv in Hx. lia.
  - unfold child_call, bind in Hx. specialize (Hmc x h Hfree).
    by destruct (mark_cancelled_aux n x h).
Qed.

(** The budget is never the reason a cascade stops once it exceeds the
    number of free locks. *)
Lemma mark_cancelled_aux_enough n p h :
  free_locks h < n -> mark_cancelled_aux n p h <> OutOfFuel.
Proof.
  revert p h. induction n as [|n IH]; intros p h Hfree; [lia|].
  rewrite mark_cancelled_aux_S.
  destruct (h !! p) as [t|] eqn:Hp; [|done].
  destruct (_lock t) eqn:Hl; [done|]. destruct (_completed t); [done|].
  assert (Hloop : for_each (_chained t) (child_call n)
            (<[p:=set_lock true (set_cancelled t)]> h) <> OutOfFuel).
  { apply for_each_child_fuel; [done|].
    pose proof (free_locks_acquire h p t (set_lock true (set_cancelled t))
                  Hp Hl eq_refl). lia. }
  destruct (for_each _ _ _) as [[] h2|e h2| | | |]; try done;
    by destruct (h2 !! p).
Qed.

Lemma mark_cancelled_total p h : mark_cancelled p h <> OutOfFuel.
Proof.
  apply mark_cancelled_aux_enough. pose proof (free_locks_le h). lia.
Qed.

Lemma mark_cancelled_of_aux n p h :
  mark_cancelled_aux n p h <> OutOfFuel ->
  mark_cancelled p h = mark_cancelled_aux n p h.
Proof.
  intros Hne. unfold mark_cancelled.
  destruct (decide (n <= S (length h))) as [Hle|Hgt].
  - by apply mark_cancelled_aux_fuel_le.
  - symmetry. apply mark_cancelled_aux_fuel_le; [lia|].
    apply mark_cancelled_total.
Qed.

Lemma mark_cancelled_adv p h b h' :
  mark_cancelled p h = Ok b h' -> Forall2 adv h h'.
Proof. apply mark_cancelled_aux_adv. Qed.

(** * Skeleton of the store: what cascades never change *)

Lemma same_skeleton_fields t t' :
  same_skeleton t t' ->
  _completed t' = _completed t /\ _chained t' = _chained t /\
  _timeout t' = _timeout t /\ _deadline t' = _deadline t /\
  _cancel t' = _cancel t.
Proof. tok_solve. Qed.

Lemma same_skeleton_refl t : same_skeleton t t.
Proof. done. Qed.

Lemma same_skeleton_sym t t' : same_skeleton t t' -> same_skeleton t' t.
Proof. unfold same_skeleton. done. Qed.

Lemma same_skeleton_trans t1 t2 t3 :
  same_skeleton t1 t2 -> same_skeleton t2 t3 -> same_skeleton t1 t3.
Proof. unfold same_skeleton. congruence. Qed.

Lemma relax_skeleton t t' : relax t t' -> same_skeleton t t'.
Proof. by intros [? _]. Qed.

Lemma adv_skeleton t t' : adv t t' -> same_skeleton t t'.
Proof. intros. by apply relax_skeleton, adv_relax. Qed.

Lemma skeleton_lock_cancel h p t :
  h !! p = Some t ->
  Forall2 same_skeleton h (<[p := set_lock true (set_cancelled t)]> h).
Proof.
  intros Hp. eapply hrel_insert_r; [apply same_skeleton_refl|done|].
  clear. tok_solve.
Qed.

Lemma reach_live h p a :
  reach h p a -> exists t, h !! a = Some t /\ _completed t = false.
Proof. induction 1; eauto. Qed.

Lemma reach_skeleton h h' p a :
  Forall2 same_skeleton h h' -> reach h p a -> reach h' p a.
Proof.
  intros Hs Hr. induction Hr as [p t Hp Hc|p t c a Hp Hc Hin _ IH].
  - destruct (hrel_lookup _ _ _ _ _ Hs Hp) as (t' & Hp' & Hsk).
    apply same_skeleton_fields in Hsk as (Hc' & _).
    eapply reach_self; [done|congruence].
  - destruct (hrel_lookup _ _ _ _ _ Hs Hp) as (t' & Hp' & Hsk).
    apply same_skeleton_fields in Hsk as (Hc' & Hch' & _).
    eapply reach_child; [done|congruence| |done]. by rewrite Hch'.
Qed.

Lemma ranked_skeleton rk h h' p :
  Forall2 same_skeleton h h' -> ranked rk h p -> ranked rk h' p.
Proof.
  intros Hs Hrk a t' c Hr Ha Hin.
  assert (Hs' : Forall2 same_skeleton h' h)
    by (by apply hrel_sym; [apply same_skeleton_sym|]).
  destruct (hrel_lookup_r _ _ _ _ _ Hs Ha) as (t & Ha0 & Hsk).
  apply same_skeleton_fields in Hsk as (Hc' & Hch' & _).
  destruct (Hrk a t c) as (tc & Hc0 & Hlt);
    [by eapply reach_skeleton|done|by rewrite <- Hch'|].
  destruct (hrel_lookup _ _ _ _ _ Hs Hc0) as (tc' & Hctc & Hsk).
  apply same_skeleton_fields in Hsk as (Hcc & _).
  exists tc'. split; [done|]. intros. apply Hlt. congruence.
Qed.

Lemma ranked_child rk h p t c :
  ranked rk h p -> h !! p = Some t -> _completed t = false ->
  c ∈ _chained t -> ranked rk h c.
Proof.
  intros Hrk Hp Hc Hin a ta c' Hr. apply Hrk. by eapply reach_child.
Qed.

Lemma hadv_skeleton h h' : Forall2 adv h h' -> Forall2 same_skeleton h h'.
Proof. apply hrel_impl, adv_skeleton. Qed.

(** * Cascades over an acyclic chain return *)

Section acyclic.
Context (rk : addr -> nat).

(** The invariant on held locks passes from a call to the calls it makes
    on its children. *)
Lemma locks_above_child h p t c s :
  ranked rk h p -> locks_above rk h p ->
  h !! p = Some t -> _lock t = false -> _completed t = false ->
  c ∈ _chained t ->
  Forall2 adv (<[p := set_lock true (set_cancelled t)]> h) s ->
  locks_above rk s c.
Proof.
  intros Hrk Hla Hp Hl Hc Hin Hadv a ta Ha Hlk.
  destruct (hrel_lookup_r _ _ _ _ _ Hadv Ha) as (ta1 & Ha1 & Hf).
  apply adv_fields in Hf as (Hfc & _ & Hfl & _).
  destruct (Hrk p t c) as (tc & Hctc & Hlt);
    [by eapply reach_self|done|done|].
  assert (Hcp : forall tcs, s !! c = Some tcs -> _completed tcs = false ->
                            rk c < rk p).
  { intros tcs Hcs Hlive. apply Hlt.
    destruct (hrel_lookup_r _ _ _ _ _ Hadv Hcs) as (tc1 & Hc1 & Hf).
    apply adv_fields in Hf as (Hfc' & _).
    destruct (decide (c = p)) as [->|Hne].
    - rewrite list_lookup_insert_eq in Hc1 by (by eapply lookup_lt_Some).
      simplify_eq. same_lookup. done.
    - rewrite list_lookup_insert_ne in Hc1 by done. same_lookup. congruence. }
  destruct (decide (a = p)) as [->|Hne].
  - rewrite list_lookup_insert_eq in Ha1 by (by eapply lookup_lt_Some).
    simplify_eq. split; [by rewrite Hfc|]. done.
  - rewrite list_lookup_insert_ne in Ha1 by done.
    destruct (Hla a ta1 Ha1) as (Hlive & Habove); [congruence|].
    split; [congruence|]. intros tcs Hcs Hlive'.
    specialize (Habove t Hp Hc). specialize (Hcp tcs Hcs Hlive'). lia.
Qed.

(** With an acyclic chain below it, a call never meets a held lock. *)
Lemma mark_cancelled_aux_returns n p h :
  ranked rk h p -> is_Some (h !! p) -> locks_above rk h p ->
  returns (mark_cancelled_aux n p h).
Proof.
  revert p h. induction n as [|n IH]; intros p h Hrk [t Hp] Hla; [by left|].
  rewrite mark_cancelled_aux_S, Hp.
  destruct (_lock t) eqn:Hl.
  { destruct (Hla p t Hp Hl) as (Hc & Hlt). specialize (Hlt t Hp Hc). lia. }
  destruct (_completed t) eqn:Hc; [right; eauto|].
  set (h1 := <[p:=set_lock true (set_cancelled t)]> h).
  assert (Hloop : forall l s, l ⊆ _chained t -> Forall2 adv h1 s ->
            returns (for_each l (child_call n) s)).
  { induction l as [|c l IHl]; intros s Hsub Hadv; [right; by exists tt, s|].
    rewrite for_each_cons.
    assert (Hin : c ∈ _chained t) by (apply Hsub; left).
    assert (Hskel : Forall2 same_skeleton h s).
    { eapply hrel_trans; [apply same_skeleton_trans| |by apply hadv_skeleton].
      by apply skeleton_lock_cancel. }
    destruct (IH c s) as [Hout|(b & s1 & Hrun)].
    - eapply ranked_skeleton; [done|]. by eapply ranked_child.
    - destruct (Hrk p t c) as (tc & Hctc & _);
        [by eapply reach_self|done|done|].
      destruct (hrel_lookup _ _ _ _ _ Hskel Hctc) as (tc' & -> & _). eauto.
    - by eapply locks_above_child.
    - left. unfold child_call, bind. by rewrite Hout.
    - unfold child_call at 1, bind. rewrite Hrun. cbv [ret].
      apply IHl; [set_solver|].
      eapply hrel_trans; [apply adv_trans|done|].
      by eapply mark_cancelled_aux_adv. }
  destruct (Hloop (_chained t) h1) as [Hout|([] & h2 & Hrun)];
    [done|apply hrel_refl, adv_refl|by rewrite Hout; left|].
  rewrite Hrun.
  pose proof (for_each_child_adv _ _ _ _ Hrun) as H12.
  eapply hrel_lookup in H12 as (t2 & -> & _);
    [|apply list_lookup_insert_eq; by eapply lookup_lt_Some].
  right. eauto.
Qed.

(** On a store with no lock held and an acyclic chain, [mark_cancelled]
    returns. *)
Lemma mark_cancelled_returns p h :
  ranked rk h p -> locks_free h -> is_Some (h !! p) ->
  exists b h', mark_cancelled p h = Ok b h'.
Proof.
  intros Hrk Hfree Hp.
  destruct (mark_cancelled_aux_returns (S (length h)) p h) as [Hout|Hok];
    [done|done| |by apply mark_cancelled_total in Hout|done].
  intros a t Ha Hl. apply Hfree in Ha. congruence.
Qed.

End acyclic.

(** On a cyclic chain it does not: a token chained to itself blocks on its
    own lock. *)
Lemma mark_cancelled_self_chained : mark_cancelled 0 self_chained = Deadlock.
Proof. reflexivity. Qed.

(** * What a cascade cancels *)

Lemma is_cancelled_adv h h' a :
  Forall2 adv h h' -> is_cancelled h a = true -> is_cancelled h' a = true.
Proof.
  unfold is_cancelled. intros Hadv Ha.
  destruct (h !! a) as [t|] eqn:Hta; [|done].
  destruct (hrel_lookup _ _ _ _ _ Hadv Hta) as (t' & -> & Hf).
  apply adv_fields in Hf as (_ & _ & _ & _ & _ & _ & Hm & _). auto.
Qed.

Lemma for_each_child_elem n l h h' c :
  for_each l (child_call n) h = Ok tt h' -> c ∈ l ->
  exists s b s', Forall2 adv h s /\ mark_cancelled_aux n c s = Ok b s' /\
    Forall2 adv s' h'.
Proof.
  intros Hloop Hin.
  destruct (for_each_Ok_elem (child_call n) (Forall2 adv) l h h')
    with (x := c) as (s & s' & Hadv & Hc & Hadv'); try done.
  - intros a. apply hrel_refl, adv_refl.
  - intros x y z. apply hrel_trans, adv_trans.
  - intros x a b _ Hx. apply child_call_Ok in Hx as [bx Hx].
    by eapply mark_cancelled_aux_adv.
  - apply child_call_Ok in Hc as [b Hc]. by exists s, b, s'.
Qed.

(** A flag that a loop of cascades sets is set by one of them. *)
Lemma for_each_child_sets n l a h h' :
  for_each l (child_call n) h = Ok tt h' ->
  is_cancelled h a = false -> is_cancelled h' a = true ->
  exists c s b s', c ∈ l /\ Forall2 adv h s /\
    mark_cancelled_aux n c s = Ok b s' /\ Forall2 adv s' h' /\
    is_cancelled s a = false /\ is_cancelled s' a = true.
Proof.
  revert h. induction l as [|c l IH]; intros h Hrun Hno Hyes.
  - cbv in Hrun. simplify_eq. congruence.
  - rewrite for_each_cons in Hrun.
    destruct (child_call n c h) as [[] h1| | | | |] eqn:Hc; try done.
    apply child_call_Ok in Hc as [b Hc].
    destruct (is_cancelled h1 a) eqn:H1.
    + exists c, h, b, h1. split_and!; try done;
        [left|apply hrel_refl, adv_refl|by eapply for_each_child_adv].
    + destruct (IH h1 Hrun H1 Hyes) as (c' & s & b' & s' & ? & ? & ? & ? & ? & ?).
      exists c', s, b', s'. split_and!; try done; [by right|].
      eapply hrel_trans; [apply adv_trans| |done].
      by eapply mark_cancelled_aux_adv.
Qed.

(** Exactly the tokens reached by the cascade are newly cancelled. *)
Lemma mark_cancelled_aux_sound n p h b h' a :
  mark_cancelled_aux n p h = Ok b h' ->
  is_cancelled h a = false -> is_cancelled h' a = true -> reach h p a.
Proof.
  revert p h b h'. induction n as [|n IH]; intros p h b h' Hrun Hno Hyes; [done|].
  apply mark_cancelled_aux_inv in Hrun
    as (t & Hp & Hl & [(Hc & -> & ->)|(Hc & -> & h2 & Hloop & Hp2 & ->)]);
    [congruence|].
  destruct (decide (a = p)) as [->|Hne]; [by eapply reach_self|].
  assert (Hno1 : is_cancelled (<[p:=set_lock true (set_cancelled t)]> h) a = false).
  { unfold is_cancelled in *. by rewrite list_lookup_insert_ne. }
  assert (Hyes2 : is_cancelled h2 a = true).
  { unfold is_cancelled in *. by rewrite list_lookup_insert_ne in Hyes. }
  destruct (for_each_child_sets _ _ _ _ _ Hloop Hno1 Hyes2)
    as (c & s & bc & s' & Hin & Hadv & Hc' & _ & Hs & Hs').
  eapply reach_child; [done..|].
  eapply reach_skeleton; [|by eapply IH].
  apply hrel_sym; [apply same_skeleton_sym|].
  eapply hrel_trans; [apply same_skeleton_trans| |by apply hadv_skeleton].
  by apply skeleton_lock_cancel.
Qed.

Lemma mark_cancelled_aux_complete n p h b h' a :
  mark_cancelled_aux n p h = Ok b h' -> reach h p a ->
  is_cancelled h' a = true.
Proof.
  revert p h b h'. induction n as [|n IH]; intros p h b h' Hrun Hreach; [done|].
  apply mark_cancelled_aux_inv in Hrun
    as (t & Hp & Hl & [(Hc & -> & ->)|(Hc & -> & h2 & Hloop & Hp2 & ->)]).
  { inversion Hreach; same_lookup; congruence. }
  assert (Hlen : p < length h2) by (by eapply lookup_lt_Some).
  inversion Hreach as [? t0 Hp0 _|? t0 c ? Hp0 _ Hin Hca]; subst; same_lookup.
  { unfold is_cancelled. by rewrite list_lookup_insert_eq. }
  destruct (for_each_child_elem _ _ _ _ _ Hloop Hin)
    as (s & bc & s' & Hadv & Hc' & Hadv').
  assert (Hs' : is_cancelled s' a = true).
  { eapply IH; [done|]. eapply reach_skeleton; [|done].
    eapply hrel_trans; [apply same_skeleton_trans| |by apply hadv_skeleton].
    by apply skeleton_lock_cancel. }
  eapply is_cancelled_adv in Hs'; [|done].
  unfold is_cancelled in *. destruct (decide (a = p)) as [->|Hne].
  - by rewrite list_lookup_insert_eq.
  - by rewrite list_lookup_insert_ne.
Qed.

(** * Cascades that change nothing *)

Lemma mark_cancelled_aux_fixed_inv n p g b :
  mark_cancelled_aux (S n) p g = Ok b g ->
  exists t, g !! p = Some t /\ _lock t = false /\ b = negb (_completed t) /\
    (_completed t = false ->
     _cancelled t = true /\
     forall c, c ∈ _chained t ->
       exists bc, mark_cancelled_aux n c (<[p := set_lock true t]> g)
                  = Ok bc (<[p := set_lock true t]> g)).
Proof.
  intros Hrun.
  apply mark_cancelled_aux_inv in Hrun
    as (t & Hp & Hl & [(Hc & -> & _)|(Hc & -> & h2 & Hloop & Hp2 & Hg)]);
    exists t; (split_and!; [done|done|by rewrite Hc|]); [congruence|].
  intros _.
  assert (Hct : _cancelled t = true).
  { rewrite Hg in Hp. rewrite list_lookup_insert_eq in Hp
      by (by eapply lookup_lt_Some).
    injection Hp as Heq. by rewrite <- Heq. }
  split; [done|]. rewrite set_cancelled_same in Hloop, Hp2, Hg by done.
  assert (h2 = <[p:=set_lock true t]> g) as ->.
  { rewrite Hg, list_insert_insert_eq. symmetry. by apply list_insert_id. }
  clear Hg Hp2. set (g1 := <[p:=set_lock true t]> g) in *.
  intros c Hin.
  destruct (for_each_child_elem _ _ _ _ _ Hloop Hin)
    as (s & bc & s' & Hadv & Hc' & Hadv').
  pose proof (mark_cancelled_aux_adv _ _ _ _ _ Hc') as Hss'.
  assert (s = g1) as ->.
  { apply hrel_antisym; [done|].
    eapply hrel_trans; [apply adv_trans|done|done]. }
  assert (s' = g1) as -> by (by apply hrel_antisym).
  eauto.
Qed.

Lemma mark_cancelled_aux_fixed_intro n p g t :
  g !! p = Some t -> _lock t = false -> _completed t = false ->
  _cancelled t = true ->
  (forall c, c ∈ _chained t ->
     exists bc, mark_cancelled_aux n c (<[p := set_lock true t]> g)
                = Ok bc (<[p := set_lock true t]> g)) ->
  mark_cancelled_aux (S n) p g = Ok true g.
Proof.
  intros Hp Hl Hc Hct Hch.
  rewrite (mark_cancelled_aux_live n p g t (<[p:=set_lock true t]> g)); try done.
  - rewrite set_cancelled_same, list_insert_insert_eq by done.
    by rewrite list_insert_id.
  - rewrite set_cancelled_same by done. apply for_each_fixed.
    intros c Hin. apply child_call_Ok. by apply Hch.
Qed.

(** A cascade that changes nothing still changes nothing once more tokens
    are cancelled or fewer locks are held. *)
Lemma mark_cancelled_aux_fixed_relax n p g g' b :
  mark_cancelled_aux n p g = Ok b g -> Forall2 relax g g' ->
  mark_cancelled_aux n p g' = Ok b g'.
Proof.
  revert p g g' b. induction n as [|n IH]; intros p g g' b Hrun Hrel; [done|].
  apply mark_cancelled_aux_fixed_inv in Hrun as (t & Hp & Hl & -> & Hlive).
  destruct (hrel_lookup _ _ _ _ _ Hrel Hp) as (t' & Hp' & Ht).
  pose proof (relax_fields _ _ Ht) as (Hc' & Hch' & _).
  assert (Hl' : _lock t' = false).
  { destruct Ht as (_ & _ & Hlk). destruct (_lock t'); [|done].
    rewrite Hlk in Hl; done. }
  destruct (_completed t) eqn:Hc.
  { by apply (mark_cancelled_aux_completed n p g' t'). }
  destruct (Hlive eq_refl) as (Hct & Hch).
  apply (mark_cancelled_aux_fixed_intro n p g' t');
    [done|done|congruence|by apply (proj1 (proj2 Ht))|].
  intros c Hin. rewrite Hch' in Hin. destruct (Hch c Hin) as (bc & Hrunc).
  exists bc. eapply IH; [done|]. apply hrel_insert; [done|].
  clear -Ht. tok_solve.
Qed.

(** Running a cascade again right away changes nothing. *)
Lemma mark_cancelled_aux_again n p h b h' :
  mark_cancelled_aux n p h = Ok b h' -> mark_cancelled_aux n p h' = Ok b h'.
Proof.
  revert p h b h'. induction n as [|n IH]; intros p h b h' Hrun; [done|].
  apply mark_cancelled_aux_inv in Hrun
    as (t & Hp & Hl & [(Hc & -> & ->)|(Hc & -> & h2 & Hloop & Hp2 & ->)]).
  { by apply (mark_cancelled_aux_completed n p h t). }
  assert (Hlen : p < length h2) by (by eapply lookup_lt_Some).
  apply (mark_cancelled_aux_fixed_intro n p _ (set_cancelled t)); try done.
  { by apply list_lookup_insert_eq. }
  intros c Hin. rewrite list_insert_insert_eq.
  rewrite (list_insert_id h2 p) by (rewrite Hp2; by destruct t).
  destruct (for_each_child_elem _ _ _ _ _ Hloop Hin)
    as (s & bc & s' & Hadv & Hc' & Hadv').
  exists bc. eapply mark_cancelled_aux_fixed_relax; [by eapply IH|].
  eapply hrel_impl; [apply adv_relax|done].
Qed.

(** Every token a cascade newly cancels is left in a state in which
    cancelling it again changes nothing. *)
Lemma mark_cancelled_aux_settles n p h b h' a :
  mark_cancelled_aux n p h = Ok b h' ->
  is_cancelled h a = false -> is_cancelled h' a = true ->
  exists ba, mark_cancelled_aux n a h' = Ok ba h'.
Proof.
  revert p h b h'. induction n as [|n IH]; intros p h b h' Hrun Hno Hyes; [done|].
  destruct (decide (a = p)) as [->|Hne].
  { exists b. by eapply mark_cancelled_aux_again. }
  apply mark_cancelled_aux_inv in Hrun
    as (t & Hp & Hl & [(Hc & -> & ->)|(Hc & -> & h2 & Hloop & Hp2 & ->)]);
    [congruence|].
  assert (Hno1 : is_cancelled (<[p:=set_lock true (set_cancelled t)]> h) a = false).
  { unfold is_cancelled in *. by rewrite list_lookup_insert_ne. }
  assert (Hyes2 : is_cancelled h2 a = true).
  { unfold is_cancelled in *. by rewrite list_lookup_insert_ne in Hyes. }
  destruct (for_each_child_sets _ _ _ _ _ Hloop Hno1 Hyes2)
    as (c & s & bc & s' & Hin & Hadv & Hc' & Hadv' & Hs & Hs').
  destruct (IH _ _ _ _ Hc' Hs Hs') as (ba & Hrun).
  exists ba. rewrite mark_cancelled_aux_S_fuel.
  - eapply mark_cancelled_aux_fixed_relax; [done|].
    eapply hrel_trans; [apply relax_trans| |].
    + eapply hrel_impl; [apply adv_relax|done].
    + eapply hrel_insert_r; [apply relax_refl|done|]. clear -Hl. tok_solve.
  - erewrite mark_cancelled_aux_fixed_relax; [done|done|].
    eapply hrel_trans; [apply relax_trans| |].
    + eapply hrel_impl; [apply adv_relax|done].
    + eapply hrel_insert_r; [apply relax_refl|done|]. clear -Hl. tok_solve.
Qed.

(** A cascade that changes nothing does not look at tokens that are not
    cancelled, beyond the lock and the completed flag of completed ones. *)
Lemma mark_cancelled_aux_fixed_frame n p g b q tq tq' :
  mark_cancelled_aux n p g = Ok b g ->
  g !! q = Some tq -> _cancelled tq = false -> _lock tq' = _lock tq ->
  (_completed tq = true -> _completed tq' = true) ->
  mark_cancelled_aux n p (<[q := tq']> g) = Ok b (<[q := tq']> g).
Proof.
  revert p g b. induction n as [|n IH]; intros p g b Hrun Hq Hcq Hlq Hdq; [done|].
  apply mark_cancelled_aux_fixed_inv in Hrun as (t & Hp & Hl & -> & Hlive).
  assert (Hlen : q < length g) by (by eapply lookup_lt_Some).
  destruct (decide (p = q)) as [->|Hne].
  - same_lookup. destruct (_completed tq) eqn:Hc.
    + apply (mark_cancelled_aux_completed n q _ tq'); [|congruence|auto].
      by apply list_lookup_insert_eq.
    + destruct (Hlive eq_refl). congruence.
  - destruct (_completed t) eqn:Hc.
    + apply (mark_cancelled_aux_completed n p _ t); try done.
      by rewrite list_lookup_insert_ne.
    + destruct (Hlive eq_refl) as (Hct & Hch).
      apply (mark_cancelled_aux_fixed_intro n p _ t); try done.
      { by rewrite list_lookup_insert_ne. }
      intros c Hin. destruct (Hch c Hin) as (bc & Hrunc). exists bc.
      rewrite list_insert_insert_ne by done. apply IH; try done.
      by rewrite list_lookup_insert_ne.
Qed.

(** Tokens allocated later do not matter to a cascade. *)
Lemma mark_cancelled_aux_fixed_app n p g b k :
  mark_cancelled_aux n p g = Ok b g ->
  mark_cancelled_aux n p (g ++ k) = Ok b (g ++ k).
Proof.
  revert p g b. induction n as [|n IH]; intros p g b Hrun; [done|].
  apply mark_cancelled_aux_fixed_inv in Hrun as (t & Hp & Hl & -> & Hlive).
  assert (Hlen : p < length g) by (by eapply lookup_lt_Some).
  destruct (_completed t) eqn:Hc.
  - apply (mark_cancelled_aux_completed n p _ t); try done.
    by apply lookup_app_l_Some.
  - destruct (Hlive eq_refl) as (Hct & Hch).
    apply (mark_cancelled_aux_fixed_intro n p _ t); try done.
    { by apply lookup_app_l_Some. }
    intros c Hin. destruct (Hch c Hin) as (bc & Hrunc). exists bc.
    rewrite insert_app_l by done. by apply IH.
Qed.

(** * Held locks a cascade never meets *)

Lemma mark_cancelled_aux_locked n p h b h' q tq :
  mark_cancelled_aux n p h = Ok b h' ->
  h !! q = Some tq -> _lock tq = true -> h' !! q = Some tq.
Proof.
  revert p h b h'. induction n as [|n IH]; intros p h b h' Hrun Hq Hlq; [done|].
  apply mark_cancelled_aux_inv in Hrun
    as (t & Hp & Hl & [(Hc & -> & ->)|(Hc & -> & h2 & Hloop & Hp2 & ->)]);
    [done|].
  assert (p <> q) as Hne by (intros ->; same_lookup; congruence).
  rewrite list_lookup_insert_ne by done.
  eapply (for_each_Ok_rel _
            (fun s s' => s !! q = Some tq -> s' !! q = Some tq));
    [by auto|by auto| |exact Hloop|].
  - intros x a b' _ Hx Ha. apply child_call_Ok in Hx as [bx Hx]. eauto.
  - by rewrite list_lookup_insert_ne.
Qed.

Lemma for_each_child_unlock n l h h' q tq :
  (forall p s b s', mark_cancelled_aux n p s = Ok b s' -> s !! q = Some tq ->
     mark_cancelled_aux n p (<[q := set_lock false tq]> s)
     = Ok b (<[q := set_lock false tq]> s')) ->
  _lock tq = true -> h !! q = Some tq ->
  for_each l (child_call n) h = Ok tt h' ->
  for_each l (child_call n) (<[q := set_lock false tq]> h)
  = Ok tt (<[q := set_lock false tq]> h').
Proof.
  intros Hmc Hlq. revert h. induction l as [|c l IH]; intros h Hq Hrun.
  - cbv in Hrun. by simplify_eq.
  - rewrite for_each_cons in *.
    destruct (child_call n c h) as [[] h1| | | | |] eqn:Hc; try done.
    apply child_call_Ok in Hc as [b Hc].
    unfold child_call at 1, bind. rewrite (Hmc _ _ _ _ Hc Hq). cbv [ret].
    apply IH; [|done]. by eapply mark_cancelled_aux_locked.
Qed.

(** Releasing a lock that a cascade never met does not change the cascade. *)
Lemma mark_cancelled_aux_unlock n p h b h' q tq :
  mark_cancelled_aux n p h = Ok b h' ->
  h !! q = Some tq -> _lock tq = true ->
  mark_cancelled_aux n p (<[q := set_lock false tq]> h)
  = Ok b (<[q := set_lock false tq]> h').
Proof.
  revert p h b h'. induction n as [|n IH]; intros p h b h' Hrun Hq Hlq; [done|].
  apply mark_cancelled_aux_inv in Hrun
    as (t & Hp & Hl & [(Hc & -> & ->)|(Hc & -> & h2 & Hloop & Hp2 & ->)]).
  - assert (p <> q) as Hne by (intros ->; same_lookup; congruence).
    apply (mark_cancelled_aux_completed n p _ t); try done.
    by rewrite list_lookup_insert_ne.
  - assert (p <> q) as Hne by (intros ->; same_lookup; congruence).
    rewrite (list_insert_insert_ne h2) by done.
    apply mark_cancelled_aux_live; try done.
    { by rewrite list_lookup_insert_ne. }
    rewrite list_insert_insert_ne by done.
    apply for_each_child_unlock; try done.
    + intros. by apply IH.
    + by rewrite list_lookup_insert_ne.
Qed.

(** * The other token methods, unfolded *)

Ltac step_lookup :=
  repeat first
    [ rewrite list_lookup_insert_eq by done
    | rewrite list_insert_insert_eq
    | progress cbv beta iota ].

Lemma cancelled_eq p h t :
  h !! p = Some t -> _lock t = false -> cancelled p h = Ok (_cancelled t) h.
Proof.
  intros Hp Hl. unfold cancelled. munfold. rewrite Hp, Hl.
  pose proof (lookup_lt_Some _ _ _ Hp).
  step_lookup. change (_cancelled (set_lock true t)) with (_cancelled t).
  rewrite set_lock_twice, set_lock_same by done.
  by rewrite list_insert_id.
Qed.

Lemma completed_eq p h t :
  h !! p = Some t -> _lock t = false -> completed p h = Ok (_completed t) h.
Proof.
  intros Hp Hl. unfold completed. munfold. rewrite Hp, Hl.
  pose proof (lookup_lt_Some _ _ _ Hp).
  step_lookup. change (_completed (set_lock true t)) with (_completed t).
  rewrite set_lock_twice, set_lock_same by done.
  by rewrite list_insert_id.
Qed.

Lemma mark_completed_eq p h t :
  h !! p = Some t -> _lock t = false ->
  mark_completed p h =
  if _cancelled t then Ok false h else Ok true (<[p := set_completed t]> h).
Proof.
  intros Hp Hl. unfold mark_completed. munfold. rewrite Hp, Hl.
  pose proof (lookup_lt_Some _ _ _ Hp).
  step_lookup.
  change (_cancelled (set_lock true t)) with (_cancelled t).
  destruct (_cancelled t).
  - step_lookup. rewrite set_lock_twice, set_lock_same by done.
    by rewrite list_insert_id.
  - step_lookup. do 2 f_equal. clear -Hl. tok_solve.
Qed.

Lemma chain_eq p c h t :
  h !! p = Some t -> _lock t = false ->
  chain p c h =
  if _cancelled t then
    match mark_cancelled c (<[p := set_lock true t]> h) with
    | Ok _ h2 =>
        match h2 !! p with
        | Some t2 => Ok tt (<[p := set_lock false t2]> h2)
        | None => BadRef
        end
    | Raise e h2 =>
        match h2 !! p with
        | Some t2 => Raise e (<[p := set_lock false t2]> h2)
        | None => BadRef
        end
    | Deadlock => Deadlock
    | Killed => Killed
    | BadRef => BadRef
    | OutOfFuel => OutOfFuel
    end
  else Ok tt (<[p := append_chained c t]> h).
Proof.
  intros Hp Hl. unfold chain. munfold. rewrite Hp, Hl.
  pose proof (lookup_lt_Some _ _ _ Hp).
  step_lookup.
  change (_cancelled (set_lock true t)) with (_cancelled t).
  destruct (_cancelled t).
  - destruct (mark_cancelled c _) as [b h2|e h2| | | |]; try done.
    + by destruct (h2 !! p).
    + by destruct (h2 !! p).
  - step_lookup. do 2 f_equal. clear -Hl. tok_solve.
Qed.

(** Chaining onto a cancelled parent is [ctx.mark_cancelled()] and nothing
    else: the parent's lock, held meanwhile, is the only difference. *)
Lemma chain_cancelled_inv p c h t h' :
  h !! p = Some t -> _lock t = false -> _cancelled t = true ->
  chain p c h = Ok tt h' ->
  exists b, mark_cancelled c h = Ok b h' /\ h' !! p = Some t.
Proof.
  intros Hp Hl Hct Hrun. rewrite (chain_eq p c h t), Hct in Hrun by done.
  pose proof (lookup_lt_Some _ _ _ Hp) as Hlen.
  destruct (mark_cancelled c _) as [b h2|e h2| | | |] eqn:Hc; try done;
    [|by destruct (h2 !! p)].
  unfold mark_cancelled in Hc. rewrite length_insert in Hc.
  assert (Hp2 : h2 !! p = Some (set_lock true t)).
  { eapply mark_cancelled_aux_locked;
      [exact Hc|by apply list_lookup_insert_eq|done]. }
  rewrite Hp2 in Hrun.
  eapply mark_cancelled_aux_unlock in Hc;
    [|by apply list_lookup_insert_eq|done].
  rewrite list_insert_insert_eq, set_lock_twice, set_lock_same in Hc by done.
  rewrite (list_insert_id h) in Hc by done.
  simplify_eq. exists b. rewrite set_lock_twice, set_lock_same by done.
  split; [done|].
  apply list_lookup_insert_eq. apply lookup_lt_Some in Hp2. done.
Qed.

(** * Invariants of the store *)


Lemma is_cancelled_lookup h a t :
  h !! a = Some t -> is_cancelled h a = _cancelled t.
Proof. unfold is_cancelled. by intros ->. Qed.

Lemma grows_refl h : grows h h.
Proof. intros a t Ha. eauto. Qed.

Lemma grows_trans h1 h2 h3 : grows h1 h2 -> grows h2 h3 -> grows h1 h3.
Proof.
  intros H12 H23 a t Ha.
  destruct (H12 a t Ha) as (t2 & Ha2 & ? & ?).
  destruct (H23 a t2 Ha2) as (t3 & Ha3 & ? & ?). eauto 10.
Qed.

Lemma grows_adv h h' : Forall2 adv h h' -> grows h h'.
Proof.
  intros Hadv a t Ha.
  destruct (hrel_lookup _ _ _ _ _ Hadv Ha) as (t' & Ha' & Hf).
  apply adv_fields in Hf as (Hc & _ & _ & _ & _ & _ & Hm & _).
  exists t'. rewrite Hc. auto.
Qed.

Lemma locks_free_adv h h' : Forall2 adv h h' -> locks_free h -> locks_free h'.
Proof.
  intros Hadv Hfree a t' Ha.
  destruct (hrel_lookup_r _ _ _ _ _ Hadv Ha) as (t & Ha0 & Hf).
  apply adv_fields in Hf as (_ & _ & -> & _). eauto.
Qed.

Lemma exclusive_adv h h' : Forall2 adv h h' -> exclusive h -> exclusive h'.
Proof.
  intros Hadv Hex a t' Ha.
  destruct (hrel_lookup_r _ _ _ _ _ Hadv Ha) as (t & Ha0 & Hf).
  specialize (Hex a t Ha0). clear -Hf Hex. destruct Hf as [->|[Hc ->]]; [done|].
  simpl. by rewrite Hc.
Qed.

Lemma inv_mark_cancelled p h b h' :
  inv h -> mark_cancelled p h = Ok b h' -> inv h'.
Proof.
  intros (Hfree & Hex & Hset) Hrun.
  pose proof (mark_cancelled_adv _ _ _ _ Hrun) as Hadv.
  split_and!; [by eapply locks_free_adv|by eapply exclusive_adv|].
  intros a t' Ha Hct.
  destruct (hrel_lookup_r _ _ _ _ _ Hadv Ha) as (t & Ha0 & Hf).
  destruct (_cancelled t) eqn:Hct0.
  - destruct (Hset a t Ha0 Hct0) as (n & ba & Hfix). exists n, ba.
    eapply mark_cancelled_aux_fixed_relax; [done|].
    eapply hrel_impl; [apply adv_relax|done].
  - eapply mark_cancelled_aux_settles in Hrun as (ba & Hfix); [by eauto| |].
    + by rewrite (is_cancelled_lookup _ _ _ Ha0).
    + by rewrite (is_cancelled_lookup _ _ _ Ha).
Qed.

Lemma settled_frame h q tq tq' :
  settled h -> h !! q = Some tq -> _cancelled tq = false ->
  _cancelled tq' = false -> _lock tq' = _lock tq ->
  (_completed tq = true -> _completed tq' = true) ->
  settled (<[q := tq']> h).
Proof.
  intros Hset Hq Hcq Hcq' Hlq Hdq a t Ha Hct.
  assert (Hlen : q < length h) by (by eapply lookup_lt_Some).
  destruct (decide (a = q)) as [->|Hne].
  { rewrite list_lookup_insert_eq in Ha by done. simplify_eq. congruence. }
  rewrite list_lookup_insert_ne in Ha by done.
  destruct (Hset a t Ha Hct) as (n & b & Hfix). exists n, b.
  by eapply mark_cancelled_aux_fixed_frame.
Qed.

Lemma mark_completed_inv p h b h' :
  locks_free h -> mark_completed p h = Ok b h' ->
  exists t, h !! p = Some t /\
    ((_cancelled t = true /\ b = false /\ h' = h) \/
     (_cancelled t = false /\ b = true /\ h' = <[p := set_completed t]> h)).
Proof.
  intros Hfree Hrun. destruct (h !! p) as [t|] eqn:Hp.
  - rewrite (mark_completed_eq p h t) in Hrun by eauto. exists t.
    destruct (_cancelled t); simplify_eq; auto.
  - cbv [mark_completed with_lock acquire bind] in Hrun. by rewrite Hp in Hrun.
Qed.

Lemma inv_mark_completed p h b h' :
  inv h -> mark_completed p h = Ok b h' -> inv h' /\ grows h h'.
Proof.
  intros (Hfree & Hex & Hset) Hrun.
  apply mark_completed_inv in Hrun
    as (t & Hp & [(Hct & -> & ->)|(Hct & -> & ->)]); [| |done].
  { split; [done|apply grows_refl]. }
  assert (Hlen : p < length h) by (by eapply lookup_lt_Some).
  split; [split_and!|].
  - intros a ta Ha. destruct (decide (a = p)) as [->|Hne].
    + rewrite list_lookup_insert_eq in Ha by done. simplify_eq.
      apply (Hfree p t Hp).
    + rewrite list_lookup_insert_ne in Ha by done. eauto.
  - intros a ta Ha. destruct (decide (a = p)) as [->|Hne].
    + rewrite list_lookup_insert_eq in Ha by done. simplify_eq.
      simpl. by rewrite Hct.
    + rewrite list_lookup_insert_ne in Ha by done. eauto.
  - by eapply settled_frame.
  - intros a ta Ha. destruct (decide (a = p)) as [->|Hne].
    + same_lookup. exists (set_completed ta).
      rewrite list_lookup_insert_eq by done. auto.
    + exists ta. rewrite list_lookup_insert_ne by done. auto.
Qed.

Lemma chain_inv p c h h' :
  locks_free h -> chain p c h = Ok tt h' ->
  exists t, h !! p = Some t /\
    ((_cancelled t = true /\ exists b, mark_cancelled c h = Ok b h') \/
     (_cancelled t = false /\ h' = <[p := append_chained c t]> h)).
Proof.
  intros Hfree Hrun. destruct (h !! p) as [t|] eqn:Hp.
  - exists t. split; [done|]. destruct (_cancelled t) eqn:Hct.
    + left. split; [done|].
      destruct (chain_cancelled_inv p c h t h') as (b & ? & _); eauto.
    + right. rewrite (chain_eq p c h t), Hct in Hrun by eauto.
      by simplify_eq.
  - cbv [chain with_lock acquire bind] in Hrun. by rewrite Hp in Hrun.
Qed.

Lemma inv_chain p c h h' :
  inv h -> chain p c h = Ok tt h' -> inv h' /\ grows h h'.
Proof.
  intros Hinv Hrun. pose proof Hinv as (Hfree & Hex & Hset).
  apply chain_inv in Hrun as (t & Hp & [(Hct & b & Hrun)|(Hct & ->)]);
    [| |done].
  { split; [by eapply inv_mark_cancelled|].
    by eapply grows_adv, mark_cancelled_adv. }
  assert (Hlen : p < length h) by (by eapply lookup_lt_Some).
  split; [split_and!|].
  - intros a ta Ha. destruct (decide (a = p)) as [->|Hne].
    + rewrite list_lookup_insert_eq in Ha by done. simplify_eq.
      apply (Hfree p t Hp).
    + rewrite list_lookup_insert_ne in Ha by done. eauto.
  - intros a ta Ha. destruct (decide (a = p)) as [->|Hne].
    + rewrite list_lookup_insert_eq in Ha by done. simplify_eq.
      apply (Hex p t Hp).
    + rewrite list_lookup_insert_ne in Ha by done. eauto.
  - by eapply settled_frame.
  - intros a ta Ha. destruct (decide (a = p)) as [->|Hne].
    + same_lookup. exists (append_chained c ta).
      rewrite list_lookup_insert_eq by done. auto.
    + exists ta. rewrite list_lookup_insert_ne by done. auto.
Qed.

Lemma inv_alloc h t : inv h -> is_fresh t -> inv (h ++ [t]) /\ grows h (h ++ [t]).
Proof.
  intros (Hfree & Hex & Hset) (Hc & Hd & _ & Hl). split; [split_and!|].
  - intros a ta Ha. apply lookup_app_Some in Ha as [Ha|[_ Ha]]; [eauto|].
    apply list_lookup_singleton_Some in Ha as [_ <-]. done.
  - intros a ta Ha. apply lookup_app_Some in Ha as [Ha|[_ Ha]]; [eauto|].
    apply list_lookup_singleton_Some in Ha as [_ <-]. by rewrite Hc.
  - intros a ta Ha Hct. apply lookup_app_Some in Ha as [Ha|[_ Ha]].
    + destruct (Hset a ta Ha Hct) as (n & b & Hfix). exists n, b.
      by apply mark_cancelled_aux_fixed_app.
    + apply list_lookup_singleton_Some in Ha as [_ <-]. congruence.
  - intros a ta Ha. exists ta. split; [by apply lookup_app_l_Some|auto].
Qed.

Lemma inv_hstep h h' : inv h -> hstep h h' -> inv h' /\ grows h h'.
Proof.
  intros Hinv [t Ht|p b Hrun|p b Hrun|p c Hrun].
  - by apply inv_alloc.
  - split; [by eapply inv_mark_cancelled|].
    by eapply grows_adv, mark_cancelled_adv.
  - by eapply inv_mark_completed.
  - by eapply inv_chain.
Qed.

Lemma inv_hsteps h h' : inv h -> rtc hstep h h' -> inv h' /\ grows h h'.
Proof.
  intros Hinv Hsteps. induction Hsteps as [h|h h1 h2 Hstep _ IH].
  - split; [done|apply grows_refl].
  - destruct (inv_hstep _ _ Hinv Hstep) as (Hinv1 & Hg1).
    destruct (IH Hinv1) as (Hinv2 & Hg2).
    split; [done|by eapply grows_trans].
Qed.

Lemma inv_fresh h : Forall is_fresh h -> inv h.
Proof.
  intros Hfresh. split_and!.
  - intros a t Ha. by destruct (Forall_lookup_1 _ _ _ _ Hfresh Ha) as (_&_&_&?).
  - intros a t Ha.
    destruct (Forall_lookup_1 _ _ _ _ Hfresh Ha) as (-> & _). done.
  - intros a t Ha Hct.
    destruct (Forall_lookup_1 _ _ _ _ Hfresh Ha) as (? & _). congruence.
Qed.

(** In a store that satisfies the invariants, marking a cancelled token
    cancelled again returns true and changes nothing. *)
Lemma inv_mark_cancelled_again h p t :
  inv h -> h !! p = Some t -> _cancelled t = true ->
  mark_cancelled p h = Ok true h.
Proof.
  intros (Hfree & Hex & Hset) Hp Hct.
  destruct (Hset p t Hp Hct) as (n & b & Hfix).
  rewrite (mark_cancelled_of_aux n) by (by rewrite Hfix).
  rewrite Hfix. destruct n as [|n]; [done|].
  apply mark_cancelled_aux_fixed_inv in Hfix as (t0 & Hp0 & _ & -> & _).
  rewrite Hp in Hp0. injection Hp0 as <-.
  specialize (Hex p t Hp). rewrite Hct in Hex.
  simpl in Hex. by rewrite Hex.
Qed.

(** * Calls into the module only change the store through token methods *)

Lemma silent_tame {A} (m : M World A) : silent m -> tame m.
Proof.
  intros Hm w. specialize (Hm w). destruct (m w); try done; by rewrite Hm.
Qed.

Lemma tame_ret {A} (a : A) : tame (ret a).
Proof. intros w. cbv [ret]. done. Qed.

Lemma tame_raise {A} e : tame (@raise World A e).
Proof. intros w. cbv [raise]. done. Qed.

Lemma tame_bind {A B} (m : M World A) (k : A -> M World B) :
  tame m -> (forall a, tame (k a)) -> tame (bind m k).
Proof.
  intros Hm Hk w. unfold bind. specialize (Hm w).
  destruct (m w) as [a w1|e w1| | | |]; try done.
  specialize (Hk a w1). destruct (k a w1); try done; by etrans.
Qed.

Lemma cancelled_Ok p h b h' : cancelled p h = Ok b h' -> h' = h.
Proof.
  intros Hrun. destruct (h !! p) as [t|] eqn:Hp.
  - destruct (_lock t) eqn:Hl.
    + cbv [cancelled with_lock acquire bind] in Hrun. by rewrite Hp, Hl in Hrun.
    + rewrite (cancelled_eq p h t) in Hrun by done. by simplify_eq.
  - cbv [cancelled with_lock acquire bind] in Hrun. by rewrite Hp in Hrun.
Qed.

Lemma completed_Ok p h b h' : completed p h = Ok b h' -> h' = h.
Proof.
  intros Hrun. destruct (h !! p) as [t|] eqn:Hp.
  - destruct (_lock t) eqn:Hl.
    + cbv [completed with_lock acquire bind] in Hrun. by rewrite Hp, Hl in Hrun.
    + rewrite (completed_eq p h t) in Hrun by done. by simplify_eq.
  - cbv [completed with_lock acquire bind] in Hrun. by rewrite Hp in Hrun.
Qed.

Lemma with_lock_plain {A} p (body : M Heap A) h :
  (forall s, plain (body s)) -> plain (with_lock p body h).
Proof.
  intros Hb. munfold. destruct (h !! p) as [t|]; [|done].
  destruct (_lock t); [done|]. specialize (Hb (<[p:=set_lock true t]> h)).
  destruct (body _) as [a s|e s| | | |]; try done;
    try by destruct (s !! p).
Qed.

Lemma load_plain {A} p (f : CancelContext -> A) h : plain (load p f h).
Proof. unfold load. by destruct (h !! p). Qed.

Lemma store_plain p f h : plain (store p f h).
Proof. unfold store. by destruct (h !! p). Qed.

Lemma mark_cancelled_plain p h : plain (mark_cancelled p h).
Proof. apply mark_cancelled_aux_plain. Qed.

Lemma bind_plain {S A B} (m : M S A) (k : A -> M S B) s :
  plain (m s) -> (forall a s', plain (k a s')) -> plain (bind m k s).
Proof.
  intros Hm Hk. unfold bind. destruct (m s); first [done|apply Hk].
Qed.

Lemma mark_completed_plain p h : plain (mark_completed p h).
Proof.
  apply with_lock_plain. intros s. apply bind_plain; [apply load_plain|].
  intros [] s'; [done|]. apply bind_plain; [apply store_plain|done].
Qed.

Lemma chain_plain p c h : plain (chain p c h).
Proof.
  apply with_lock_plain. intros s. apply bind_plain; [apply load_plain|].
  intros [] s'; [|apply store_plain].
  apply bind_plain; [apply mark_cancelled_plain|done].
Qed.

Lemma cancelled_plain p h : plain (cancelled p h).
Proof. apply with_lock_plain. intros s. apply load_plain. Qed.

Lemma completed_plain p h : plain (completed p h).
Proof. apply with_lock_plain. intros s. apply load_plain. Qed.

Lemma tame_lift {A} (m : M Heap A) :
  (forall h, plain (m h)) ->
  (forall h a h', m h = Ok a h' -> rtc hstep h h') -> tame (lift m).
Proof.
  intros Hplain Hm w. unfold lift. specialize (Hplain (tokens w)).
  destruct (m (tokens w)) eqn:Hrun; try done. simpl. eauto.
Qed.

Lemma tame_mark_cancelled p : tame (lift (mark_cancelled p)).
Proof.
  apply tame_lift; [apply mark_cancelled_plain|].
  intros h b h' Hrun. apply rtc_once. by eapply hstep_mark_cancelled.
Qed.

Lemma tame_mark_completed p : tame (lift (mark_completed p)).
Proof.
  apply tame_lift; [apply mark_completed_plain|].
  intros h b h' Hrun. apply rtc_once. by eapply hstep_mark_completed.
Qed.

Lemma tame_chain p c : tame (lift (chain p c)).
Proof.
  apply tame_lift; [apply chain_plain|].
  intros h [] h' Hrun. apply rtc_once. by eapply hstep_chain.
Qed.

Lemma tame_cancelled p : tame (lift (cancelled p)).
Proof.
  apply tame_lift; [apply cancelled_plain|].
  intros h b h' Hrun. apply cancelled_Ok in Hrun as ->. done.
Qed.

Lemma tame_completed p : tame (lift (completed p)).
Proof.
  apply tame_lift; [apply completed_plain|].
  intros h b h' Hrun. apply completed_Ok in Hrun as ->. done.
Qed.

Lemma tame_load {A} p (f : CancelContext -> A) : tame (lift (load p f)).
Proof.
  apply tame_lift; [apply load_plain|].
  intros h b h' Hrun. unfold load in Hrun. destruct (h !! p); by simplify_eq.
Qed.

Lemma tame_alloc timeout deadline fn :
  tame (lift (alloc (fresh_token timeout deadline fn))).
Proof.
  apply tame_lift; [done|].
  intros h b h' Hrun. unfold alloc in Hrun. simplify_eq.
  apply rtc_once. by apply hstep_alloc.
Qed.

Lemma silent_monotonic : silent monotonic.
Proof. done. Qed.

Lemma silent_scope_cancel s : silent (scope_cancel s).
Proof. intros w. unfold scope_cancel. by destruct (scopes w !! s). Qed.

Lemma silent_scope_cancel_called s : silent (scope_cancel_called s).
Proof. intros w. unfold scope_cancel_called. by destruct (scopes w !! s). Qed.

Lemma silent_send th e : silent (_send_exception_to_thread th e).
Proof. intros w. unfold _send_exception_to_thread. by case_bool_decide. Qed.

Lemma silent_new_scope d : silent (new_scope d).
Proof. done. Qed.

Lemma silent_signal_sigalrm cl : silent (signal_sigalrm cl).
Proof. done. Qed.

Lemma silent_setitimer s i : silent (setitimer s i).
Proof. intros w. unfold setitimer. by destruct (_ && _). Qed.

Lemma silent_on_main_thread : silent on_main_thread.
Proof. done. Qed.

Lemma silent_new_event : silent new_event.
Proof. done. Qed.

Lemma silent_event_set e : silent (event_set e).
Proof. intros w. unfold event_set. by destruct (events w !! e). Qed.

Lemma silent_event_is_set e : silent (event_is_set e).
Proof. intros w. unfold event_is_set. by destruct (events w !! e). Qed.

Lemma silent_start_watcher wt : silent (start_watcher wt).
Proof. done. Qed.

Lemma silent_schedule current live : silent (schedule current live).
Proof. done. Qed.

Create HintDb tame discriminated.
#[local] Hint Resolve tame_ret tame_raise tame_mark_cancelled
  tame_mark_completed tame_chain tame_cancelled tame_completed tame_load
  tame_alloc : tame.
#[local] Hint Resolve silent_monotonic silent_scope_cancel
  silent_scope_cancel_called silent_send silent_new_scope
  silent_signal_sigalrm silent_setitimer silent_on_main_thread
  silent_new_event silent_event_set silent_event_is_set
  silent_start_watcher silent_schedule : tame.

Ltac tame_step :=
  first
    [ apply tame_bind; [|intros ?]
    | solve [auto with tame]
    | solve [apply silent_tame; auto with tame]
    | match goal with
      | |- tame (if ?b then _ else _) => destruct b
      | |- tame (match ?x with _ => _ end) => destruct x
      end ].

Ltac tame_tac := repeat tame_step.

Lemma tame_get_deadline timeout : tame (get_deadline timeout).
Proof. unfold get_deadline. tame_tac. Qed.

Lemma tame_new_context timeout fn : tame (new_context timeout fn).
Proof. unfold new_context. pose proof tame_get_deadline. tame_tac. Qed.

#[local] Hint Resolve tame_get_deadline tame_new_context : tame.

Lemma tame_raise_alarm_as_timeout cl : tame (raise_alarm_as_timeout cl).
Proof. unfold raise_alarm_as_timeout. tame_tac. Qed.

#[local] Hint Resolve tame_raise_alarm_as_timeout : tame.

Lemma tame_raise_sigalrm : tame raise_sigalrm.
Proof.
  intros w. unfold raise_sigalrm. destruct (sigalrm w) as [cl|]; [|done].
  apply tame_raise_alarm_as_timeout.
Qed.

#[local] Hint Resolve tame_raise_sigalrm : tame.

Lemma tame_call_cancel_fn fn : tame (call_cancel_fn fn).
Proof. unfold call_cancel_fn. tame_tac. Qed.

#[local] Hint Resolve tame_call_cancel_fn : tame.

Lemma tame_cancel p : tame (cancel p).
Proof. unfold cancel. tame_tac. Qed.

Lemma tame_cancel_async_at_enter d : tame (cancel_async_at_enter d).
Proof. unfold cancel_async_at_enter. tame_tac. Qed.

Lemma tame_cancel_async_at_exit d s c : tame (cancel_async_at_exit d s c).
Proof. unfold cancel_async_at_exit. tame_tac. Qed.

#[local] Hint Resolve tame_cancel tame_cancel_async_at_enter
  tame_cancel_async_at_exit : tame.

Lemma tame_cancel_async_after_enter t : tame (cancel_async_after_enter t).
Proof. unfold cancel_async_after_enter. tame_tac. Qed.

Lemma tame_alarm_enter t : tame (_alarm_based_timeout_enter t).
Proof. unfold _alarm_based_timeout_enter. tame_tac. Qed.

Lemma tame_alarm_exit t pr c : tame (_alarm_based_timeout_exit t pr c).
Proof. unfold _alarm_based_timeout_exit. tame_tac. Qed.

Lemma tame_watcher_enter t : tame (_watcher_thread_based_timeout_enter t).
Proof.
  unfold _watcher_thread_based_timeout_enter. tame_tac.
Qed.

Lemma tame_watcher_exit e c : tame (_watcher_thread_based_timeout_exit e c).
Proof. unfold _watcher_thread_based_timeout_exit. tame_tac. Qed.

Lemma tame_timeout_enforcer wt : tame (timeout_enforcer wt).
Proof. unfold timeout_enforcer. tame_tac. Qed.

#[local] Hint Resolve tame_cancel_async_after_enter tame_alarm_enter
  tame_alarm_exit tame_watcher_enter tame_watcher_exit
  tame_timeout_enforcer : tame.

Lemma tame_cancel_sync_after_enter t : tame (cancel_sync_after_enter t).
Proof.
  unfold cancel_sync_after_enter. tame_tac.
Qed.

Lemma tame_cancel_sync_after_exit f : tame (cancel_sync_after_exit f).
Proof. unfold cancel_sync_after_exit. tame_tac. Qed.

#[local] Hint Resolve tame_cancel_sync_after_enter
  tame_cancel_sync_after_exit : tame.

Lemma tame_cancel_sync_at_enter d : tame (cancel_sync_at_enter d).
Proof. unfold cancel_sync_at_enter. tame_tac. Qed.

#[local] Hint Resolve tame_cancel_sync_at_enter : tame.

Lemma tame_exec o : tame (exec o).
Proof.
  destruct o; unfold exec; tame_tac.
  intros w. destruct (watchers w !! i) as [wt|]; [|done].
  apply tame_timeout_enforcer.
Qed.

Lemma step_hsteps w w' : step w w' -> rtc hstep (tokens w) (tokens w').
Proof.
  intros [o Hrun|o e Hrun]; pose proof (tame_exec o w) as Ht;
    by rewrite Hrun in Ht.
Qed.

Lemma steps_hsteps w w' : steps w w' -> rtc hstep (tokens w) (tokens w').
Proof.
  induction 1 as [|w w1 w2 Hstep _ IH]; [done|].
  etrans; [by apply step_hsteps|done].
Qed.

(** * Checking acyclicity and free locks by computation *)

Lemma acyclic_by_ranked rk h p : acyclic_by rk h = true -> ranked rk h p.
Proof.
  intros Hchk a t c Hr Ha Hin. unfold acyclic_by in Hchk.
  rewrite forallb_forall in Hchk.
  specialize (Hchk (a, t)). simpl in Hchk.
  assert (Hlive : _completed t = false).
  { destruct (reach_live _ _ _ Hr) as (t0 & Ha0 & Hc0). congruence. }
  rewrite Hlive in Hchk. simpl in Hchk.
  assert (Hall : forallb (edge_ok rk h a) (_chained t) = true).
  { apply Hchk. apply list_elem_of_In, list_elem_of_lookup. exists a.
    by rewrite list_lookup_imap, Ha. }
  rewrite forallb_forall in Hall.
  assert (Hin' : In c (_chained t)) by (by apply list_elem_of_In).
  specialize (Hall c Hin').
  unfold edge_ok in Hall. destruct (h !! c) as [tc|]; [|done].
  exists tc. split; [done|]. intros Hc. rewrite Hc in Hall. simpl in Hall.
  by apply bool_decide_eq_true in Hall.
Qed.

Lemma all_unlocked_free h : all_unlocked h = true -> locks_free h.
Proof.
  intros Hchk a t Ha. unfold all_unlocked in Hchk.
  rewrite forallb_forall in Hchk. specialize (Hchk t).
  apply negb_true_iff, Hchk, list_elem_of_In, list_elem_of_lookup. eauto.
Qed.

(** * Stores with more chain edges *)




(** * The cascade as calls on the children *)

Lemma for_each_child_top n l h h' :
  for_each l (child_call n) h = Ok tt h' ->
  for_each l (fun ctx => mark_cancelled ctx >> ret tt) h = Ok tt h'.
Proof.
  revert h. induction l as [|c l IH]; intros h Hrun; [done|].
  rewrite for_each_cons in *.
  destruct (child_call n c h) as [[] h1| | | | |] eqn:Hc; try done.
  apply child_call_Ok in Hc as [b Hc].
  unfold bind at 1. rewrite (mark_cancelled_of_aux n) by (by rewrite Hc).
  rewrite Hc. cbv [ret]. by apply IH.
Qed.

Lemma mark_cancelled_children p h t b h' :
  h !! p = Some t -> _completed t = false ->
  mark_cancelled p h = Ok b h' ->
  b = true /\ h' !! p = Some (set_cancelled t) /\
  for_each (_chained t) (fun ctx => mark_cancelled ctx >> ret tt)
    (<[p := set_cancelled t]> h) = Ok tt h'.
Proof.
  intros Hp Hc Hrun. unfold mark_cancelled in Hrun.
  apply mark_cancelled_aux_inv in Hrun
    as (t0 & Hp0 & Hl & [(Hc0 & _)|(_ & -> & h2 & Hloop & Hp2 & ->)]);
    rewrite Hp in Hp0; injection Hp0 as <-; [congruence|].
  assert (Hlen : p < length h) by (by eapply lookup_lt_Some).
  assert (Hlen2 : p < length h2) by (by eapply lookup_lt_Some).
  split_and!; [done|by apply list_lookup_insert_eq|].
  eapply for_each_child_top.
  set (tq := set_lock true (set_cancelled t)) in *.
  assert (Hloop' :
    for_each (_chained t) (child_call (length h))
      (<[p := set_lock false tq]> (<[p := tq]> h))
    = Ok tt (<[p := set_lock false tq]> h2)).
  { apply for_each_child_unlock;
      [|done|by apply list_lookup_insert_eq|done].
    intros. by apply mark_cancelled_aux_unlock. }
  rewrite list_insert_insert_eq in Hloop'.
  replace (set_lock false tq) with (set_cancelled t) in Hloop'
    by (clear -Hl; subst tq; tok_solve).
  exact Hloop'.
Qed.

(** ** [mark_cancelled] *)

Lemma mark_cancelled_done p h t :
  h !! p = Some t -> _lock t = false -> _completed t = true ->
  mark_cancelled p h = Ok false h.
Proof. intros. by eapply mark_cancelled_aux_completed. Qed.

(** The cascade from a token that has not completed, over an acyclic
    chain. *)
Lemma mark_cancelled_cascade h p t rk :
  h !! p = Some t -> locks_free h -> _completed t = false -> ranked rk h p ->
  exists h',
    mark_cancelled p h = Ok true h' /\
    h' !! p = Some (set_cancelled t) /\
    for_each (_chained t) (fun ctx => mark_cancelled ctx >> ret tt)
      (<[p := set_cancelled t]> h) = Ok tt h' /\
    Forall2 adv h h' /\
    (forall a, is_cancelled h' a = true <->
               is_cancelled h a = true \/ reach h p a) /\
    (forall c tc, c ∈ _chained t -> h !! c = Some tc ->
                  _completed tc = false -> is_cancelled h' c = true).
Proof.
  intros Hp Hfree Hc Hrk.
  destruct (mark_cancelled_returns rk p h) as (b & h' & Hrun); [done..|].
  destruct (mark_cancelled_children _ _ _ _ _ Hp Hc Hrun) as (-> & Hp' & Hch).
  pose proof (mark_cancelled_adv _ _ _ _ Hrun) as Hadv.
  assert (Hcomplete : forall a, reach h p a -> is_cancelled h' a = true).
  { intros a. by eapply mark_cancelled_aux_complete. }
  exists h'. split_and!; try done.
  - intros a. split.
    + intros Hyes. destruct (is_cancelled h a) eqn:Hno; [by left|right].
      by eapply mark_cancelled_aux_sound.
    + intros [Hold|Hr]; [by eapply is_cancelled_adv|auto].
  - intros c tc Hin Hctc Hlive. apply Hcomplete.
    eapply reach_child; [done..|]. by eapply reach_self.
Qed.

(** A fresh parent chained to two fresh children. *)
Lemma cascade_two_children h P C1 C2 tP t1 t2 :
  locks_free h ->
  h !! P = Some tP -> h !! C1 = Some t1 -> h !! C2 = Some t2 ->
  is_fresh tP -> is_fresh t1 -> is_fresh t2 -> P <> C1 -> P <> C2 ->
  exists h',
    (chain P C1 >> chain P C2 >> mark_cancelled P >>
     let* c1 := cancelled C1 in
     let* c2 := cancelled C2 in
     ret (c1, c2)) h = Ok (true, true) h'.
Proof.
  intros Hfree HP H1 H2 HfP Hf1 Hf2 Hne1 Hne2.
  pose proof HfP as (HPc & HPd & HPch & HPl).
  pose proof Hf1 as (H1c & H1d & H1ch & H1l).
  pose proof Hf2 as (H2c & H2d & H2ch & H2l).
  assert (HlenP : P < length h) by (by eapply lookup_lt_Some).
  set (tP1 := append_chained C1 tP).
  set (tP2 := append_chained C2 tP1).
  set (h2 := <[P := tP2]> h).
  assert (Hchain1 : chain P C1 h = Ok tt (<[P := tP1]> h)).
  { by rewrite (chain_eq P C1 h tP), HPc. }
  assert (Hchain2 : chain P C2 (<[P := tP1]> h) = Ok tt h2).
  { rewrite (chain_eq P C2 _ tP1) by (by try apply list_lookup_insert_eq).
    change (_cancelled tP1) with (_cancelled tP). rewrite HPc.
    by rewrite list_insert_insert_eq. }
  assert (HP2 : h2 !! P = Some tP2) by (by apply list_lookup_insert_eq).
  assert (H12 : h2 !! C1 = Some t1) by (by unfold h2; rewrite list_lookup_insert_ne).
  assert (H22 : h2 !! C2 = Some t2) by (by unfold h2; rewrite list_lookup_insert_ne).
  assert (Hch2 : _chained tP2 = [C1; C2]) by (by simpl; rewrite HPch).
  assert (Hfree2 : locks_free h2).
  { intros a ta Ha. unfold h2 in Ha. destruct (decide (a = P)) as [->|Hne].
    - rewrite list_lookup_insert_eq in Ha by done. by simplify_eq.
    - rewrite list_lookup_insert_ne in Ha by done. eauto. }
  assert (Hreach : forall a, reach h2 P a -> a = P \/ a = C1 \/ a = C2).
  { intros a Hr. inversion Hr as [? t0 Hp0 _|? t0 c ? Hp0 _ Hin Hca]; subst;
      [by left|].
    rewrite HP2 in Hp0. injection Hp0 as <-. rewrite Hch2 in Hin.
    assert (Hleaf : forall c0 t0, h2 !! c0 = Some t0 -> _chained t0 = [] ->
                      reach h2 c0 a -> a = c0).
    { intros c0 t0 Hc0 Hnil Hr0.
      inversion Hr0 as [|? t3 c3 ? Hp3 _ Hin3 _]; subst; [done|].
      rewrite Hc0 in Hp3. injection Hp3 as <-. rewrite Hnil in Hin3.
      by apply elem_of_nil in Hin3. }
    apply elem_of_cons in Hin as [->|Hin];
      [right; left; by eapply Hleaf|].
    apply list_elem_of_singleton in Hin as ->. right; right. by eapply Hleaf. }
  set (rk := fun a : addr => if decide (a = P) then 1 else 0).
  assert (Hrk : ranked rk h2 P).
  { intros a ta c Hr Ha Hin.
    destruct (Hreach a Hr) as [->|[->| ->]]; same_lookup.
    - rewrite Hch2 in Hin. apply elem_of_cons in Hin as [->|Hin].
      + exists t1. split; [done|]. intros _. unfold rk.
        repeat case_decide; first [lia|congruence].
      + apply list_elem_of_singleton in Hin as ->.
        exists t2. split; [done|]. intros _. unfold rk.
        repeat case_decide; first [lia|congruence].
    - rewrite H1ch in Hin. by apply elem_of_nil in Hin.
    - rewrite H2ch in Hin. by apply elem_of_nil in Hin. }
  destruct (mark_cancelled_cascade h2 P tP2 rk HP2 Hfree2)
    as (h' & Hrun & _ & _ & Hadv & _ & Hkids); [done|done|].
  exists h'. unfold bind. rewrite Hchain1, Hchain2, Hrun.
  destruct (hrel_lookup _ _ _ _ _ Hadv H12) as (t1' & H1' & Hf1').
  destruct (hrel_lookup _ _ _ _ _ Hadv H22) as (t2' & H2' & Hf2').
  pose proof (Hkids C1 t1) as Hk1. pose proof (Hkids C2 t2) as Hk2.
  rewrite Hch2 in Hk1, Hk2.
  rewrite (is_cancelled_lookup _ _ _ H1') in Hk1.
  rewrite (is_cancelled_lookup _ _ _ H2') in Hk2.
  apply adv_fields in Hf1' as (_ & _ & Hl1' & _).
  apply adv_fields in Hf2' as (_ & _ & Hl2' & _).
  rewrite (cancelled_eq C1 h' t1') by (done || congruence).
  rewrite (cancelled_eq C2 h' t2') by (done || congruence).
  rewrite Hk1, Hk2; [done|by repeat constructor|done|done|by repeat constructor|done|done].
Qed.

(** C2, as amended.  [mark_cancelled] on a completed token returns false
    and leaves the store as it is.  On any other token, provided the chain
    below it is acyclic, it returns true, the token is cancelled, the resulting store is
    the one obtained by calling [mark_cancelled] on each chained child in
    turn, exactly the tokens the cascade reaches are newly cancelled and
    nothing else changes; so a fresh parent chained to two fresh children
    leaves both children cancelled. *)
Theorem mark_cancelled_spec :
  (forall (h : Heap) (p : addr) (t : CancelContext) (rk : addr -> nat),
     h !! p = Some t -> locks_free h ->
     (_completed t = true -> mark_cancelled p h = Ok false h) /\
     (_completed t = false -> ranked rk h p ->
      exists h',
        mark_cancelled p h = Ok true h' /\
        h' !! p = Some (set_cancelled t) /\
        for_each (_chained t) (fun ctx => mark_cancelled ctx >> ret tt)
          (<[p := set_cancelled t]> h) = Ok tt h' /\
        Forall2 adv h h' /\
        (forall a, is_cancelled h' a = true <->
                   is_cancelled h a = true \/ reach h p a) /\
        (forall c tc, c ∈ _chained t -> h !! c = Some tc ->
                      _completed tc = false -> is_cancelled h' c = true))) /\
  (forall (h : Heap) (P C1 C2 : addr) (tP t1 t2 : CancelContext),
     locks_free h ->
     h !! P = Some tP -> h !! C1 = Some t1 -> h !! C2 = Some t2 ->
     is_fresh tP -> is_fresh t1 -> is_fresh t2 -> P <> C1 -> P <> C2 ->
     exists h',
       (chain P C1 >> chain P C2 >> mark_cancelled P >>
        let* c1 := cancelled C1 in
        let* c2 := cancelled C2 in
        ret (c1, c2)) h = Ok (true, true) h').
Proof.
  split.
  - intros h p t rk Hp Hfree. split.
    + intros Hc. eapply mark_cancelled_done; eauto.
    + intros Hc Hrk. by eapply mark_cancelled_cascade.
  - intros. by eapply cascade_two_children.
Qed.

(** ** [mark_completed] *)

(** C3. [mark_completed] on a cancelled token returns false and leaves the
    store as it is.  On any other token it returns true and changes the
    store at that token only: the token is now completed, still not
    cancelled, and [completed()] and [cancelled()] report just that.
    Cancellation wins: once [mark_cancelled] has returned true,
    [mark_completed] is refused. *)
Theorem mark_completed_spec (h : Heap) (p : addr) (t : CancelContext) :
  h !! p = Some t -> _lock t = false ->
  (_cancelled t = true -> mark_completed p h = Ok false h) /\
  (_cancelled t = false ->
   exists h' t',
     mark_completed p h = Ok true h' /\
     h' = <[p := set_completed t]> h /\
     h' !! p = Some t' /\
     _completed t' = true /\ _cancelled t' = false /\
     _chained t' = _chained t /\
     completed p h' = Ok true h' /\ cancelled p h' = Ok false h') /\
  (forall h', mark_cancelled p h = Ok true h' ->
              mark_completed p h' = Ok false h').
Proof.
  intros Hp Hl. split_and!.
  - intros Hct. by rewrite (mark_completed_eq p h t), Hct.
  - intros Hct.
    assert (Hp' : <[p := set_completed t]> h !! p = Some (set_completed t)).
    { apply list_lookup_insert_eq. by eapply lookup_lt_Some. }
    exists (<[p := set_completed t]> h), (set_completed t).
    split; [by rewrite (mark_completed_eq p h t), Hct|].
    split_and!; try done.
    + by rewrite (completed_eq p _ (set_completed t)).
    + rewrite (cancelled_eq p _ (set_completed t)) by done. simpl.
      by rewrite Hct.
  - intros h' Hrun. destruct (_completed t) eqn:Hc.
    { rewrite (mark_cancelled_done p h t) in Hrun; done. }
    destruct (mark_cancelled_children _ _ _ _ _ Hp Hc Hrun) as (_ & Hp' & _).
    by rewrite (mark_completed_eq p h' (set_cancelled t)).
Qed.

(** ** [chain] *)





(** ** Completed children *)

(** C10, as amended.  Cancelling a parent that has not completed, over an
    acyclic chain, with a completed child still cancels the parent and
    returns true; the completed child is left exactly as it was (still
    completed, still not cancelled), and every chained child that has not
    completed is cancelled. *)
Theorem cascade_skips_completed_child (h : Heap) (p c : addr)
  (t tc : CancelContext) (rk : addr -> nat) :
  h !! p = Some t -> _completed t = false -> c ∈ _chained t ->
  h !! c = Some tc -> _completed tc = true -> _cancelled tc = false ->
  locks_free h -> ranked rk h p ->
  exists h',
    mark_cancelled p h = Ok true h' /\
    cancelled p h' = Ok true h' /\
    h' !! c = Some tc /\
    completed c h' = Ok true h' /\
    cancelled c h' = Ok false h' /\
    (forall c' tc', c' ∈ _chained t -> h !! c' = Some tc' ->
                    _completed tc' = false -> is_cancelled h' c' = true).
Proof.
  intros Hp Hc Hin Hctc Hdone Hnot Hfree Hrk.
  destruct (mark_cancelled_cascade h p t rk Hp Hfree Hc Hrk)
    as (h' & Hrun & Hp' & _ & Hadv & _ & Hkids).
  exists h'. 
  destruct (hrel_lookup _ _ _ _ _ Hadv Hctc) as (tc' & Hctc' & Hf).
  assert (tc' = tc) as ->.
  { destruct Hf as [->|[Hlive _]]; [done|congruence]. }
  pose proof (locks_free_adv _ _ Hadv Hfree) as Hfree'.
  split_and!; try done.
  - rewrite (cancelled_eq p h' (set_cancelled t)); [done|done|].
    apply (Hfree' p _ Hp').
  - rewrite (completed_eq c h' tc), Hdone; eauto.
  - rewrite (cancelled_eq c h' tc), Hnot; eauto.
Qed.

(** * Programs *)

Lemma steps_inv w0 w :
  fresh_world w0 -> steps w0 w -> inv (tokens w).
Proof.
  intros Hfresh Hsteps.
  by destruct (inv_hsteps _ _ (inv_fresh _ Hfresh) (steps_hsteps _ _ Hsteps)).
Qed.

Lemma steps_grows w0 w w' :
  fresh_world w0 -> steps w0 w -> steps w w' -> grows (tokens w) (tokens w').
Proof.
  intros Hfresh Hsteps Hsteps'.
  by destruct (inv_hsteps _ _ (steps_inv _ _ Hfresh Hsteps)
                 (steps_hsteps _ _ Hsteps')).
Qed.

Lemma set_completed_same t : _completed t = true -> set_completed t = t.
Proof. tok_solve. Qed.

Lemma mark_completed_again p h h' :
  mark_completed p h = Ok true h' -> mark_completed p h' = Ok true h'.
Proof.
  intros Hrun. destruct (h !! p) as [t|] eqn:Hp.
  - destruct (_lock t) eqn:Hl.
    { cbv [mark_completed with_lock acquire bind] in Hrun.
      by rewrite Hp, Hl in Hrun. }
    rewrite (mark_completed_eq p h t) in Hrun by done.
    destruct (_cancelled t) eqn:Hct; [done|]. simplify_eq.
    assert (Hlen : p < length h) by (by eapply lookup_lt_Some).
    rewrite (mark_completed_eq p _ (set_completed t));
      [|by apply list_lookup_insert_eq|done].
    simpl. rewrite Hct. by rewrite list_insert_insert_eq.
  - cbv [mark_completed with_lock acquire bind] in Hrun.
    by rewrite Hp in Hrun.
Qed.

Lemma mark_cancelled_again p h b h' :
  mark_cancelled p h = Ok b h' -> mark_cancelled p h' = Ok b h'.
Proof.
  intros Hrun. unfold mark_cancelled in *.
  rewrite <- (Forall2_length _ _ _ (mark_cancelled_aux_adv _ _ _ _ _ Hrun)).
  by eapply mark_cancelled_aux_again.
Qed.

(** C1. Along every program that starts from fresh tokens, [cancelled()]
    and [completed()] are never both true of a token, and whichever is true
    stays true after every further call. *)
Theorem terminal_exclusivity (w0 w w' : World) (p : addr) (t : CancelContext) :
  fresh_world w0 -> steps w0 w -> steps w w' -> tokens w !! p = Some t ->
  exists c d c' d',
    cancelled p (tokens w) = Ok c (tokens w) /\
    completed p (tokens w) = Ok d (tokens w) /\
    c && d = false /\
    cancelled p (tokens w') = Ok c' (tokens w') /\
    completed p (tokens w') = Ok d' (tokens w') /\
    (c = true -> c' = true) /\ (d = true -> d' = true).
Proof.
  intros Hfresh Hsteps Hsteps' Hp.
  pose proof (steps_inv _ _ Hfresh Hsteps) as (Hfree & Hex & _).
  assert (Hall : steps w0 w') by (by etrans).
  pose proof (steps_inv _ _ Hfresh Hall) as (Hfree' & _ & _).
  destruct (steps_grows _ _ _ Hfresh Hsteps Hsteps' p t Hp)
    as (t' & Hp' & Hc & Hd).
  exists (_cancelled t), (_completed t), (_cancelled t'), (_completed t').
  split_and!; try done.
  - apply cancelled_eq; eauto.
  - apply completed_eq; eauto.
  - eauto.
  - apply cancelled_eq; eauto.
  - apply completed_eq; eauto.
Qed.

(** C9. In every store a program can reach from fresh tokens,
    [mark_completed] on a completed token and [mark_cancelled] on a cancelled
    token return true again and leave the whole store as it is; and on any
    store, repeating a call that just returned gives the same result and
    changes nothing. *)
Theorem marking_idempotent :
  (forall (w0 w : World) (p : addr) (t : CancelContext),
     fresh_world w0 -> steps w0 w -> tokens w !! p = Some t ->
     (_completed t = true ->
      mark_completed p (tokens w) = Ok true (tokens w)) /\
     (_cancelled t = true ->
      mark_cancelled p (tokens w) = Ok true (tokens w))) /\
  (forall (h : Heap) (p : addr) (h' : Heap),
     mark_completed p h = Ok true h' -> mark_completed p h' = Ok true h') /\
  (forall (h : Heap) (p : addr) (b : bool) (h' : Heap),
     mark_cancelled p h = Ok b h' -> mark_cancelled p h' = Ok b h').
Proof.
  split_and!.
  - intros w0 w p t Hfresh Hsteps Hp.
    pose proof (steps_inv _ _ Hfresh Hsteps) as Hinv.
    pose proof Hinv as (Hfree & Hex & _). split.
    + intros Hd. specialize (Hex p t Hp). rewrite Hd in Hex.
      rewrite (mark_completed_eq p _ t) by eauto.
      destruct (_cancelled t); [done|].
      by rewrite set_completed_same, list_insert_id.
    + intros Hc. by eapply inv_mark_cancelled_again.
  - intros h p h'. apply mark_completed_again.
  - intros h p b h'. apply mark_cancelled_again.
Qed.

(** * Enforcers *)

Lemma lookup_snoc {A} (l : list A) (x : A) : (l ++ [x]) !! length l = Some x.
Proof. by rewrite lookup_app_r, Nat.sub_diag. Qed.

Lemma lift_Ok {A} (m : M Heap A) w a w' :
  lift m w = Ok a w' ->
  exists h', m (tokens w) = Ok a h' /\ w' = with_tokens h' w.
Proof.
  unfold lift. destruct (m (tokens w)) as [a0 h'| | | | |]; try done.
  intros [= <- <-]. eauto.
Qed.

Lemma lift_mark_cancelled_cases p w :
  (exists b h', lift (mark_cancelled p) w = Ok b (with_tokens h' w)) \/
  lift (mark_cancelled p) w = Deadlock \/
  lift (mark_cancelled p) w = BadRef.
Proof.
  unfold lift. pose proof (mark_cancelled_plain p (tokens w)) as Hplain.
  pose proof (mark_cancelled_total p (tokens w)) as Htotal.
  destruct (mark_cancelled p (tokens w)); try done; eauto.
Qed.

Lemma Qle_bool_spec (a b : Q) : Qle_bool a b = true <-> (a <= b)%Q.
Proof. apply Qle_bool_iff. Qed.

(** The fault [cancel_async_at] leaves with. *)
Lemma cancel_async_at_exit_fault deadline scope ctx w e w' :
  cancel_async_at_exit deadline scope ctx w = Raise e w' ->
  (e = TimeoutError <->
   exists d, deadline = Some d /\ (d <= clock w (ticks w))%Q) /\
  (e = TimeoutError \/ e = CancelledError).
Proof.
  unfold cancel_async_at_exit, scope_cancel_called, bind.
  destruct (scopes w !! scope) as [sc|]; [|done].
  destruct (cancel_called sc).
  - destruct (lift_mark_cancelled_cases ctx w)
      as [(b & h' & ->)|[-> | ->]]; [|done..].
    destruct deadline as [d|]; cbv [monotonic raise]; simpl.
    + destruct (Qle_bool d (clock w (ticks w))) eqn:Hle; intros [= <- <-].
      * split; [|by left]. split; [|done]. intros _. exists d.
        split; [done|]. by apply Qle_bool_spec.
      * split; [|by right]. split; [done|]. intros (d' & [= <-] & Hd).
        apply Qle_bool_spec in Hd. congruence.
    + intros [= <- <-]. split; [|by right]. split; [done|].
      by intros (d & ? & _).
  - pose proof (mark_completed_plain ctx (tokens w)) as Hplain.
    unfold lift. destruct (mark_completed ctx (tokens w)); done.
Qed.

(** It does leave with a fault whenever the scope reports that cancellation
    was requested and marking the token comes back. *)
Lemma cancel_async_at_exit_raises deadline scope ctx w sc b h' :
  scopes w !! scope = Some sc -> cancel_called sc = true ->
  mark_cancelled ctx (tokens w) = Ok b h' ->
  exists e w', cancel_async_at_exit deadline scope ctx w = Raise e w' /\
    tokens w' = h'.
Proof.
  intros Hsc Hcalled Hrun.
  unfold cancel_async_at_exit, scope_cancel_called, bind, lift.
  rewrite Hsc, Hcalled, Hrun.
  destruct deadline as [d|]; cbv [monotonic raise]; simpl; eauto.
Qed.

(** The fault the SIGALRM handler of [_alarm_based_timeout] leaves with;
    [now0] is the clock reading [get_deadline] took on entry. *)
Lemma raise_alarm_as_timeout_fault ctx timeout now0 w e w' :
  raise_alarm_as_timeout
    (mkAlarmHandler ctx timeout (option_map (Qplus now0) timeout)) w
  = Raise e w' ->
  (e = TimeoutError <->
   exists d, option_map (Qplus now0) timeout = Some d /\
             (d <= clock w (ticks w))%Q) /\
  (e = TimeoutError \/ e = CancelledError).
Proof.
  unfold raise_alarm_as_timeout, bind. simpl.
  destruct (lift_mark_cancelled_cases ctx w)
    as [(b & h' & ->)|[-> | ->]]; [|done..].
  destruct timeout as [t|]; cbv [monotonic raise]; simpl.
  - destruct (Qle_bool (now0 + t) (clock w (ticks w))) eqn:Hle;
      intros [= <- <-].
    + split; [|by left]. split; [|done]. intros _. exists (now0 + t)%Q.
      split; [done|]. by apply Qle_bool_spec.
    + split; [|by right]. split; [done|]. intros (d' & [= <-] & Hd).
      apply Qle_bool_spec in Hd. congruence.
  - intros [= <- <-]. split; [|by right]. split; [done|].
    by intros (d & ? & _).
Qed.

(** Entering [_alarm_based_timeout] installs exactly such a handler. *)
Lemma alarm_enter_installs timeout w ctx previous w' :
  _alarm_based_timeout_enter timeout w = Ok (ctx, previous) w' ->
  sigalrm w' =
  Some (mkAlarmHandler ctx timeout
          (option_map (Qplus (clock w (ticks w))) timeout)).
Proof.
  unfold _alarm_based_timeout_enter, on_main_thread, bind.
  case_bool_decide; [|done]. simpl.
  destruct timeout as [t|]; simpl.
  - unfold setitimer. simpl. destruct (_ && _); [|done].
    by intros [= <- <- <-].
  - by intros [= <- <- <-].
Qed.

(** C5, as amended.  Whenever the cooperative enforcer on scope exit, or the
    alarm handler, raises its fault, the fault is [TimeoutError] if and only
    if the scope has a deadline and the monotonic clock, read when the fault
    is built, is at or past that deadline; otherwise it is
    [CancelledError]. *)
Theorem fault_classification :
  (forall (w : World) (deadline : option Q) (scope : scope_id) (ctx : addr)
          (e : exn) (w' : World),
     cancel_async_at_exit deadline scope ctx w = Raise e w' ->
     (e = TimeoutError <->
      exists d, deadline = Some d /\ (d <= clock w (ticks w))%Q) /\
     (e = TimeoutError \/ e = CancelledError)) /\
  (forall (w : World) (ctx : addr) (timeout : option Q) (now0 : Q)
          (e : exn) (w' : World),
     raise_alarm_as_timeout
       (mkAlarmHandler ctx timeout (option_map (Qplus now0) timeout)) w
     = Raise e w' ->
     (e = TimeoutError <->
      exists d, option_map (Qplus now0) timeout = Some d /\
                (d <= clock w (ticks w))%Q) /\
     (e = TimeoutError \/ e = CancelledError)).
Proof.
  split.
  - intros. by eapply cancel_async_at_exit_fault.
  - intros. by eapply raise_alarm_as_timeout_fault.
Qed.

(** ** Remaining time *)

(** [cancel_sync_at] computes [max(0, D - now())] for every deadline and
    hands it to [cancel_sync_after]. *)
Lemma cancel_sync_at_enter_timeout deadline w :
  cancel_sync_at_enter deadline w =
  match deadline with
  | Some d =>
      cancel_sync_after_enter (remaining deadline (clock w (ticks w)))
        (with_ticks (S (ticks w)) w)
  | None => cancel_sync_after_enter None w
  end.
Proof. by destruct deadline. Qed.

(** [cancel_async_at] gives its token [max(0, D - now())] when the deadline
    is not zero. *)
Lemma cancel_async_at_enter_timeout d w :
  Qeq_bool d 0 = false ->
  exists scope ctx w' tok,
    cancel_async_at_enter (Some d) w = Ok (scope, ctx) w' /\
    tokens w' !! ctx = Some tok /\
    _timeout tok = remaining (Some d) (clock w (ticks w)).
Proof.
  intros Hd. unfold cancel_async_at_enter, truthy. rewrite Hd. simpl.
  cbv [bind monotonic ret new_scope new_context get_deadline lift alloc].
  simpl. do 4 eexists. split; [reflexivity|]. simpl.
  split; [by rewrite lookup_app_r, Nat.sub_diag|done].
Qed.

(** C6, at the failing input.  For the deadline [0], which is not null,
    [cancel_async_at] builds a token without a timeout (and does not read
    the clock), although it gives its scope the deadline [0]; the remaining
    time of the specification is [max(0, 0 - now())], which is not null. *)
Theorem cancel_async_at_zero_deadline (w : World) :
  exists scope ctx w' tok sc,
    cancel_async_at_enter (Some 0%Q) w = Ok (scope, ctx) w' /\
    tokens w' !! ctx = Some tok /\
    scopes w' !! scope = Some sc /\
    scope_deadline sc = Some 0%Q /\
    _timeout tok = None /\
    ticks w' = ticks w /\
    _timeout tok <> remaining (Some 0%Q) (clock w (ticks w)).
Proof.
  unfold cancel_async_at_enter, truthy. simpl.
  cbv [bind monotonic ret new_scope new_context get_deadline lift alloc].
  simpl. do 5 eexists. split; [reflexivity|]. simpl.
  split_and!; [apply lookup_snoc|apply lookup_snoc|done..].
Qed.

(** ** Thread precondition of the alarm enforcer *)

(** C7. Entered from a thread that is not the main thread, the alarm
    enforcer raises its precondition error at once, for every timeout: the
    process is left as it was, so no handler was installed, no timer armed,
    no token built and the clock not even read. *)
Theorem alarm_off_main_thread (timeout : option Q) (w : World) :
  current_thread w <> main_thread w ->
  _alarm_based_timeout_enter timeout w = Raise ValueError w.
Proof.
  intros Hne. unfold _alarm_based_timeout_enter, on_main_thread, bind.
  by rewrite bool_decide_eq_false_2.
Qed.

(** ** Unbounded scopes *)


Ltac unbounded_tac :=
  first
    [ done
    | apply lookup_snoc
    | by left
    | by right
    | eexists; split_and!; first [apply lookup_snoc|done] ].

(** C8, as amended.  Entered without a timeout or deadline, no enforcer arms
    the interval timer, starts a watcher thread, gives its scope a deadline
    or reads the clock, and the token it yields has neither timeout nor
    deadline; the cooperative, watcher and Windows paths leave the SIGALRM
    handler alone, while the alarm enforcer installs its handler all the
    same. *)
Theorem unbounded_scope_resources (w : World) :
  (exists scope ctx w',
     cancel_async_at_enter None w = Ok (scope, ctx) w' /\
     cancel_async_after_enter None w = Ok (None, (scope, ctx)) w' /\
     scopes w' !! scope = Some (mkScope None false) /\
     unbounded_token w' ctx /\
     itimer w' = itimer w /\ watchers w' = watchers w /\
     sigalrm w' = sigalrm w /\ ticks w' = ticks w) /\
  (exists ev ctx w',
     _watcher_thread_based_timeout_enter None w = Ok (ev, ctx) w' /\
     unbounded_token w' ctx /\
     itimer w' = itimer w /\ watchers w' = watchers w /\
     sigalrm w' = sigalrm w /\ ticks w' = ticks w) /\
  (current_thread w = main_thread w ->
   exists ctx w',
     _alarm_based_timeout_enter None w = Ok (ctx, None) w' /\
     unbounded_token w' ctx /\
     itimer w' = itimer w /\ watchers w' = watchers w /\
     sigalrm w' = Some (mkAlarmHandler ctx None None) /\
     ticks w' = ticks w) /\
  (exists f w',
     cancel_sync_at_enter None w = Ok f w' /\
     cancel_sync_after_enter None w = Ok f w' /\
     unbounded_token w' (frame_ctx f) /\
     itimer w' = itimer w /\ watchers w' = watchers w /\
     ticks w' = ticks w /\
     (sigalrm w' = sigalrm w \/
      (win32 w = false /\ current_thread w = main_thread w /\
       sigalrm w' = Some (mkAlarmHandler (frame_ctx f) None None)))).
Proof.
  split_and!.
  - do 3 eexists. split; [reflexivity|]. split; [reflexivity|]. simpl.
    split_and!; unbounded_tac.
  - do 3 eexists. split; [reflexivity|]. simpl. split_and!; unbounded_tac.
  - intros Hmain. do 2 eexists.
    unfold _alarm_based_timeout_enter, on_main_thread, bind.
    rewrite bool_decide_eq_true_2 by done. simpl.
    split; [reflexivity|]. simpl. split_and!; unbounded_tac.
  - unfold cancel_sync_at_enter, cancel_sync_after_enter,
      _alarm_based_timeout_enter, on_main_thread, bind. simpl.
    destruct (win32 w) eqn:Hwin;
      [|destruct (decide (current_thread w = main_thread w)) as [Hmain|Hmain];
        [rewrite !bool_decide_eq_true_2 by done
        |rewrite !bool_decide_eq_false_2 by done]; simpl];
      do 2 eexists; (split; [reflexivity|]); (split; [reflexivity|]); simpl;
      split_and!; unbounded_tac.
Qed.

(** * The theorems at concrete inputs

    Each theorem above that has hypotheses is applied here to a concrete
    store or process on which the hypotheses hold by computation. *)

Lemma fresh_world_two_tokens : fresh_world world_two_tokens.
Proof. repeat apply Forall_cons_2; [done..|apply Forall_nil_2]. Qed.

Lemma steps_world_cancelled : steps world_two_tokens world_cancelled.
Proof.
  eapply rtc_l; [by apply (step_return _ _ (OpChain 0 1))|].
  eapply rtc_l; [by apply (step_return _ _ (OpMarkCancelled 0))|].
  apply rtc_refl.
Qed.

Lemma steps_world_cancelled_later : steps world_cancelled world_cancelled_later.
Proof. apply rtc_once. by apply (step_return _ _ (OpMarkCompleted 1)). Qed.

Lemma terminal_exclusivity_witness :
  exists c d c' d',
    cancelled 1 (tokens world_cancelled) = Ok c (tokens world_cancelled) /\
    completed 1 (tokens world_cancelled) = Ok d (tokens world_cancelled) /\
    c && d = false /\
    cancelled 1 (tokens world_cancelled_later)
    = Ok c' (tokens world_cancelled_later) /\
    completed 1 (tokens world_cancelled_later)
    = Ok d' (tokens world_cancelled_later) /\
    (c = true -> c' = true) /\ (d = true -> d' = true).
Proof.
  apply (terminal_exclusivity world_two_tokens world_cancelled
           world_cancelled_later 1 (set_cancelled tok_fresh)).
  - apply fresh_world_two_tokens.
  - apply steps_world_cancelled.
  - apply steps_world_cancelled_later.
  - reflexivity.
Defined.

Lemma mark_cancelled_spec_witness :
  (exists h',
     mark_cancelled 0 family = Ok true h' /\
     is_cancelled h' 1 = true /\ is_cancelled h' 2 = true) /\
  (exists h',
     (chain 0 1 >> chain 0 2 >> mark_cancelled 0 >>
      let* c1 := cancelled 1 in
      let* c2 := cancelled 2 in
      ret (c1, c2)) three_fresh = Ok (true, true) h').
Proof.
  split.
  - destruct (proj1 mark_cancelled_spec family 0 tok_parent rank_by_address)
      as [_ Hlive]; [reflexivity|by apply all_unlocked_free|].
    destruct Hlive as (h' & Hrun & _ & _ & _ & _ & Hkids);
      [reflexivity|by apply acyclic_by_ranked|].
    exists h'. split; [exact Hrun|].
    split; [apply (Hkids 1 tok_fresh)|apply (Hkids 2 tok_fresh)];
      first [reflexivity|by repeat constructor].
  - apply (proj2 mark_cancelled_spec three_fresh 0 1 2
             tok_fresh tok_fresh tok_fresh);
      first [by apply all_unlocked_free|reflexivity|done|lia].
Defined.

Lemma mark_completed_spec_witness :
  exists h' t',
    mark_completed 0 three_fresh = Ok true h' /\
    h' = <[0 := set_completed tok_fresh]> three_fresh /\
    h' !! 0 = Some t' /\
    _completed t' = true /\ _cancelled t' = false /\
    _chained t' = _chained tok_fresh /\
    completed 0 h' = Ok true h' /\ cancelled 0 h' = Ok false h'.
Proof.
  exact (proj1 (proj2 (mark_completed_spec three_fresh 0 tok_fresh
                         eq_refl eq_refl)) eq_refl).
Defined.


Lemma cascade_skips_completed_child_witness :
  exists h',
    mark_cancelled 0 family_done = Ok true h' /\
    cancelled 0 h' = Ok true h' /\
    h' !! 1 = Some (set_completed tok_fresh) /\
    completed 1 h' = Ok true h' /\
    cancelled 1 h' = Ok false h' /\
    (forall c' tc', c' ∈ [1; 2] -> family_done !! c' = Some tc' ->
                    _completed tc' = false -> is_cancelled h' c' = true).
Proof.
  apply (cascade_skips_completed_child family_done 0 1 tok_parent
           (set_completed tok_fresh) rank_by_address);
    first [reflexivity|by repeat constructor|by apply all_unlocked_free
          |by apply acyclic_by_ranked].
Defined.

Lemma marking_idempotent_witness :
  mark_cancelled 1 (tokens world_cancelled) = Ok true (tokens world_cancelled).
Proof.
  exact (proj2 (proj1 marking_idempotent world_two_tokens world_cancelled 1
                  (set_cancelled tok_fresh) fresh_world_two_tokens
                  steps_world_cancelled eq_refl) eq_refl).
Defined.

Lemma fault_classification_witness :
  (TimeoutError = TimeoutError <->
   exists d, Some 5%Q = Some d /\
     (d <= clock world_at_deadline (ticks world_at_deadline))%Q) /\
  (TimeoutError = TimeoutError \/ TimeoutError = CancelledError).
Proof.
  eapply (proj1 fault_classification world_at_deadline (Some 5%Q) 0 0
            TimeoutError).
  reflexivity.
Defined.

Lemma alarm_off_main_thread_witness :
  _alarm_based_timeout_enter (Some 1%Q) world_worker
  = Raise ValueError world_worker.
Proof. apply alarm_off_main_thread. simpl. lia. Defined.

Lemma unbounded_scope_resources_witness :
  exists ctx w',
    _alarm_based_timeout_enter None world_main = Ok (ctx, None) w' /\
    unbounded_token w' ctx /\
    itimer w' = itimer world_main /\ watchers w' = watchers world_main /\
    sigalrm w' = Some (mkAlarmHandler ctx None None) /\
    ticks w' = ticks world_main.
Proof.
  exact (proj1 (proj2 (proj2 (unbounded_scope_resources world_main))) eq_refl).
Defined.

(** * Where the specification and the code part *)

(** C5, as stated, fails: left at the instant the clock equals the deadline,
    the cooperative enforcer raises [TimeoutError] although the deadline has
    not strictly passed. *)
Lemma timeout_at_deadline_not_strict :
  exists w',
    cancel_async_at_exit (Some 5%Q) 0 0 world_at_deadline
    = Raise TimeoutError w' /\
    ~ (5 < clock world_at_deadline (ticks world_at_deadline))%Q.
Proof. eexists. split; [reflexivity|]. simpl. apply Qlt_irrefl. Qed.

(** C8, as stated, fails: with a null timeout the alarm enforcer still
    registers its process-wide SIGALRM handler. *)
Lemma unbounded_alarm_registers_handler :
  exists ctx w',
    _alarm_based_timeout_enter None world_main = Ok (ctx, None) w' /\
    sigalrm world_main = None /\
    sigalrm w' = Some (mkAlarmHandler ctx None None).
Proof. do 2 eexists. split; [reflexivity|]. split; reflexivity. Qed.

(** C2, as stated, fails: [a.chain(a)] on a fresh token returns and leaves
    a token that has not completed, on which [a.mark_cancelled()] does not
    return true: it blocks on the lock it holds itself. *)
Lemma mark_cancelled_cyclic_blocks :
  chain 0 0 [tok_fresh] = Ok tt self_chained /\
  (exists t, self_chained !! 0 = Some t /\ _completed t = false) /\
  mark_cancelled 0 self_chained = Deadlock.
Proof. split; [reflexivity|]. split; [by eexists|reflexivity]. Qed.


(** C10, as stated, fails: with a completed child chained to it, a parent
    that is also chained to itself blocks for ever, and a parent that has
    itself completed returns false and is not cancelled. *)
Lemma cascade_completed_child_fails :
  mark_cancelled 0
    [mkCancelContext None None false [1; 2; 0] false false CancelNoop;
     set_completed tok_fresh; tok_fresh]
  = Deadlock /\
  mark_cancelled 0 [set_completed tok_parent; set_completed tok_fresh; tok_fresh]
  = Ok false [set_completed tok_parent; set_completed tok_fresh; tok_fresh] /\
  cancelled 0 [set_completed tok_parent; set_completed tok_fresh; tok_fresh]
  = Ok false [set_completed tok_parent; set_completed tok_fresh; tok_fresh].
Proof. split; [reflexivity|]. split; reflexivity. Qed.

(** * Further properties of the tokens *)

(** ** Cascades that come back *)

Lemma first_from_least P start k m :
  start <= m < start + k -> P m = true ->
  first_from P start k <= m /\ P (first_from P start k) = true.
Proof.
  revert start. induction k as [|k IH]; intros start Hm HP; simpl; [lia|].
  destruct (P start) eqn:Hs; [split; [lia|done]|].
  destruct (decide (m = start)) as [->|Hne]; [congruence|].
  apply IH; [lia|done].
Qed.

Lemma comes_back_Ok g a n :
  comes_back g a n = true <-> exists b g', mark_cancelled_aux n a g = Ok b g'.
Proof.
  unfold comes_back. destruct (mark_cancelled_aux n a g) eqn:Hrun;
    split; try done; eauto; by intros (? & ? & ?).
Qed.

(** The budget a run needs never exceeds the number of tokens by more than
    one. *)
Lemma mark_cancelled_aux_cap n p h b h' :
  mark_cancelled_aux n p h = Ok b h' ->
  mark_cancelled_aux (S (length h)) p h = Ok b h'.
Proof.
  intros Hrun. destruct (decide (n <= S (length h))) as [Hle|Hgt].
  - rewrite (mark_cancelled_aux_fuel_le n); [done|done|congruence].
  - rewrite <- Hrun. symmetry. apply mark_cancelled_aux_fuel_le; [lia|].
    apply mark_cancelled_aux_enough. pose proof (free_locks_le h). lia.
Qed.

(** A run with the least budget. *)
Lemma depth_run g a n b :
  mark_cancelled_aux n a g = Ok b g ->
  depth g a <= n /\ mark_cancelled_aux (depth g a) a g = Ok b g.
Proof.
  intros Hrun. unfold depth.
  destruct (decide (n <= S (length g))) as [Hle|Hgt].
  - destruct (first_from_least (comes_back g a) 0 (S (S (length g))) n)
      as [Hd Hback]; [lia|apply comes_back_Ok; eauto|].
    split; [done|]. apply comes_back_Ok in Hback as (b' & g' & Hrun').
    rewrite <- Hrun. symmetry.
    apply mark_cancelled_aux_fuel_le; [done|congruence].
  - pose proof (mark_cancelled_aux_cap _ _ _ _ _ Hrun) as Hcap.
    destruct (first_from_least (comes_back g a) 0 (S (S (length g)))
                (S (length g)))
      as [Hd Hback]; [lia|apply comes_back_Ok; eauto|].
    split; [lia|]. apply comes_back_Ok in Hback as (b' & g' & Hrun').
    rewrite <- Hcap. symmetry.
    apply mark_cancelled_aux_fuel_le; [done|congruence].
Qed.

(** A run that comes back has been through every token it reaches, and a
    second run from any of them comes back too. *)
Lemma mark_cancelled_aux_visits h p a :
  reach h p a ->
  forall n h0 b h', Forall2 same_skeleton h h0 ->
    mark_cancelled_aux n p h0 = Ok b h' ->
    exists ba, mark_cancelled_aux n a h' = Ok ba h'.
Proof.
  induction 1 as [p t Hp Hc|p t c a Hp Hc Hin Hr IH];
    intros n h0 b h' Hsk Hrun.
  - exists b. by eapply mark_cancelled_aux_again.
  - destruct n as [|n]; [done|].
    destruct (hrel_lookup _ _ _ _ _ Hsk Hp) as (t0 & Hp0 & Hsk0).
    apply same_skeleton_fields in Hsk0 as (Hc0 & Hch0 & _).
    apply mark_cancelled_aux_inv in Hrun
      as (t1 & Hp1 & Hl & [(Hc1 & _)|(_ & -> & h2 & Hloop & Hp2 & ->)]);
      [congruence|].
    rewrite Hp0 in Hp1. injection Hp1 as <-. rewrite Hch0 in Hloop.
    destruct (for_each_child_elem _ _ _ _ _ Hloop Hin)
      as (s & bc & s' & Hadv & Hrunc & Hadv').
    destruct (IH n s bc s') as (ba & Hruna); [|done|].
    { eapply hrel_trans; [apply same_skeleton_trans|done|].
      eapply hrel_trans; [apply same_skeleton_trans| |].
      - by apply skeleton_lock_cancel.
      - by apply hadv_skeleton. }
    assert (Hrel : Forall2 relax s' (<[p := set_cancelled t0]> h2)).
    { eapply hrel_trans; [apply relax_trans| |].
      - eapply hrel_impl; [apply adv_relax|done].
      - eapply hrel_insert_r; [apply relax_refl|done|]. clear -Hl. tok_solve. }
    exists ba. rewrite mark_cancelled_aux_S_fuel.
    + by eapply mark_cancelled_aux_fixed_relax.
    + by erewrite mark_cancelled_aux_fixed_relax.
Qed.

(** The depth of the cascade in the store a run leaves behind is a rank for
    the chain below the token the run started from. *)
Lemma mark_cancelled_aux_ranked n p h b h' :
  mark_cancelled_aux n p h = Ok b h' -> ranked (depth h') h p.
Proof.
  intros Hrun a t c Hr Ha Hin.
  pose proof (mark_cancelled_aux_adv _ _ _ _ _ Hrun) as Hadv.
  destruct (mark_cancelled_aux_visits h p a Hr n h b h') as (ba & Hruna);
    [apply hrel_refl, same_skeleton_refl|done|].
  destruct (depth_run _ _ _ _ Hruna) as [_ Hmin].
  destruct (depth h' a) as [|m] eqn:Hd; [done|].
  apply mark_cancelled_aux_fixed_inv in Hmin as (t' & Ha' & Hl' & _ & Hlive).
  destruct (hrel_lookup _ _ _ _ _ Hadv Ha) as (t2 & Ha2 & Hadv2).
  rewrite Ha' in Ha2. injection Ha2 as <-.
  apply adv_fields in Hadv2 as (Hc' & Hch' & _).
  destruct (reach_live _ _ _ Hr) as (t0 & Ha0 & Hc0).
  rewrite Ha in Ha0. injection Ha0 as <-.
  destruct Hlive as [_ Hkids]; [congruence|].
  destruct (Hkids c) as (bc & Hrunc); [by rewrite Hch'|].
  assert (Hrunc' : mark_cancelled_aux m c h' = Ok bc h').
  { apply (mark_cancelled_aux_unlock _ _ _ _ _ a (set_lock true t')) in Hrunc;
      [|by apply list_lookup_insert_eq; eapply lookup_lt_Some|done].
    rewrite list_insert_insert_eq, set_lock_twice in Hrunc.
    rewrite (set_lock_same t' false Hl'), list_insert_id in Hrunc; done. }
  destruct m as [|m']; [done|].
  pose proof Hrunc' as Hrunc2.
  apply mark_cancelled_aux_fixed_inv in Hrunc2 as (tc' & Hc2 & _ & _ & _).
  destruct (hrel_lookup_r _ _ _ _ _ Hadv Hc2) as (tc & Hctc & Hadvc).
  exists tc. split; [done|]. intros _.
  destruct (depth_run _ _ _ _ Hrunc') as [Hle _]. lia.
Qed.

Lemma mark_cancelled_ranked p h b h' :
  mark_cancelled p h = Ok b h' -> exists rk, ranked rk h p.
Proof. intros Hrun. eexists. by eapply mark_cancelled_aux_ranked. Qed.

(** ** Stores without dangling chains *)

Lemma closed_skeleton h h' :
  Forall2 same_skeleton h h' -> closed h -> closed h'.
Proof.
  intros Hsk Hcl a t' c Ha Hin.
  destruct (hrel_lookup_r _ _ _ _ _ Hsk Ha) as (t & Ha0 & Hf).
  apply same_skeleton_fields in Hf as (_ & Hch & _). rewrite Hch in Hin.
  destruct (Hcl a t c Ha0 Hin) as [tc Hc].
  destruct (hrel_lookup _ _ _ _ _ Hsk Hc) as (tc' & -> & _). by eexists.
Qed.

Lemma for_each_child_closed n l h :
  (forall c s, closed s -> is_Some (s !! c) ->
     mark_cancelled_aux n c s <> BadRef) ->
  closed h -> (forall c, c ∈ l -> is_Some (h !! c)) ->
  for_each l (child_call n) h <> BadRef.
Proof.
  intros Hn. revert h. induction l as [|c l IH]; intros h Hcl Hl; [done|].
  rewrite for_each_cons. unfold child_call at 1, bind.
  pose proof (Hn c h Hcl (Hl c ltac:(by left))) as Hc.
  pose proof (mark_cancelled_aux_plain n c h) as Hplain.
  destruct (mark_cancelled_aux n c h) as [b s| | | | |] eqn:Hrun; try done.
  simpl. apply mark_cancelled_aux_adv in Hrun.
  apply IH.
  - eapply closed_skeleton; [by apply hadv_skeleton|done].
  - intros c' Hin. destruct (Hl c' ltac:(by right)) as [tc Hc'].
    destruct (hrel_lookup _ _ _ _ _ Hrun Hc') as (tc' & -> & _). by eexists.
Qed.

(** In such a store a cascade never runs into a missing token. *)
Lemma mark_cancelled_aux_closed n p h :
  closed h -> is_Some (h !! p) -> mark_cancelled_aux n p h <> BadRef.
Proof.
  revert p h. induction n as [|n IH]; intros p h Hcl [t Hp]; [done|].
  rewrite mark_cancelled_aux_S, Hp.
  destruct (_lock t); [done|]. destruct (_completed t); [done|].
  set (h1 := <[p := set_lock true (set_cancelled t)]> h).
  assert (Hsk : Forall2 same_skeleton h h1) by (by apply skeleton_lock_cancel).
  assert (Hloop : for_each (_chained t) (child_call n) h1 <> BadRef).
  { apply for_each_child_closed; [done|by eapply closed_skeleton|].
    intros c Hin. destruct (Hcl p t c Hp Hin) as [tc Hc].
    destruct (hrel_lookup _ _ _ _ _ Hsk Hc) as (tc' & -> & _). by eexists. }
  pose proof (for_each_plain (child_call n) (_chained t) h1) as Hplain.
  destruct (for_each (_chained t) (child_call n) h1) as [[] h2| | | | |]
    eqn:Hrun; try done.
  - apply for_each_child_adv in Hrun.
    assert (Hp1 : h1 !! p = Some (set_lock true (set_cancelled t))).
    { apply list_lookup_insert_eq. by eapply lookup_lt_Some. }
    by destruct (hrel_lookup _ _ _ _ _ Hrun Hp1) as (t2 & -> & _).
  - exfalso. apply Hplain. intros x s0. unfold child_call, bind.
    pose proof (mark_cancelled_aux_plain n x s0).
    by destruct (mark_cancelled_aux n x s0).
Qed.

(** X1.  With no lock held, [mark_cancelled] comes back exactly when the
    chain below the token is acyclic (and its chained addresses allocated):
    the precondition under which it is shown to return is also necessary. *)
Theorem mark_cancelled_returns_iff_acyclic (h : Heap) (p : addr) :
  locks_free h -> is_Some (h !! p) ->
  (exists b h', mark_cancelled p h = Ok b h') <-> (exists rk, ranked rk h p).
Proof.
  intros Hfree Hp. split.
  - intros (b & h' & Hrun). by eapply mark_cancelled_ranked.
  - intros [rk Hrk]. by eapply mark_cancelled_returns.
Qed.

(** X2.  In a store without dangling chains and with no lock held,
    [mark_cancelled] either returns or blocks for ever: blocking is the only
    way it fails.  It blocks exactly when the chain below the token has a
    cycle through tokens that have not completed. *)
Theorem mark_cancelled_blocks_iff_cyclic (h : Heap) (p : addr) :
  closed h -> locks_free h -> is_Some (h !! p) ->
  ((exists b h', mark_cancelled p h = Ok b h') \/
   mark_cancelled p h = Deadlock) /\
  ((exists b h', mark_cancelled p h = Ok b h') <->
   exists rk, ranked rk h p) /\
  (mark_cancelled p h = Deadlock <-> ~ exists rk, ranked rk h p).
Proof.
  intros Hcl Hfree Hp.
  assert (Hcases : (exists b h', mark_cancelled p h = Ok b h') \/
                   mark_cancelled p h = Deadlock).
  { pose proof (mark_cancelled_plain p h) as Hplain.
    pose proof (mark_cancelled_total p h) as Htotal.
    pose proof (mark_cancelled_aux_closed (S (length h)) p h Hcl Hp) as Href.
    fold (mark_cancelled p h) in Href.
    destruct (mark_cancelled p h) as [b h'| | | | |] eqn:Hrun; try done;
      eauto. }
  split; [done|]. split.
  - split.
    + intros (b & h' & Hrun). by eapply mark_cancelled_ranked.
    + intros [rk Hrk]. by eapply mark_cancelled_returns.
  - split.
    + intros Hrun [rk Hrk].
      destruct (mark_cancelled_returns rk p h) as (b & h' & Hok); [done..|].
      congruence.
    + intros Hcyc. destruct Hcases as [(b & h' & Hrun)|Hblock]; [|done].
      exfalso. apply Hcyc. by eapply mark_cancelled_ranked.
Qed.

(** X3.  [chain] on a parent that is already cancelled runs the child's
    [mark_cancelled] while it holds the parent's lock.  If the cascade from
    the child leads back to the parent (the child is the parent itself, or
    the parent is chained below it), the call blocks for ever. *)
Theorem chain_into_cancelled_ancestor_blocks (h : Heap) (p c : addr)
  (t : CancelContext) :
  closed h -> locks_free h -> h !! p = Some t -> _cancelled t = true ->
  reach h c p -> chain p c h = Deadlock.
Proof.
  intros Hcl Hfree Hp Hgone Hr.
  rewrite (chain_eq p c h t) by eauto. rewrite Hgone.
  set (h1 := <[p := set_lock true t]> h).
  assert (Hsk : Forall2 same_skeleton h h1).
  { eapply hrel_insert_r; [apply same_skeleton_refl|done|]. clear. tok_solve. }
  assert (Hp1 : h1 !! p = Some (set_lock true t)).
  { apply list_lookup_insert_eq. by eapply lookup_lt_Some. }
  assert (Hc1 : is_Some (h1 !! c)).
  { assert (Hc : is_Some (h !! c)) by (inversion Hr; by eexists).
    destruct Hc as [tc Hc].
    destruct (hrel_lookup _ _ _ _ _ Hsk Hc) as (tc' & -> & _). by eexists. }
  pose proof (mark_cancelled_plain c h1) as Hplain.
  pose proof (mark_cancelled_total c h1) as Htotal.
  pose proof (mark_cancelled_aux_closed (S (length h1)) c h1
                (closed_skeleton _ _ Hsk Hcl) Hc1) as Href.
  fold (mark_cancelled c h1) in Href.
  destruct (mark_cancelled c h1) as [b h2| | | | |] eqn:Hrun; try done.
  exfalso.
  destruct (mark_cancelled_aux_visits h c p Hr (S (length h1)) h1 b h2 Hsk Hrun)
    as (ba & Hagain).
  pose proof (mark_cancelled_aux_locked _ _ _ _ _ p (set_lock true t)
                Hrun Hp1 eq_refl) as Hp2.
  by rewrite mark_cancelled_aux_S, Hp2 in Hagain.
Qed.

(** X4.  [chain] looks at the parent's cancelled flag only.  A child
    chained to a parent that has completed is registered, but the parent
    refuses to be cancelled from then on, so it never cascades to that
    child. *)
Theorem chain_to_completed_parent (h : Heap) (p c : addr)
  (t : CancelContext) :
  h !! p = Some t -> _lock t = false ->
  _completed t = true -> _cancelled t = false ->
  (chain p c >> mark_cancelled p) h
  = Ok false (<[p := append_chained c t]> h).
Proof.
  intros Hp Hl Hdone Hlive. unfold bind.
  rewrite (chain_eq p c h t), Hlive by done.
  apply (mark_cancelled_done p _ (append_chained c t)); [|done..].
  apply list_lookup_insert_eq. by eapply lookup_lt_Some.
Qed.

(** ** What programs keep *)

Lemma keeps_refl t : keeps t t.
Proof. by repeat split. Qed.

Lemma keeps_trans t1 t2 t3 : keeps t1 t2 -> keeps t2 t3 -> keeps t1 t3.
Proof.
  intros (? & ? & ? & ?) (? & ? & ? & ?).
  repeat split; try congruence. by etrans.
Qed.

Lemma adv_keeps t t' : adv t t' -> keeps t t'.
Proof.
  intros Hadv. apply adv_fields in Hadv as (_ & Hch & _ & ? & ? & ? & _).
  repeat split; try done. by rewrite Hch.
Qed.

Lemma locks_free_insert h p t' :
  locks_free h -> _lock t' = false -> locks_free (<[p := t']> h).
Proof.
  intros Hfree Hl a t Ha.
  apply list_lookup_insert_Some in Ha as [(_ & <- & _)|[_ Ha]]; eauto.
Qed.

Lemma lookup_insert_keeps (h : Heap) p t0 t' a t :
  h !! p = Some t0 -> keeps t0 t' -> h !! a = Some t ->
  exists t2, <[p := t']> h !! a = Some t2 /\ keeps t t2.
Proof.
  intros Hp Hk Ha. destruct (decide (a = p)) as [->|Hne].
  - rewrite Hp in Ha. injection Ha as <-. exists t'.
    split; [|done]. apply list_lookup_insert_eq. by eapply lookup_lt_Some.
  - exists t. split; [|apply keeps_refl]. by rewrite list_lookup_insert_ne.
Qed.

Lemma hstep_keeps h h' :
  locks_free h -> hstep h h' ->
  locks_free h' /\
  forall a t, h !! a = Some t -> exists t', h' !! a = Some t' /\ keeps t t'.
Proof.
  intros Hfree [t Hfresh|p b h1 Hrun|p b h1 Hrun|p c h1 Hrun].
  - split.
    + intros a ta Ha. apply lookup_app_Some in Ha as [Ha|[_ Ha]]; [eauto|].
      apply list_lookup_singleton_Some in Ha as [_ <-]. apply Hfresh.
    + intros a ta Ha. exists ta. split; [|apply keeps_refl].
      by apply lookup_app_l_Some.
  - apply mark_cancelled_adv in Hrun. split; [by eapply locks_free_adv|].
    intros a ta Ha. destruct (hrel_lookup _ _ _ _ _ Hrun Ha) as (t' & ? & ?).
    exists t'. split; [done|by apply adv_keeps].
  - apply mark_completed_inv in Hrun
      as (t & Hp & [(_ & _ & ->)|(_ & _ & ->)]); [| |done].
    + split; [done|]. intros a ta Ha. exists ta. split; [done|apply keeps_refl].
    + split; [apply locks_free_insert; [done|by apply (Hfree p t)]|].
      intros a ta Ha. eapply lookup_insert_keeps; [done| |done].
      by repeat split.
  - apply chain_inv in Hrun
      as (t & Hp & [(_ & b & Hrun)|(_ & ->)]); [| |done].
    + apply mark_cancelled_adv in Hrun. split; [by eapply locks_free_adv|].
      intros a ta Ha. destruct (hrel_lookup _ _ _ _ _ Hrun Ha) as (t' & ? & ?).
      exists t'. split; [done|by apply adv_keeps].
    + split; [apply locks_free_insert; [done|by apply (Hfree p t)]|].
      intros a ta Ha. eapply lookup_insert_keeps; [done| |done].
      repeat split; try done. simpl. by apply prefix_app_r.
Qed.

Lemma hsteps_keeps h h' :
  locks_free h -> rtc hstep h h' ->
  locks_free h' /\
  forall a t, h !! a = Some t -> exists t', h' !! a = Some t' /\ keeps t t'.
Proof.
  intros Hfree Hsteps. induction Hsteps as [h|h1 h2 h3 Hstep _ IH].
  - split; [done|]. intros a t Ha. exists t. split; [done|apply keeps_refl].
  - destruct (hstep_keeps _ _ Hfree Hstep) as [Hfree2 Hk2].
    destruct (IH Hfree2) as [Hfree3 Hk3]. split; [done|].
    intros a t Ha. destruct (Hk2 a t Ha) as (t2 & Ha2 & Hk).
    destruct (Hk3 a t2 Ha2) as (t3 & Ha3 & Hk'). exists t3.
    split; [done|by eapply keeps_trans].
Qed.

(** X5.  Whatever a program does, a token keeps the timeout, the deadline
    and the cancel callback it was built with, and the children chained to
    it stay chained, in the order in which they were added. *)
Theorem token_fields_frozen (w w' : World) (p : addr) (t : CancelContext) :
  locks_free (tokens w) -> steps w w' -> tokens w !! p = Some t ->
  exists t', tokens w' !! p = Some t' /\
    _timeout t' = _timeout t /\ _deadline t' = _deadline t /\
    _cancel t' = _cancel t /\ _chained t `prefix_of` _chained t'.
Proof.
  intros Hfree Hsteps Hp.
  destruct (hsteps_keeps _ _ Hfree (steps_hsteps _ _ Hsteps)) as [_ Hk].
  destruct (Hk p t Hp) as (t' & Hp' & Hkeeps). by exists t'.
Qed.

(** X6.  Every call into the module that comes back, whether it returns or
    raises, has released the token locks it took: if no lock is held before
    a program, none is held after it. *)
Theorem locks_released (w w' : World) :
  locks_free (tokens w) -> steps w w' -> locks_free (tokens w').
Proof.
  intros Hfree Hsteps.
  by destruct (hsteps_keeps _ _ Hfree (steps_hsteps _ _ Hsteps)).
Qed.

(** ** The process around the tokens *)

Lemma evolves_refl w : evolves w w.
Proof. repeat split; try done; eauto. Qed.

Lemma evolves_trans w1 w2 w3 : evolves w1 w2 -> evolves w2 w3 -> evolves w1 w3.
Proof.
  intros (He & Hs) (He' & Hs'). split.
  - intros e b Hb. destruct (He e b Hb) as (b2 & Hb2 & Hi).
    destruct (He' e b2 Hb2) as (b3 & Hb3 & Hi'). exists b3. auto.
  - intros s sc Hsc. destruct (Hs s sc Hsc) as (sc2 & Hsc2 & Hd & Hi).
    destruct (Hs' s sc2 Hsc2) as (sc3 & Hsc3 & Hd' & Hi'). exists sc3.
    split; [done|]. split; [congruence|auto].
Qed.

Lemma with_tokens_same w : with_tokens (tokens w) w = w.
Proof. by destruct w. Qed.

Lemma steady_ret {A} (a : A) : steady (ret a).
Proof. intros w. apply evolves_refl. Qed.

Lemma steady_raise {A} e : steady (@raise World A e).
Proof. intros w. apply evolves_refl. Qed.

Lemma steady_bind {A B} (m : M World A) (k : A -> M World B) :
  steady m -> (forall a, steady (k a)) -> steady (bind m k).
Proof.
  intros Hm Hk w. unfold bind. specialize (Hm w).
  destruct (m w) as [a w1|e w1| | | |]; try done.
  specialize (Hk a w1). destruct (k a w1); try done; by eapply evolves_trans.
Qed.

Lemma steady_lift {A} (m : M Heap A) : steady (lift m).
Proof.
  intros w. unfold lift.
  destruct (m (tokens w)); try done; repeat split; simpl; eauto.
Qed.

Lemma steady_monotonic : steady monotonic.
Proof. intros w. repeat split; simpl; eauto. Qed.

Lemma steady_scope_cancel s : steady (scope_cancel s).
Proof.
  intros w. unfold scope_cancel. destruct (scopes w !! s) as [sc|] eqn:Hs; [|done].
  repeat split; simpl; eauto.
  intros s' sc' Hs'. destruct (decide (s' = s)) as [->|Hne].
  - rewrite Hs in Hs'. injection Hs' as <-. eexists. split;
      [apply list_lookup_insert_eq; by eapply lookup_lt_Some|done].
  - exists sc'. by rewrite list_lookup_insert_ne.
Qed.

Lemma steady_scope_cancel_called s : steady (scope_cancel_called s).
Proof.
  intros w. unfold scope_cancel_called. destruct (scopes w !! s); [|done].
  apply evolves_refl.
Qed.

Lemma steady_send th e : steady (_send_exception_to_thread th e).
Proof.
  intros w. unfold _send_exception_to_thread. case_bool_decide.
  - repeat split; simpl; eauto.
  - apply evolves_refl.
Qed.

Lemma steady_new_scope d : steady (new_scope d).
Proof.
  intros w. repeat split; simpl; eauto.
  intros s sc Hs. exists sc. split; [by apply lookup_app_l_Some|done].
Qed.

Lemma steady_signal_sigalrm cl : steady (signal_sigalrm cl).
Proof. intros w. repeat split; simpl; eauto. Qed.

Lemma steady_setitimer s i : steady (setitimer s i).
Proof.
  intros w. unfold setitimer. destruct (_ && _); [|apply evolves_refl].
  repeat split; simpl; eauto.
Qed.

Lemma steady_on_main_thread : steady on_main_thread.
Proof. intros w. apply evolves_refl. Qed.

Lemma steady_new_event : steady new_event.
Proof.
  intros w. repeat split; simpl; eauto.
  intros e b He. exists b. split; [by apply lookup_app_l_Some|done].
Qed.

Lemma steady_event_set e : steady (event_set e).
Proof.
  intros w. unfold event_set. destruct (events w !! e) as [b|] eqn:He; [|done].
  repeat split; simpl; eauto.
  intros e' b' He'. destruct (decide (e' = e)) as [->|Hne].
  - exists true. split;
      [apply list_lookup_insert_eq; by eapply lookup_lt_Some|done].
  - exists b'. by rewrite list_lookup_insert_ne.
Qed.

Lemma steady_event_is_set e : steady (event_is_set e).
Proof.
  intros w. unfold event_is_set. destruct (events w !! e); [|done].
  apply evolves_refl.
Qed.

Lemma steady_start_watcher wt : steady (start_watcher wt).
Proof. intros w. repeat split; simpl; eauto. Qed.

Lemma steady_schedule current live : steady (schedule current live).
Proof. intros w. repeat split; simpl; eauto. Qed.

Lemma steady_read {A} (f : World -> A) : steady (fun w => Ok (f w) w).
Proof. intros w. apply evolves_refl. Qed.

Create HintDb steady discriminated.
#[local] Hint Resolve steady_ret steady_raise steady_lift steady_monotonic
  steady_scope_cancel steady_scope_cancel_called steady_send steady_new_scope
  steady_signal_sigalrm steady_setitimer steady_on_main_thread
  steady_new_event steady_event_set steady_event_is_set steady_start_watcher
  steady_schedule steady_read : steady.

Ltac steady_step :=
  first
    [ apply steady_bind; [|intros ?]
    | solve [auto with steady]
    | match goal with
      | |- steady (if ?b then _ else _) => destruct b
      | |- steady (match ?x with _ => _ end) => destruct x
      end ].

Ltac steady_tac := repeat steady_step.

Lemma steady_raise_sigalrm : steady raise_sigalrm.
Proof.
  intros w. unfold raise_sigalrm. destruct (sigalrm w) as [cl|]; [|done].
  revert w. change (steady (raise_alarm_as_timeout cl)).
  unfold raise_alarm_as_timeout. steady_tac.
Qed.

#[local] Hint Resolve steady_raise_sigalrm : steady.

Lemma steady_timeout_enforcer wt : steady (timeout_enforcer wt).
Proof. unfold timeout_enforcer. steady_tac. Qed.

Lemma steady_exec o : steady (exec o).
Proof.
  destruct o;
    unfold exec, new_context, get_deadline, cancel, call_cancel_fn,
      cancel_async_after_enter, cancel_async_at_enter, cancel_async_at_exit,
      cancel_sync_at_enter, cancel_sync_after_enter, cancel_sync_after_exit,
      _alarm_based_timeout_enter, _alarm_based_timeout_exit,
      _watcher_thread_based_timeout_enter,
      _watcher_thread_based_timeout_exit, new_context, get_deadline;
    steady_tac.
  intros w. destruct (watchers w !! i) as [wt|]; [|done].
  apply steady_timeout_enforcer.
Qed.

Lemma steps_evolves w w' : steps w w' -> evolves w w'.
Proof.
  induction 1 as [w|w w1 w2 Hstep _ IH]; [apply evolves_refl|].
  eapply evolves_trans; [|done].
  destruct Hstep as [o Hrun|o e Hrun]; pose proof (steady_exec o w) as Hs;
    by rewrite Hrun in Hs.
Qed.

(** ** [cancel] *)

(** X8.  [cancel()] on a token that has completed does nothing: the cancel
    callback is not invoked and the process is left as it was. *)
Theorem cancel_completed_noop (w : World) (p : addr) (t : CancelContext) :
  tokens w !! p = Some t -> _lock t = false -> _completed t = true ->
  cancel p w = Ok tt w.
Proof.
  intros Hp Hl Hc. unfold cancel, bind, lift.
  rewrite (mark_cancelled_done p (tokens w) t) by done.
  by rewrite with_tokens_same.
Qed.


(** [cancel()] on a token that has not completed, over an acyclic chain. *)
Lemma cancel_live w p t rk :
  tokens w !! p = Some t -> _completed t = false ->
  locks_free (tokens w) -> ranked rk (tokens w) p ->
  exists h',
    mark_cancelled p (tokens w) = Ok true h' /\
    h' !! p = Some (set_cancelled t) /\
    cancel p w = call_cancel_fn (_cancel t) (with_tokens h' w).
Proof.
  intros Hp Hc Hfree Hrk.
  destruct (mark_cancelled_cascade _ p t rk Hp Hfree Hc Hrk)
    as (h' & Hrun & Hp' & _ & _ & _ & _).
  exists h'. split; [done|]. split; [done|].
  unfold cancel, bind, lift at 1. rewrite Hrun. unfold lift, load. simpl.
  by rewrite Hp'.
Qed.

(** X10.  [cancel()] marks the token, and what it cascades to, before it
    invokes the callback, so a callback that fails leaves the token
    cancelled: a token built without a callback raises [TypeError], and one
    whose callback injects an exception into a thread that has ended raises
    [ValueError]. *)
Theorem cancel_marks_before_callback (w : World) (p : addr)
  (t : CancelContext) (rk : addr -> nat) :
  tokens w !! p = Some t -> _completed t = false ->
  locks_free (tokens w) -> ranked rk (tokens w) p ->
  exists h',
    mark_cancelled p (tokens w) = Ok true h' /\
    is_cancelled h' p = true /\
    cancel p w = call_cancel_fn (_cancel t) (with_tokens h' w) /\
    (_cancel t = CancelDefault ->
     cancel p w = Raise TypeError (with_tokens h' w)) /\
    (forall th, _cancel t = CancelInject th -> th ∉ live_threads w ->
     cancel p w = Raise ValueError (with_tokens h' w)).
Proof.
  intros Hp Hc Hfree Hrk.
  destruct (cancel_live w p t rk Hp Hc Hfree Hrk)
    as (h' & Hrun & Hp' & Hcancel).
  exists h'. split_and!; try done.
  - unfold is_cancelled. by rewrite Hp'.
  - intros Hfn. by rewrite Hcancel, Hfn.
  - intros th Hfn Hdead. rewrite Hcancel, Hfn. simpl.
    unfold _send_exception_to_thread. simpl.
    by rewrite bool_decide_eq_false_2.
Qed.

(** * Further properties of the enforcers *)

(** ** Clock readings on entry *)

Lemma py_max_zero_nonneg (x : Q) : (0 <= py_max 0 x)%Q.
Proof.
  unfold py_max. destruct (Qle_bool x 0) eqn:Hle; [done|].
  destruct (Qlt_le_dec 0 x) as [Hlt|Hge]; [by apply Qlt_le_weak|].
  apply Qle_bool_iff in Hge. congruence.
Qed.

Lemma py_max_zero_expired (x : Q) : (x <= 0)%Q -> py_max 0 x = 0%Q.
Proof. intros Hle. unfold py_max. by rewrite (proj2 (Qle_bool_iff x 0) Hle). Qed.

Lemma setitimer_valid seconds interval w :
  (0 <= seconds)%Q -> (0 <= interval)%Q ->
  setitimer seconds interval w
  = Ok (itimer w) (with_itimer (seconds, interval) w).
Proof.
  intros Hs Hi. unfold setitimer.
  by rewrite (proj2 (Qle_bool_iff 0 seconds) Hs),
             (proj2 (Qle_bool_iff 0 interval) Hi).
Qed.

(** X13.  [_alarm_based_timeout] reads the clock twice on entry: once for
    the deadline its signal handler compares the clock with, and once more
    when the token computes the deadline it reports.  The handler's deadline
    is the earlier of the two. *)
Theorem alarm_deadlines_ordered (t : Q) (w : World) :
  current_thread w = main_thread w -> (0 <= t)%Q ->
  (clock w (ticks w) <= clock w (S (ticks w)))%Q ->
  exists ctx w' tok,
    _alarm_based_timeout_enter (Some t) w = Ok (ctx, Some (itimer w)) w' /\
    sigalrm w' =
      Some (mkAlarmHandler ctx (Some t) (Some (clock w (ticks w) + t)%Q)) /\
    tokens w' !! ctx = Some tok /\
    _deadline tok = Some (clock w (S (ticks w)) + t)%Q /\
    (clock w (ticks w) + t <= clock w (S (ticks w)) + t)%Q /\
    ticks w' = S (S (ticks w)).
Proof.
  intros Hmain Ht Hmono.
  unfold _alarm_based_timeout_enter, on_main_thread, bind.
  rewrite bool_decide_eq_true_2 by done. simpl.
  rewrite setitimer_valid by done. simpl.
  do 3 eexists. split; [reflexivity|]. simpl.
  split_and!; try first [apply lookup_snoc|reflexivity]. lra.
Qed.

(** ** Entering a synchronous scope *)

Lemma cancel_sync_after_enter_returns (timeout : option Q) (w : World) :
  (forall t, timeout = Some t -> (0 <= t)%Q) ->
  exists f w' tok,
    cancel_sync_after_enter timeout w = Ok f w' /\
    frame_ctx f = length (tokens w) /\
    tokens w' !! frame_ctx f = Some tok /\ is_fresh tok /\
    (forall x, _timeout tok = Some x -> timeout = Some x).
Proof.
  intros Ht. unfold cancel_sync_after_enter, bind.
  destruct (win32 w) eqn:Hwin.
  - do 3 eexists. split; [reflexivity|]. simpl.
    split_and!; try first [apply lookup_snoc|done].
  - unfold on_main_thread at 1. case_bool_decide as Hmain.
    + unfold _alarm_based_timeout_enter, on_main_thread, bind.
      rewrite bool_decide_eq_true_2 by done. simpl.
      destruct timeout as [t|]; simpl.
      * pose proof (Ht t eq_refl) as Ht'.
        rewrite setitimer_valid by first [done|apply Qle_refl]. simpl.
        do 3 eexists. split; [reflexivity|]. simpl.
        split_and!; try first [apply lookup_snoc|done].
      * do 3 eexists. split; [reflexivity|]. simpl.
        split_and!; try first [apply lookup_snoc|done].
    + destruct timeout as [t|]; simpl;
        do 3 eexists; (split; [reflexivity|]); simpl;
        split_and!; try first [apply lookup_snoc|done].
Qed.

(** X14.  Entering [cancel_sync_at] does not fail, on any platform and
    from any thread, for any deadline that is null, past, or up to a
    thousand million seconds ahead: it always yields a new, fresh token,
    whose timeout, if it has one, is not negative. *)
Theorem cancel_sync_at_enter_returns (deadline : option Q) (w : World) :
  (forall d, deadline = Some d ->
     (d - clock w (ticks w) <= 1000000000)%Q) ->
  exists f w' tok,
    cancel_sync_at_enter deadline w = Ok f w' /\
    frame_ctx f = length (tokens w) /\
    tokens w' !! frame_ctx f = Some tok /\ is_fresh tok /\
    forall x, _timeout tok = Some x -> timer_accepts x.
Proof.
  intros Hahead.
  rewrite cancel_sync_at_enter_timeout. destruct deadline as [d|].
  - assert (Hacc : timer_accepts (py_max 0 (d - clock w (ticks w)))).
    { split; [apply py_max_zero_nonneg|].
      pose proof (Hahead d eq_refl). unfold py_max.
      destruct (Qle_bool (d - clock w (ticks w)) 0); lra. }
    destruct (cancel_sync_after_enter_returns
                (remaining (Some d) (clock w (ticks w)))
                (with_ticks (S (ticks w)) w))
      as (f & w' & tok & Hrun & Hctx & Htok & Hfresh & Htime).
    { intros t [= <-]. apply Hacc. }
    exists f, w', tok. split_and!; try done.
    intros x Hx. apply Htime in Hx. by injection Hx as <-.
  - destruct (cancel_sync_after_enter_returns None w)
      as (f & w' & tok & Hrun & Hctx & Htok & Hfresh & Htime); [done|].
    exists f, w', tok. split_and!; try done.
    intros x Hx. by apply Htime in Hx.
Qed.

(** X15.  Entered on the main thread with a deadline that has already
    passed, [cancel_sync_at] computes the timeout zero and sets the interval
    timer to zero seconds, the value with which [setitimer] clears a timer;
    from any other thread it starts a watcher that sleeps for zero
    seconds. *)
Theorem cancel_sync_at_expired (d : Q) (w : World) :
  win32 w = false -> (d <= clock w (ticks w))%Q ->
  exists ctx w',
    (current_thread w = main_thread w ->
     cancel_sync_at_enter (Some d) w
     = Ok (FrameAlarm (Some 0%Q) (Some (itimer w)) ctx) w' /\
     itimer w' = (0%Q, 0%Q) /\ watchers w' = watchers w) /\
    (current_thread w <> main_thread w ->
     cancel_sync_at_enter (Some d) w
     = Ok (FrameWatcher (length (events w)) ctx) w' /\
     watchers w' = watchers w ++
       [mkWatcher 0%Q (length (events w)) (current_thread w) ctx] /\
     itimer w' = itimer w).
Proof.
  intros Hwin Hexp. rewrite cancel_sync_at_enter_timeout. unfold remaining.
  rewrite py_max_zero_expired by lra.
  unfold cancel_sync_after_enter, bind. simpl. rewrite Hwin.
  destruct (decide (current_thread w = main_thread w)) as [Hmain|Hmain].
  - rewrite bool_decide_eq_true_2 by done.
    unfold _alarm_based_timeout_enter, on_main_thread, bind. simpl.
    rewrite bool_decide_eq_true_2 by done. simpl.
    do 2 eexists. split; [|done]. intros _. split; [reflexivity|done].
  - rewrite bool_decide_eq_false_2 by done.
    do 2 eexists. split; [done|]. intros _. split; [reflexivity|done].
Qed.


(** ** Whole scopes *)

Lemma lift_mark_completed_eq ctx w tok :
  tokens w !! ctx = Some tok -> _lock tok = false ->
  lift (mark_completed ctx) w =
  Ok (negb (_cancelled tok))
     (with_tokens (if _cancelled tok then tokens w
                   else <[ctx := set_completed tok]> (tokens w)) w).
Proof.
  intros Htok Hl. unfold lift. rewrite (mark_completed_eq ctx _ tok) by done.
  by destruct (_cancelled tok).
Qed.

Lemma marked_completed_lookup (h : Heap) ctx tok :
  h !! ctx = Some tok ->
  (if _cancelled tok then h else <[ctx := set_completed tok]> h) !! ctx
  = Some (if _cancelled tok then tok else set_completed tok).
Proof.
  intros Htok. destruct (_cancelled tok); [done|].
  apply list_lookup_insert_eq. by eapply lookup_lt_Some.
Qed.

(** The [finally] block of [_alarm_based_timeout] when a timer was set. *)
Lemma alarm_exit_eq t v ctx w tok :
  valid_timer v -> tokens w !! ctx = Some tok -> _lock tok = false ->
  _alarm_based_timeout_exit (Some t) (Some v) ctx w =
  Ok tt (with_tokens (if _cancelled tok then tokens w
                      else <[ctx := set_completed tok]> (tokens w))
           (with_itimer v w)).
Proof.
  intros [Hs Hi] Htok Hl. destruct v as [seconds interval].
  unfold _alarm_based_timeout_exit, bind.
  rewrite setitimer_valid by done. simpl.
  by rewrite (lift_mark_completed_eq ctx _ tok).
Qed.

Lemma alarm_enter_previous t w ctx prev w1 :
  _alarm_based_timeout_enter (Some t) w = Ok (ctx, prev) w1 ->
  prev = Some (itimer w) /\ itimer w1 = (t, 0%Q).
Proof.
  unfold _alarm_based_timeout_enter, on_main_thread, bind.
  case_bool_decide; [|done]. simpl. unfold setitimer. simpl.
  destruct (_ && _); [|done]. by intros [= <- <- <-].
Qed.

(** X17.  However the body of an [_alarm_based_timeout] scope with a
    timeout ends, by returning or by raising, and whatever it did to the
    interval timer, leaving the scope puts back the timer setting that was
    in force when the scope was entered, passes on the body's value or
    exception, and marks the token completed unless it was cancelled.  The
    SIGALRM handler is not put back: the one in force when the body ended
    stays installed. *)
Theorem alarm_scope_restores_timer {A} (t : Q) (body : addr -> M World A)
  (w w1 w2 : World) (ctx : addr) (prev : option (Q * Q))
  (tok : CancelContext) :
  valid_timer (itimer w) ->
  _alarm_based_timeout_enter (Some t) w = Ok (ctx, prev) w1 ->
  tokens w2 !! ctx = Some tok -> _lock tok = false ->
  exists w3,
    itimer w1 = (t, 0%Q) /\
    itimer w3 = itimer w /\ sigalrm w3 = sigalrm w2 /\
    tokens w3 !! ctx = Some (if _cancelled tok then tok else set_completed tok) /\
    (forall a, body ctx w1 = Ok a w2 ->
       _alarm_based_timeout (Some t) body w = Ok a w3) /\
    (forall e, body ctx w1 = Raise e w2 ->
       _alarm_based_timeout (Some t) body w = Raise e w3).
Proof.
  intros Hvalid Henter Htok Hl.
  destruct (alarm_enter_previous _ _ _ _ _ Henter) as [-> Htimer].
  pose proof (alarm_exit_eq t (itimer w) ctx w2 tok Hvalid Htok Hl) as Hexit.
  eexists. split; [done|].
  split_and!; cycle 3.
  - intros a Hbody. unfold _alarm_based_timeout, bind, try_finally.
    rewrite Henter. simpl. rewrite Hbody. unfold bind. rewrite Hexit.
    reflexivity.
  - intros e Hbody. unfold _alarm_based_timeout, bind, try_finally.
    rewrite Henter. simpl. rewrite Hbody. unfold bind. by rewrite Hexit.
  - done.
  - done.
  - simpl. by apply marked_completed_lookup.
Qed.

(** The dispatcher as a whole scope is its entry, the body, and its exit. *)
Lemma cancel_sync_after_frames {A} timeout (body : addr -> M World A) w :
  cancel_sync_after timeout body w =
  (let* f := cancel_sync_after_enter timeout in
   try_finally (body (frame_ctx f)) (cancel_sync_after_exit f)) w.
Proof.
  unfold cancel_sync_after, cancel_sync_after_enter, bind. simpl.
  destruct (win32 w).
  - unfold try_finally, bind, ret. simpl.
    by destruct (body _ _).
  - case_bool_decide.
    + unfold _alarm_based_timeout, bind.
      by destruct (_alarm_based_timeout_enter timeout w).
    + unfold _watcher_thread_based_timeout, bind.
      by destruct (_watcher_thread_based_timeout_enter timeout w).
Qed.

Lemma cancel_sync_at_frames {A} deadline (body : addr -> M World A) w :
  cancel_sync_at deadline body w =
  (let* f := cancel_sync_at_enter deadline in
   try_finally (body (frame_ctx f)) (cancel_sync_after_exit f)) w.
Proof.
  unfold cancel_sync_at.
  destruct deadline as [d|]; cbv [bind monotonic ret]; cbv beta iota;
    rewrite cancel_sync_after_frames, cancel_sync_at_enter_timeout;
    reflexivity.
Qed.

(** [cancel_async_after] leaves through the [finally] block of
    [cancel_async_at], with the deadline it computed on entry. *)
Lemma cancel_async_after_frames {A} timeout (body : addr -> M World A) w :
  cancel_async_after timeout body w =
  (let* r := cancel_async_after_enter timeout in
   try_finally (body (snd (snd r)))
     (cancel_async_at_exit (fst r) (fst (snd r)) (snd (snd r)))) w.
Proof.
  unfold cancel_async_after, cancel_async_after_enter, cancel_async_at.
  destruct timeout as [t|]; cbv [bind monotonic ret]; cbv beta iota;
    by destruct (cancel_async_at_enter _ _) as [[scope ctx] w1| | | | |].
Qed.

(** X18.  On Windows a synchronous scope is its body and nothing else: the
    timeout is dropped, the body runs with a new token that has no timeout,
    no deadline and a callback that does nothing, no handler, timer or
    watcher is set up, and nothing is done when the body ends, so the token
    is not marked completed. *)
Theorem windows_scope_unenforced {A} (timeout : option Q)
  (body : addr -> M World A) (w : World) :
  win32 w = true ->
  cancel_sync_after timeout body w =
    body (length (tokens w))
      (with_tokens (tokens w ++ [fresh_token None None CancelNoop]) w) /\
  cancel_sync_after_enter timeout w =
    Ok (FrameWindows (length (tokens w)))
      (with_tokens (tokens w ++ [fresh_token None None CancelNoop]) w) /\
  (forall ctx w2, cancel_sync_after_exit (FrameWindows ctx) w2 = Ok tt w2).
Proof.
  intros Hwin. unfold cancel_sync_after, cancel_sync_after_enter, bind.
  by rewrite Hwin.
Qed.

Lemma watcher_exit_sets_event ev ctx w r w1 :
  _watcher_thread_based_timeout_exit ev ctx w = r ->
  r = Ok tt w1 \/ (exists e, r = Raise e w1) ->
  events w1 !! ev = Some true.
Proof.
  unfold _watcher_thread_based_timeout_exit, bind, event_set.
  destruct (events w !! ev) as [b|] eqn:Hev;
    [|intros <- [?|[? ?]]; done].
  unfold lift. simpl.
  pose proof (mark_completed_plain ctx (tokens w)) as Hplain.
  destruct (mark_completed ctx (tokens w)) as [b' h'| | | | |];
    try done; try (intros <- [?|[? ?]]; done).
  intros <- [[= <-]|[? [=]]]. simpl.
  apply list_lookup_insert_eq. by eapply lookup_lt_Some.
Qed.

(** X19.  Once a [_watcher_thread_based_timeout] scope has been left, its
    watcher does nothing when it wakes up, whatever the program has done in
    the meantime: it neither marks the token nor injects an exception.
    (The watcher sleeps for the timeout, which [time.sleep] accepts when it
    is not negative.) *)
Theorem watcher_silent_after_exit (w w1 w2 : World) (ev : nat) (ctx : addr)
  (wt : Watcher) :
  (0 <= watch_timeout wt)%Q ->
  _watcher_thread_based_timeout_exit ev ctx w = Ok tt w1 ->
  steps w1 w2 -> watch_event wt = ev ->
  timeout_enforcer wt w2 = Ok tt w2.
Proof.
  intros _ Hexit Hsteps Hev.
  pose proof (watcher_exit_sets_event _ _ _ _ w1 Hexit (or_introl eq_refl))
    as Hset.
  destruct (steps_evolves _ _ Hsteps) as (He & _).
  destruct (He ev true Hset) as (b' & Hb' & Hi).
  unfold timeout_enforcer, bind, event_is_set. rewrite Hev, Hb', Hi; done.
Qed.

(** X20.  When the watcher wakes up before the scope is left, it marks the
    token cancelled and injects [TimeoutError] into the supervised thread;
    leaving the scope afterwards sets the event but cannot mark the token
    completed any more. *)
Theorem watcher_fires_before_exit (w : World) (wt : Watcher)
  (tok : CancelContext) (rk : addr -> nat) :
  (0 <= watch_timeout wt)%Q ->
  events w !! watch_event wt = Some false ->
  watch_thread wt ∈ live_threads w ->
  tokens w !! watch_ctx wt = Some tok -> _completed tok = false ->
  locks_free (tokens w) -> ranked rk (tokens w) (watch_ctx wt) ->
  exists h' w1 w2,
    mark_cancelled (watch_ctx wt) (tokens w) = Ok true h' /\
    timeout_enforcer wt w = Ok tt w1 /\
    tokens w1 = h' /\
    async_exc w1 = async_exc w ++ [(watch_thread wt, TimeoutError)] /\
    _watcher_thread_based_timeout_exit (watch_event wt) (watch_ctx wt) w1
    = Ok tt w2 /\
    tokens w2 = h' /\
    h' !! watch_ctx wt = Some (set_cancelled tok) /\
    events w2 !! watch_event wt = Some true.
Proof.
  intros _ Hev Hlive Htok Hc Hfree Hrk.
  destruct (mark_cancelled_cascade _ _ tok rk Htok Hfree Hc Hrk)
    as (h' & Hrun & Htok' & _ & _ & _ & _).
  assert (Hfire : timeout_enforcer wt w =
            Ok tt (with_async_exc
                     (async_exc w ++ [(watch_thread wt, TimeoutError)])
                     (with_tokens h' w))).
  { unfold timeout_enforcer, bind, event_is_set. rewrite Hev. simpl.
    unfold lift. rewrite Hrun. unfold _send_exception_to_thread. simpl.
    by rewrite bool_decide_eq_true_2. }
  do 3 eexists. split; [exact Hrun|]. split; [exact Hfire|].
  split; [done|]. split; [done|].
  unfold _watcher_thread_based_timeout_exit, bind, event_set. simpl.
  rewrite Hev. simpl.
  rewrite (lift_mark_completed_eq (watch_ctx wt) _ (set_cancelled tok));
    [|done|exact (Hfree _ _ Htok)].
  simpl. split; [reflexivity|]. simpl. split_and!; try done.
  apply list_lookup_insert_eq. by eapply lookup_lt_Some.
Qed.

(** X21.  A [cancel_async_at] scope whose cancellation was not requested
    ends the way its body ended, whatever the deadline and the clock: it
    passes on the body's value or exception, raises nothing of its own, does
    not read the clock, and marks the token completed unless something else
    had marked it cancelled. *)
Theorem async_scope_normal {A} (deadline : option Q)
  (body : addr -> M World A) (w w1 w2 : World) (scope : scope_id)
  (ctx : addr) (sc : CancelScopeState) (tok : CancelContext) :
  cancel_async_at_enter deadline w = Ok (scope, ctx) w1 ->
  scopes w2 !! scope = Some sc -> cancel_called sc = false ->
  tokens w2 !! ctx = Some tok -> _lock tok = false ->
  exists w3,
    w3 = with_tokens (if _cancelled tok then tokens w2
                      else <[ctx := set_completed tok]> (tokens w2)) w2 /\
    (forall a, body ctx w1 = Ok a w2 ->
       cancel_async_at deadline body w = Ok a w3) /\
    (forall e, body ctx w1 = Raise e w2 ->
       cancel_async_at deadline body w = Raise e w3).
Proof.
  intros Henter Hsc Hcalled Htok Hl. eexists. split; [reflexivity|].
  assert (Hexit : cancel_async_at_exit deadline scope ctx w2 =
            Ok tt (with_tokens (if _cancelled tok then tokens w2
                                else <[ctx := set_completed tok]> (tokens w2))
                     w2)).
  { unfold cancel_async_at_exit, bind, scope_cancel_called.
    rewrite Hsc, Hcalled. by rewrite (lift_mark_completed_eq ctx _ tok). }
  split.
  - intros a Hbody. unfold cancel_async_at, bind, try_finally.
    rewrite Henter. simpl. rewrite Hbody. unfold bind. by rewrite Hexit.
  - intros e Hbody. unfold cancel_async_at, bind, try_finally.
    rewrite Henter. simpl. rewrite Hbody. unfold bind. by rewrite Hexit.
Qed.

(** X22.  A [cancel_async_at] scope whose cancellation was requested ends
    with [TimeoutError] or [CancelledError], whether its body returned or
    raised: the body's value or exception is dropped, and the token is left
    as [mark_cancelled] leaves it. *)
Theorem async_scope_cancelled {A} (deadline : option Q)
  (body : addr -> M World A) (w w1 w2 : World) (scope : scope_id)
  (ctx : addr) (sc : CancelScopeState) (b : bool) (h' : Heap) :
  cancel_async_at_enter deadline w = Ok (scope, ctx) w1 ->
  (exists a, body ctx w1 = Ok a w2) \/ (exists e0, body ctx w1 = Raise e0 w2) ->
  scopes w2 !! scope = Some sc -> cancel_called sc = true ->
  mark_cancelled ctx (tokens w2) = Ok b h' ->
  exists e w3,
    cancel_async_at deadline body w = Raise e w3 /\
    (e = TimeoutError \/ e = CancelledError) /\ tokens w3 = h'.
Proof.
  intros Henter Hbody Hsc Hcalled Hrun.
  destruct (cancel_async_at_exit_raises deadline scope ctx w2 sc b h'
              Hsc Hcalled Hrun) as (e & w3 & Hexit & Htok).
  destruct (cancel_async_at_exit_fault _ _ _ _ _ _ Hexit) as [_ He].
  exists e, w3. split; [|done].
  unfold cancel_async_at, bind, try_finally. rewrite Henter. simpl.
  destruct Hbody as [[a ->]|[e0 ->]]; unfold bind; by rewrite Hexit.
Qed.

(** The handler on a token that has completed. *)
Lemma raise_alarm_completed ctx timeout now0 w tok :
  tokens w !! ctx = Some tok -> _lock tok = false -> _completed tok = true ->
  exists e w',
    raise_alarm_as_timeout
      (mkAlarmHandler ctx timeout (option_map (Qplus now0) timeout)) w
    = Raise e w' /\
    (e = TimeoutError \/ e = CancelledError) /\
    tokens w' = tokens w.
Proof.
  intros Htok Hl Hdone. unfold raise_alarm_as_timeout, bind, lift. simpl.
  rewrite (mark_cancelled_done ctx (tokens w) tok) by done.
  destruct timeout as [t|]; cbv [monotonic raise]; simpl.
  - destruct (Qle_bool (now0 + t) (clock w (ticks w)));
      do 2 eexists; (split; [reflexivity|]); simpl; auto.
  - do 2 eexists. split; [reflexivity|]. simpl. auto.
Qed.

(** X23.  The SIGALRM handler of an alarm scope raises its fault whether or
    not marking the token succeeds.  As leaving the scope does not remove
    the handler, a signal that arrives after the token has completed still
    raises [TimeoutError] or [CancelledError], and leaves the token
    completed and not cancelled. *)
Theorem alarm_handler_after_completion (ctx : addr) (timeout : option Q)
  (now0 : Q) (w : World) (tok : CancelContext) :
  tokens w !! ctx = Some tok -> _lock tok = false -> _completed tok = true ->
  exists e w',
    raise_alarm_as_timeout
      (mkAlarmHandler ctx timeout (option_map (Qplus now0) timeout)) w
    = Raise e w' /\
    (e = TimeoutError \/ e = CancelledError) /\
    tokens w' = tokens w.
Proof. apply raise_alarm_completed. Qed.

Lemma alarm_enter_eq t w :
  current_thread w = main_thread w -> (0 <= t)%Q ->
  _alarm_based_timeout_enter (Some t) w
  = Ok (length (tokens w), Some (itimer w)) (alarm_entered t w).
Proof.
  intros Hmain Ht. unfold _alarm_based_timeout_enter, on_main_thread, bind.
  rewrite bool_decide_eq_true_2 by done. simpl.
  by rewrite setitimer_valid by first [done|apply Qle_refl].
Qed.

Lemma alarm_scope_eq {A} t (body : addr -> M World A) w :
  current_thread w = main_thread w -> (0 <= t)%Q ->
  _alarm_based_timeout (Some t) body w =
  try_finally (body (length (tokens w)))
    (_alarm_based_timeout_exit (Some t) (Some (itimer w)) (length (tokens w)))
    (alarm_entered t w).
Proof.
  intros Hmain Ht. unfold _alarm_based_timeout, bind.
  by rewrite alarm_enter_eq.
Qed.

(** X24.  Alarm scopes do not nest.  Entering an inner scope replaces the
    handler of the outer one, and leaving it does not put that handler
    back.  When the alarm goes off in the outer scope after the inner one
    was left, the handler that runs is the inner one's: the fault is raised,
    but the outer token is never marked cancelled, so the outer scope marks
    it completed on the way out. *)
Theorem nested_alarm_scopes (t1 t2 : Q) (w : World) :
  current_thread w = main_thread w -> (0 <= t1)%Q -> (0 <= t2)%Q ->
  valid_timer (itimer w) ->
  exists e w' tok1 tok2,
    _alarm_based_timeout (Some t1)
      (fun _ =>
         _alarm_based_timeout (Some t2) (fun _ => ret tt) >> raise_sigalrm) w
    = Raise e w' /\
    (e = TimeoutError \/ e = CancelledError) /\
    tokens w' !! length (tokens w) = Some tok1 /\
    _cancelled tok1 = false /\ _completed tok1 = true /\
    tokens w' !! S (length (tokens w)) = Some tok2 /\
    _cancelled tok2 = false /\ _completed tok2 = true /\
    itimer w' = itimer w.
Proof.
  intros Hmain Ht1 Ht2 Hvalid.
  set (c1 := length (tokens w)).
  set (tokA := fresh_token (Some t1) (Some (clock w (S (ticks w)) + t1)%Q)
                 CancelAlarm).
  set (w1 := alarm_entered t1 w).
  assert (Hlen1 : length (tokens w1) = S c1).
  { simpl. rewrite length_app. simpl. unfold c1. lia. }
  set (tokB := fresh_token (Some t2)
                 (Some (clock w1 (S (ticks w1)) + t2)%Q) CancelAlarm).
  set (w2 := alarm_entered t2 w1).
  assert (HB : tokens w2 !! S c1 = Some tokB).
  { rewrite <- Hlen1. apply lookup_snoc. }
  (* the inner scope *)
  assert (Hinner : _alarm_based_timeout (Some t2) (fun _ => ret tt) w1
            = Ok tt (with_tokens (<[S c1 := set_completed tokB]> (tokens w2))
                       (with_itimer (t1, 0%Q) w2))).
  { rewrite alarm_scope_eq by done.
    unfold try_finally, ret at 1, bind. rewrite Hlen1. fold w2.
    rewrite (alarm_exit_eq t2 (itimer w1) (S c1) w2 tokB);
      [done|split; simpl; [done|apply Qle_refl]|done|done]. }
  set (w2' := with_tokens (<[S c1 := set_completed tokB]> (tokens w2))
                (with_itimer (t1, 0%Q) w2)) in *.
  assert (HB' : tokens w2' !! S c1 = Some (set_completed tokB)).
  { change (tokens w2') with (<[S c1 := set_completed tokB]> (tokens w2)).
    apply list_lookup_insert_eq. by eapply lookup_lt_Some. }
  assert (HA' : tokens w2' !! c1 = Some tokA).
  { change (tokens w2') with (<[S c1 := set_completed tokB]> (tokens w2)).
    rewrite list_lookup_insert_ne by lia.
    change (tokens w2) with ((tokens w ++ [tokA]) ++ [tokB]).
    rewrite lookup_app_l by (rewrite length_app; simpl; unfold c1; lia).
    apply lookup_snoc. }
  (* the alarm goes off *)
  destruct (raise_alarm_completed (S c1) (Some t2) (clock w1 (ticks w1)) w2'
              (set_completed tokB) HB' eq_refl eq_refl)
    as (e & w3 & Hsig & He & Htok3).
  assert (Hbody : (_alarm_based_timeout (Some t2) (fun _ => ret tt) >>
                   raise_sigalrm) w1 = Raise e w3).
  { unfold bind. rewrite Hinner. unfold raise_sigalrm.
    change (sigalrm w2')
      with (Some (mkAlarmHandler (length (tokens w1)) (Some t2)
                    (Some (clock w1 (ticks w1) + t2)%Q))).
    rewrite Hlen1. exact Hsig. }
  (* leaving the outer scope *)
  assert (HA3 : tokens w3 !! c1 = Some tokA) by (by rewrite Htok3).
  pose proof (alarm_exit_eq t1 (itimer w) c1 w3 tokA Hvalid HA3 eq_refl)
    as Hexit.
  exists e. eexists. exists (set_completed tokA), (set_completed tokB).
  split.
  { rewrite alarm_scope_eq by done.
    unfold try_finally. cbv beta. fold w1 c1. rewrite Hbody. unfold bind.
    rewrite Hexit. reflexivity. }
  split; [done|]. simpl.
  split; [apply list_lookup_insert_eq; by eapply lookup_lt_Some|].
  split; [done|]. split; [done|].
  split; [|done].
  rewrite list_lookup_insert_ne by (unfold c1; lia). by rewrite Htok3.
Qed.

(** X25.  A negative timeout, of a microsecond or more, makes
    [_alarm_based_timeout] fail on entry with the error of [setitimer],
    after the token was built and the SIGALRM handler installed: the body
    does not run, the timer keeps its setting, the handler stays, and the
    token is left neither completed nor cancelled. *)
Theorem alarm_negative_timeout {A} (t : Q) (body : addr -> M World A)
  (w : World) :
  current_thread w = main_thread w -> timer_rejects t ->
  exists w',
    _alarm_based_timeout_enter (Some t) w = Raise ItimerError w' /\
    _alarm_based_timeout (Some t) body w = Raise ItimerError w' /\
    itimer w' = itimer w /\
    sigalrm w' =
      Some (mkAlarmHandler (length (tokens w)) (Some t)
              (Some (clock w (ticks w) + t)%Q)) /\
    tokens w' =
      tokens w ++
      [fresh_token (Some t) (Some (clock w (S (ticks w)) + t)%Q) CancelAlarm].
Proof.
  intros Hmain [_ Ht].
  assert (Hneg : Qle_bool 0 t = false).
  { destruct (Qle_bool 0 t) eqn:Hle; [|done].
    apply Qle_bool_iff in Hle. lra. }
  unfold _alarm_based_timeout. unfold bind at 1.
  unfold _alarm_based_timeout_enter, on_main_thread, bind.
  rewrite bool_decide_eq_true_2 by done. simpl.
  unfold setitimer. simpl. rewrite Hneg. simpl.
  eexists. split; [reflexivity|]. split; [reflexivity|]. done.
Qed.

(** X26.  A [_watcher_thread_based_timeout] scope never raises anything of
    its own: it ends the way its body ended, with the event set, and with
    the token completed unless it was cancelled.  (The timeout reaches the
    supervised thread as an injected exception, not through the scope.) *)
Theorem watcher_scope_outcome {A} (timeout : option Q)
  (body : addr -> M World A) (w w1 w2 : World) (ev : nat) (ctx : addr)
  (tok : CancelContext) :
  _watcher_thread_based_timeout_enter timeout w = Ok (ev, ctx) w1 ->
  is_Some (events w2 !! ev) ->
  tokens w2 !! ctx = Some tok -> _lock tok = false ->
  exists w3,
    events w3 !! ev = Some true /\
    tokens w3 !! ctx = Some (if _cancelled tok then tok else set_completed tok) /\
    (forall a, body ctx w1 = Ok a w2 ->
       _watcher_thread_based_timeout timeout body w = Ok a w3) /\
    (forall e, body ctx w1 = Raise e w2 ->
       _watcher_thread_based_timeout timeout body w = Raise e w3).
Proof.
  intros Henter [b Hev] Htok Hl.
  assert (Hexit : _watcher_thread_based_timeout_exit ev ctx w2 =
            Ok tt (with_tokens (if _cancelled tok then tokens w2
                                else <[ctx := set_completed tok]> (tokens w2))
                     (with_events (<[ev := true]> (events w2)) w2))).
  { unfold _watcher_thread_based_timeout_exit, bind, event_set.
    rewrite Hev. by rewrite (lift_mark_completed_eq ctx _ tok). }
  eexists. split_and!; cycle 2.
  - intros a Hbody. unfold _watcher_thread_based_timeout, bind, try_finally.
    rewrite Henter. simpl. rewrite Hbody. unfold bind. rewrite Hexit.
    reflexivity.
  - intros e Hbody. unfold _watcher_thread_based_timeout, bind, try_finally.
    rewrite Henter. simpl. rewrite Hbody. unfold bind. by rewrite Hexit.
  - simpl. apply list_lookup_insert_eq. by eapply lookup_lt_Some.
  - simpl. by apply marked_completed_lookup.
Qed.

(** ** What [cancel] does to the scope of each enforcer *)

Lemma new_token_kept w1 w2 (h : Heap) tok0 :
  locks_free h -> is_fresh tok0 -> tokens w1 = h ++ [tok0] -> steps w1 w2 ->
  locks_free (tokens w2) /\
  forall tok, tokens w2 !! length h = Some tok -> _cancel tok = _cancel tok0.
Proof.
  intros Hfree Hfresh Htok Hsteps.
  assert (Hfree1 : locks_free (tokens w1)).
  { rewrite Htok. intros a ta Ha.
    apply lookup_app_Some in Ha as [Ha|[_ Ha]]; [eauto|].
    apply list_lookup_singleton_Some in Ha as [_ <-]. apply Hfresh. }
  destruct (hsteps_keeps _ _ Hfree1 (steps_hsteps _ _ Hsteps)) as [Hfree2 Hk].
  split; [done|]. intros tok Hlook.
  destruct (Hk (length h) tok0) as (t' & Ht' & _ & _ & Hcb & _).
  { rewrite Htok. apply lookup_snoc. }
  rewrite Ht' in Hlook. by injection Hlook as <-.
Qed.

(** X27.  [cancel()] on the token of a cooperative scope, at any later
    point of the program at which the token has not completed, requests the
    cancellation of that scope: it returns, the token is cancelled, and the
    scope, whose deadline is unchanged, reports [cancel_called]. *)
Theorem async_cancel_requests_scope (deadline : option Q) (w w1 w2 : World)
  (scope : scope_id) (ctx : addr) (tok : CancelContext)
  (rk : addr -> nat) :
  locks_free (tokens w) ->
  cancel_async_at_enter deadline w = Ok (scope, ctx) w1 ->
  steps w1 w2 ->
  tokens w2 !! ctx = Some tok -> _completed tok = false ->
  ranked rk (tokens w2) ctx ->
  exists w3 sc,
    cancel ctx w2 = Ok tt w3 /\
    scopes w3 !! scope = Some sc /\ cancel_called sc = true /\
    scope_deadline sc = deadline /\
    is_cancelled (tokens w3) ctx = true.
Proof.
  intros Hfree Henter Hsteps Htok Hc Hrk.
  assert (Hshape : exists tok0,
            is_fresh tok0 /\ _cancel tok0 = CancelScope scope /\
            tokens w1 = tokens w ++ [tok0] /\ ctx = length (tokens w) /\
            scopes w1 !! scope = Some (mkScope deadline false)).
  { revert Henter. unfold cancel_async_at_enter.
    cbv [bind monotonic ret new_scope new_context get_deadline lift alloc].
    destruct (truthy deadline); [destruct deadline|]; simpl;
      intros [= <- <- <-]; eexists; simpl;
      (split_and!; [| |reflexivity|reflexivity|apply lookup_snoc]); done. }
  destruct Hshape as (tok0 & Hfresh & Hcb & Htok1 & -> & Hsc1).
  destruct (new_token_kept _ _ _ _ Hfree Hfresh Htok1 Hsteps) as [Hfree2 Hkept].
  destruct (steps_evolves _ _ Hsteps) as (_ & Hscopes).
  destruct (Hscopes _ _ Hsc1) as (sc2 & Hsc2 & Hd2 & _).
  destruct (cancel_live w2 _ tok rk Htok Hc Hfree2 Hrk)
    as (h' & _ & Hp' & Hcancel).
  rewrite (Hkept tok Htok), Hcb in Hcancel. simpl in Hcancel.
  unfold scope_cancel in Hcancel. simpl in Hcancel. rewrite Hsc2 in Hcancel.
  do 2 eexists. split; [exact Hcancel|]. simpl.
  split; [apply list_lookup_insert_eq; by eapply lookup_lt_Some|].
  split; [done|]. split; [done|].
  unfold is_cancelled. by rewrite Hp'.
Qed.

(** X28.  [cancel()] on the token of a watcher scope, called from a thread
    other than the one that entered the scope, injects [CancelledError]
    into the thread that entered the scope, after marking the token
    cancelled; the caller gets no exception. *)
Theorem watcher_cancel_injects (timeout : option Q) (w w1 w2 : World)
  (ev : nat) (ctx : addr) (tok : CancelContext) (rk : addr -> nat) :
  locks_free (tokens w) ->
  _watcher_thread_based_timeout_enter timeout w = Ok (ev, ctx) w1 ->
  steps w1 w2 ->
  tokens w2 !! ctx = Some tok -> _completed tok = false ->
  ranked rk (tokens w2) ctx ->
  current_thread w2 <> current_thread w ->
  current_thread w ∈ live_threads w2 ->
  exists h',
    cancel ctx w2 =
      Ok tt (with_async_exc
               (async_exc w2 ++ [(current_thread w, CancelledError)])
               (with_tokens h' w2)) /\
    h' !! ctx = Some (set_cancelled tok).
Proof.
  intros Hfree Henter Hsteps Htok Hc Hrk _ Hlive.
  assert (Hshape : exists tok0,
            is_fresh tok0 /\ _cancel tok0 = CancelInject (current_thread w) /\
            tokens w1 = tokens w ++ [tok0] /\ ctx = length (tokens w)).
  { revert Henter. unfold _watcher_thread_based_timeout_enter.
    cbv [bind monotonic ret new_event new_context get_deadline lift alloc
         start_watcher].
    destruct timeout; simpl; intros [= <- <- <-]; eexists; simpl;
      (split_and!; [| |reflexivity|reflexivity]); done. }
  destruct Hshape as (tok0 & Hfresh & Hcb & Htok1 & ->).
  destruct (new_token_kept _ _ _ _ Hfree Hfresh Htok1 Hsteps) as [Hfree2 Hkept].
  destruct (cancel_live w2 _ tok rk Htok Hc Hfree2 Hrk)
    as (h' & _ & Hp' & Hcancel).
  rewrite (Hkept tok Htok), Hcb in Hcancel. simpl in Hcancel.
  unfold _send_exception_to_thread in Hcancel. simpl in Hcancel.
  rewrite bool_decide_eq_true_2 in Hcancel by done.
  by exists h'.
Qed.

(** X29.  [cancel()] on the token of an alarm scope, called on the main
    thread while the handler of the scope is the one installed, does not
    return: the handler runs before [signal.raise_signal] comes back and
    raises the fault in the caller, [TimeoutError] if the clock has reached
    the deadline the handler holds and [CancelledError] otherwise.  The
    token is left cancelled. *)
Theorem alarm_cancel_raises (t : Q) (w w1 w2 : World) (ctx : addr)
  (prev : option (Q * Q)) (tok : CancelContext) (rk : addr -> nat) :
  locks_free (tokens w) ->
  _alarm_based_timeout_enter (Some t) w = Ok (ctx, prev) w1 ->
  steps w1 w2 -> sigalrm w2 = sigalrm w1 ->
  current_thread w2 = main_thread w2 ->
  tokens w2 !! ctx = Some tok -> _completed tok = false ->
  ranked rk (tokens w2) ctx ->
  exists d e w3,
    sigalrm w2 = Some (mkAlarmHandler ctx (Some t) (Some d)) /\
    cancel ctx w2 = Raise e w3 /\
    (e = TimeoutError <-> (d <= clock w2 (ticks w2))%Q) /\
    (e = TimeoutError \/ e = CancelledError) /\
    is_cancelled (tokens w3) ctx = true.
Proof.
  intros Hfree Henter Hsteps Hsig _ Htok Hc Hrk.
  pose proof (alarm_enter_installs _ _ _ _ _ Henter) as Hinst.
  assert (Hshape : exists tok0,
            is_fresh tok0 /\ _cancel tok0 = CancelAlarm /\
            tokens w1 = tokens w ++ [tok0] /\ ctx = length (tokens w)).
  { revert Henter. unfold _alarm_based_timeout_enter, on_main_thread, bind.
    case_bool_decide; [|done]. simpl. unfold setitimer. simpl.
    destruct (_ && _); [|done]. intros [= <- <- <-]. eexists. simpl.
    (split_and!; [| |reflexivity|reflexivity]); done. }
  destruct Hshape as (tok0 & Hfresh & Hcb & Htok1 & ->).
  destruct (new_token_kept _ _ _ _ Hfree Hfresh Htok1 Hsteps) as [Hfree2 Hkept].
  destruct (cancel_live w2 _ tok rk Htok Hc Hfree2 Hrk)
    as (h' & Hrun & Hp' & Hcancel).
  rewrite (Hkept tok Htok), Hcb in Hcancel. simpl in Hcancel.
  unfold raise_sigalrm in Hcancel. simpl in Hcancel.
  rewrite Hsig, Hinst in Hcancel. simpl in Hcancel.
  unfold raise_alarm_as_timeout, bind, lift in Hcancel. simpl in Hcancel.
  rewrite (mark_cancelled_again _ _ _ _ Hrun) in Hcancel.
  cbv [monotonic raise] in Hcancel. simpl in Hcancel.
  do 3 eexists. split; [by rewrite Hsig, Hinst|].
  split; [exact Hcancel|]. simpl.
  destruct (Qle_bool (clock w (ticks w) + t) (clock w2 (ticks w2))) eqn:Hle.
  - split_and!; [|by left|unfold is_cancelled; by rewrite Hp'].
    split; [|done]. intros _. by apply Qle_bool_iff.
  - split_and!; [|by right|unfold is_cancelled; by rewrite Hp'].
    split; [done|]. intros Hd. apply Qle_bool_iff in Hd. congruence.
Qed.

(** * The further properties at concrete inputs *)

Lemma closed_self_chained : closed self_chained.
Proof.
  intros [|a] t c Ha Hin; [|done]. injection Ha as <-.
  apply list_elem_of_singleton in Hin as ->. by eexists.
Qed.

Lemma mark_cancelled_returns_iff_acyclic_witness :
  (exists b h', mark_cancelled 0 family = Ok b h') <->
  (exists rk, ranked rk family 0).
Proof.
  apply mark_cancelled_returns_iff_acyclic;
    [by apply all_unlocked_free|by eexists].
Defined.

Lemma mark_cancelled_blocks_iff_cyclic_witness :
  ((exists b h', mark_cancelled 0 self_chained = Ok b h') \/
   mark_cancelled 0 self_chained = Deadlock) /\
  ((exists b h', mark_cancelled 0 self_chained = Ok b h') <->
   exists rk, ranked rk self_chained 0) /\
  (mark_cancelled 0 self_chained = Deadlock <->
   ~ exists rk, ranked rk self_chained 0).
Proof.
  apply mark_cancelled_blocks_iff_cyclic;
    [apply closed_self_chained|by apply all_unlocked_free|by eexists].
Defined.

Lemma closed_cancelled_pair : closed cancelled_pair.
Proof.
  intros [|[|a]] t c Ha Hin; [| |done]; injection Ha as <-;
    by apply elem_of_nil in Hin.
Qed.

Lemma chain_into_cancelled_ancestor_blocks_witness :
  chain 0 0 cancelled_pair = Deadlock.
Proof.
  apply (chain_into_cancelled_ancestor_blocks cancelled_pair 0 0
           (set_cancelled tok_fresh)).
  - apply closed_cancelled_pair.
  - by apply all_unlocked_free.
  - reflexivity.
  - reflexivity.
  - by apply (reach_self _ 0 (set_cancelled tok_fresh)).
Defined.

Lemma chain_to_completed_parent_witness :
  (chain 1 2 >> mark_cancelled 1) family_done
  = Ok false (<[1 := append_chained 2 (set_completed tok_fresh)]> family_done).
Proof.
  by apply (chain_to_completed_parent family_done 1 2
              (set_completed tok_fresh)).
Defined.

Lemma token_fields_frozen_witness :
  exists t', tokens world_cancelled !! 0 = Some t' /\
    _timeout t' = _timeout tok_fresh /\ _deadline t' = _deadline tok_fresh /\
    _cancel t' = _cancel tok_fresh /\
    _chained tok_fresh `prefix_of` _chained t'.
Proof.
  apply (token_fields_frozen world_two_tokens world_cancelled 0 tok_fresh).
  - by apply all_unlocked_free.
  - apply steps_world_cancelled.
  - reflexivity.
Defined.

Lemma locks_released_witness : locks_free (tokens world_cancelled).
Proof.
  apply (locks_released world_two_tokens world_cancelled).
  - by apply all_unlocked_free.
  - apply steps_world_cancelled.
Defined.

Lemma cancel_completed_noop_witness :
  cancel 0 world_completed = Ok tt world_completed.
Proof.
  by apply (cancel_completed_noop world_completed 0
              (set_completed tok_fresh)).
Defined.


Lemma cancel_marks_before_callback_witness :
  exists h',
    mark_cancelled 0 (tokens world_default_token) = Ok true h' /\
    is_cancelled h' 0 = true /\
    cancel 0 world_default_token
    = call_cancel_fn CancelDefault (with_tokens h' world_default_token) /\
    (CancelDefault = CancelDefault ->
     cancel 0 world_default_token
     = Raise TypeError (with_tokens h' world_default_token)) /\
    (forall th, CancelDefault = CancelInject th ->
     th ∉ live_threads world_default_token ->
     cancel 0 world_default_token
     = Raise ValueError (with_tokens h' world_default_token)).
Proof.
  apply (cancel_marks_before_callback world_default_token 0
           (fresh_token None None CancelDefault) rank_by_address).
  - reflexivity.
  - reflexivity.
  - by apply all_unlocked_free.
  - by apply acyclic_by_ranked.
Defined.

Lemma alarm_deadlines_ordered_witness :
  exists ctx w' tok,
    _alarm_based_timeout_enter (Some 1%Q) world_ticking
    = Ok (ctx, Some (itimer world_ticking)) w' /\
    sigalrm w' =
      Some (mkAlarmHandler ctx (Some 1%Q)
              (Some (clock world_ticking (ticks world_ticking) + 1)%Q)) /\
    tokens w' !! ctx = Some tok /\
    _deadline tok
    = Some (clock world_ticking (S (ticks world_ticking)) + 1)%Q /\
    (clock world_ticking (ticks world_ticking) + 1
     <= clock world_ticking (S (ticks world_ticking)) + 1)%Q /\
    ticks w' = S (S (ticks world_ticking)).
Proof.
  apply (alarm_deadlines_ordered 1%Q world_ticking);
    [reflexivity|lra|by vm_compute].
Defined.

Lemma cancel_sync_at_enter_returns_witness :
  exists f w' tok,
    cancel_sync_at_enter (Some 5%Q) world_main = Ok f w' /\
    frame_ctx f = length (tokens world_main) /\
    tokens w' !! frame_ctx f = Some tok /\ is_fresh tok /\
    forall x, _timeout tok = Some x -> timer_accepts x.
Proof.
  apply (cancel_sync_at_enter_returns (Some 5%Q) world_main).
  intros d [= <-]. simpl. lra.
Defined.

Lemma cancel_sync_at_expired_witness :
  exists ctx w',
    (current_thread world_main = main_thread world_main ->
     cancel_sync_at_enter (Some (-1)%Q) world_main
     = Ok (FrameAlarm (Some 0%Q) (Some (itimer world_main)) ctx) w' /\
     itimer w' = (0%Q, 0%Q) /\ watchers w' = watchers world_main) /\
    (current_thread world_main <> main_thread world_main ->
     cancel_sync_at_enter (Some (-1)%Q) world_main
     = Ok (FrameWatcher (length (events world_main)) ctx) w' /\
     watchers w' = watchers world_main ++
       [mkWatcher 0%Q (length (events world_main))
          (current_thread world_main) ctx] /\
     itimer w' = itimer world_main).
Proof.
  apply (cancel_sync_at_expired (-1)%Q world_main); [reflexivity|simpl; lra].
Defined.


Lemma alarm_scope_restores_timer_witness :
  exists w3,
    itimer world_alarmed = (1%Q, 0%Q) /\
    itimer w3 = itimer world_main /\ sigalrm w3 = sigalrm world_alarmed /\
    tokens w3 !! 0 =
      Some (set_completed
              (fresh_token (Some 1%Q) (Some (0 + 1)%Q) CancelAlarm)) /\
    (forall a, ret tt world_alarmed = Ok a world_alarmed ->
       _alarm_based_timeout (Some 1%Q) (fun _ => ret tt) world_main
       = Ok a w3) /\
    (forall e, ret tt world_alarmed = Raise e world_alarmed ->
       _alarm_based_timeout (Some 1%Q) (fun _ => ret tt) world_main
       = Raise e w3).
Proof.
  apply (alarm_scope_restores_timer 1%Q (fun _ => ret tt) world_main
           world_alarmed world_alarmed 0 (Some (itimer world_main))
           (fresh_token (Some 1%Q) (Some (0 + 1)%Q) CancelAlarm)).
  - split; simpl; lra.
  - reflexivity.
  - reflexivity.
  - reflexivity.
Defined.

Lemma windows_scope_unenforced_witness :
  cancel_sync_after (Some 1%Q) (fun ctx => lift (completed ctx)) world_windows
  = lift (completed 0)
      (with_tokens [fresh_token None None CancelNoop] world_windows) /\
  cancel_sync_after_enter (Some 1%Q) world_windows
  = Ok (FrameWindows 0)
      (with_tokens [fresh_token None None CancelNoop] world_windows) /\
  (forall ctx w2, cancel_sync_after_exit (FrameWindows ctx) w2 = Ok tt w2).
Proof.
  apply (windows_scope_unenforced (Some 1%Q) (fun ctx => lift (completed ctx))
           world_windows).
  reflexivity.
Defined.

Lemma watcher_silent_after_exit_witness :
  timeout_enforcer (mkWatcher 1%Q 0 1 0) world_unwatched
  = Ok tt world_unwatched.
Proof.
  apply (watcher_silent_after_exit world_watched world_unwatched
           world_unwatched 0 0 (mkWatcher 1%Q 0 1 0)).
  - simpl. lra.
  - reflexivity.
  - apply rtc_refl.
  - reflexivity.
Defined.

Lemma watcher_fires_before_exit_witness :
  exists h' w1 w2,
    mark_cancelled 0 (tokens world_watched) = Ok true h' /\
    timeout_enforcer (mkWatcher 1%Q 0 1 0) world_watched = Ok tt w1 /\
    tokens w1 = h' /\
    async_exc w1 = async_exc world_watched ++ [(1, TimeoutError)] /\
    _watcher_thread_based_timeout_exit 0 0 w1 = Ok tt w2 /\
    tokens w2 = h' /\
    h' !! 0 =
      Some (set_cancelled
              (fresh_token (Some 1%Q) (Some (0 + 1)%Q) (CancelInject 1))) /\
    events w2 !! 0 = Some true.
Proof.
  apply (watcher_fires_before_exit world_watched (mkWatcher 1%Q 0 1 0)
           (fresh_token (Some 1%Q) (Some (0 + 1)%Q) (CancelInject 1))
           rank_by_address).
  - simpl. lra.
  - reflexivity.
  - simpl. by repeat constructor.
  - reflexivity.
  - reflexivity.
  - by apply all_unlocked_free.
  - by apply acyclic_by_ranked.
Defined.

Lemma async_scope_normal_witness :
  exists w3,
    w3 = with_tokens
           (<[0 := set_completed (fresh_token None None (CancelScope 0))]>
              (tokens world_in_scope)) world_in_scope /\
    (forall a, ret tt world_in_scope = Ok a world_in_scope ->
       cancel_async_at None (fun _ => ret tt) world_main = Ok a w3) /\
    (forall e, ret tt world_in_scope = Raise e world_in_scope ->
       cancel_async_at None (fun _ => ret tt) world_main = Raise e w3).
Proof.
  apply (async_scope_normal None (fun _ => ret tt) world_main world_in_scope
           world_in_scope 0 0 (mkScope None false)
           (fresh_token None None (CancelScope 0))); reflexivity.
Defined.

Lemma async_scope_cancelled_witness :
  exists e w3,
    cancel_async_at None cancel world_main = Raise e w3 /\
    (e = TimeoutError \/ e = CancelledError) /\
    tokens w3 = tokens world_scope_cancelled.
Proof.
  apply (async_scope_cancelled None cancel world_main world_in_scope
           world_scope_cancelled 0 0 (mkScope None true) true).
  - reflexivity.
  - left. by exists tt.
  - reflexivity.
  - reflexivity.
  - reflexivity.
Defined.

Lemma alarm_handler_after_completion_witness :
  exists e w',
    raise_alarm_as_timeout
      (mkAlarmHandler 0 (Some 1%Q) (option_map (Qplus 0) (Some 1%Q)))
      world_completed
    = Raise e w' /\
    (e = TimeoutError \/ e = CancelledError) /\
    tokens w' = tokens world_completed.
Proof.
  by apply (alarm_handler_after_completion 0 (Some 1%Q) 0%Q world_completed
              (set_completed tok_fresh)).
Defined.

Lemma alarm_negative_timeout_witness :
  exists w',
    _alarm_based_timeout_enter (Some (-1)%Q) world_main
    = Raise ItimerError w' /\
    _alarm_based_timeout (Some (-1)%Q) (fun _ => ret tt) world_main
    = Raise ItimerError w' /\
    itimer w' = itimer world_main /\
    sigalrm w' =
      Some (mkAlarmHandler (length (tokens world_main)) (Some (-1)%Q)
              (Some (clock world_main (ticks world_main) + -1)%Q)) /\
    tokens w' =
      tokens world_main ++
      [fresh_token (Some (-1)%Q)
         (Some (clock world_main (S (ticks world_main)) + -1)%Q) CancelAlarm].
Proof.
  apply (alarm_negative_timeout (-1)%Q (fun _ => ret tt) world_main);
    [reflexivity|split; lra].
Defined.

Lemma nested_alarm_scopes_witness :
  exists e w' tok1 tok2,
    _alarm_based_timeout (Some 2%Q)
      (fun _ =>
         _alarm_based_timeout (Some 1%Q) (fun _ => ret tt) >> raise_sigalrm)
      world_main
    = Raise e w' /\
    (e = TimeoutError \/ e = CancelledError) /\
    tokens w' !! length (tokens world_main) = Some tok1 /\
    _cancelled tok1 = false /\ _completed tok1 = true /\
    tokens w' !! S (length (tokens world_main)) = Some tok2 /\
    _cancelled tok2 = false /\ _completed tok2 = true /\
    itimer w' = itimer world_main.
Proof.
  apply (nested_alarm_scopes 2%Q 1%Q world_main);
    [reflexivity|lra|lra|split; simpl; lra].
Defined.

Lemma watcher_scope_outcome_witness :
  exists w3,
    events w3 !! 0 = Some true /\
    tokens w3 !! 0 =
      Some (set_completed
              (fresh_token (Some 1%Q) (Some (0 + 1)%Q) (CancelInject 1))) /\
    (forall a, ret tt world_watched = Ok a world_watched ->
       _watcher_thread_based_timeout (Some 1%Q) (fun _ => ret tt) world_worker
       = Ok a w3) /\
    (forall e, ret tt world_watched = Raise e world_watched ->
       _watcher_thread_based_timeout (Some 1%Q) (fun _ => ret tt) world_worker
       = Raise e w3).
Proof.
  apply (watcher_scope_outcome (Some 1%Q) (fun _ => ret tt) world_worker
           world_watched world_watched 0 0
           (fresh_token (Some 1%Q) (Some (0 + 1)%Q) (CancelInject 1)));
    first [reflexivity|by eexists].
Defined.

Lemma async_cancel_requests_scope_witness :
  exists w3 sc,
    cancel 0 world_in_scope = Ok tt w3 /\
    scopes w3 !! 0 = Some sc /\ cancel_called sc = true /\
    scope_deadline sc = None /\
    is_cancelled (tokens w3) 0 = true.
Proof.
  apply (async_cancel_requests_scope None world_main world_in_scope
           world_in_scope 0 0 (fresh_token None None (CancelScope 0))
           rank_by_address).
  - by apply all_unlocked_free.
  - reflexivity.
  - apply rtc_refl.
  - reflexivity.
  - reflexivity.
  - by apply acyclic_by_ranked.
Defined.

Lemma steps_world_watched_from_main :
  steps world_watched world_watched_from_main.
Proof. apply rtc_once. by apply (step_return _ _ (OpSchedule 0 [0; 1])). Qed.

Lemma watcher_cancel_injects_witness :
  exists h',
    cancel 0 world_watched_from_main =
      Ok tt (with_async_exc
               (async_exc world_watched_from_main ++ [(1, CancelledError)])
               (with_tokens h' world_watched_from_main)) /\
    h' !! 0 =
      Some (set_cancelled
              (fresh_token (Some 1%Q) (Some (0 + 1)%Q) (CancelInject 1))).
Proof.
  apply (watcher_cancel_injects (Some 1%Q) world_worker world_watched
           world_watched_from_main 0 0
           (fresh_token (Some 1%Q) (Some (0 + 1)%Q) (CancelInject 1))
           rank_by_address).
  - by apply all_unlocked_free.
  - reflexivity.
  - apply steps_world_watched_from_main.
  - reflexivity.
  - reflexivity.
  - by apply acyclic_by_ranked.
  - simpl. lia.
  - simpl. by repeat constructor.
Defined.

Lemma alarm_cancel_raises_witness :
  exists d e w3,
    sigalrm world_alarmed = Some (mkAlarmHandler 0 (Some 1%Q) (Some d)) /\
    cancel 0 world_alarmed = Raise e w3 /\
    (e = TimeoutError <->
     (d <= clock world_alarmed (ticks world_alarmed))%Q) /\
    (e = TimeoutError \/ e = CancelledError) /\
    is_cancelled (tokens w3) 0 = true.
Proof.
  apply (alarm_cancel_raises 1%Q world_main world_alarmed world_alarmed 0
           (Some (itimer world_main))
           (fresh_token (Some 1%Q) (Some (0 + 1)%Q) CancelAlarm)
           rank_by_address).
  - by apply all_unlocked_free.
  - reflexivity.
  - apply rtc_refl.
  - reflexivity.
  - reflexivity.
  - reflexivity.
  - reflexivity.
  - by apply acyclic_by_ranked.
Defined.
